(** * Pagerando support of the bionic linker

    A shallow embedding of [linker/rando_map.cpp] (the registry of
    diversified code regions: an arena allocator and a treap keyed by
    address intervals) and of [linker/linker_pagerando.cpp] (the random
    address sampler and the POT index map), with the properties the
    specification states about them.

    Pointers are addresses in [Z]; [0] is [nullptr].  The node memory is a
    finite map from node addresses to node records; every function that
    reads or writes memory is a state transformer over [state], and the
    process-terminating [__libc_fatal] is an outcome of its own. *)

From Stdlib Require Import ZArith List Lia Ascii.
From stdpp Require Import base option list sorting gmap strings.

Local Open Scope Z_scope.

(** * Part I: the source

    The definitions of this part follow the two source files function by
    function and keep their names. *)

(** ** Target architectures

    The pagerando ranges are "only implemented for ARM, AArch64"; the width
    of [ElfW(Addr)], [uintptr_t] and [size_t] follows the target. *)

Inductive arch : Type := arm | aarch64.

Definition addr_bits (a : arch) : Z :=
  match a with arm => 32 | aarch64 => 64 end.

Definition addr_modulus (a : arch) : Z := 2 ^ addr_bits a.

(** Full-width unsigned wrap-around of the native address type. *)
Definition wrap (a : arch) (z : Z) : Z := z mod addr_modulus a.

Definition UINT32_MAX : Z := 2 ^ 32 - 1.

(** [PAGE_SIZE] comes from the libc headers, which are not part of the
    two source files; bionic defines it as 4096. *)
Definition PAGE_SIZE : Z := 4096.

(** ** rando_map.cpp : data *)

Definition kMapVersion : Z := 1.

Record RandoMapNode : Type := mkNode {
  div_start : Z;
  div_end : Z;
  undiv_start : Z;
  undiv_vaddr : Z;
  num_funcs : Z;
  funcs : Z;
  left : Z;
  right : Z;
  prio : Z
}.

Record RandoMapHeader : Type := mkHeader {
  version : Z;
  root : Z
}.

Record RandoMapPage : Type := mkPage {
  next : Z;
  limit : Z
}.

(** Eight pointer-sized members followed by a [uint32_t], padded to pointer
    alignment: nine words on both targets. *)
Definition sizeof_RandoMapNode (a : arch) : Z := 9 * (addr_bits a / 8).
Definition sizeof_RandoMapHeader (a : arch) : Z := 2 * (addr_bits a / 8).

(** All-zero bytes read as a node. *)
Definition zero_node : RandoMapNode := mkNode 0 0 0 0 0 0 0 0 0.

Definition set_div_start (v : Z) (n : RandoMapNode) : RandoMapNode :=
  mkNode v (div_end n) (undiv_start n) (undiv_vaddr n) (num_funcs n) (funcs n)
         (left n) (right n) (prio n).
Definition set_div_end (v : Z) (n : RandoMapNode) : RandoMapNode :=
  mkNode (div_start n) v (undiv_start n) (undiv_vaddr n) (num_funcs n) (funcs n)
         (left n) (right n) (prio n).
Definition set_undiv_start (v : Z) (n : RandoMapNode) : RandoMapNode :=
  mkNode (div_start n) (div_end n) v (undiv_vaddr n) (num_funcs n) (funcs n)
         (left n) (right n) (prio n).
Definition set_undiv_vaddr (v : Z) (n : RandoMapNode) : RandoMapNode :=
  mkNode (div_start n) (div_end n) (undiv_start n) v (num_funcs n) (funcs n)
         (left n) (right n) (prio n).
Definition set_num_funcs (v : Z) (n : RandoMapNode) : RandoMapNode :=
  mkNode (div_start n) (div_end n) (undiv_start n) (undiv_vaddr n) v (funcs n)
         (left n) (right n) (prio n).
Definition set_funcs (v : Z) (n : RandoMapNode) : RandoMapNode :=
  mkNode (div_start n) (div_end n) (undiv_start n) (undiv_vaddr n) (num_funcs n) v
         (left n) (right n) (prio n).
Definition set_left (v : Z) (n : RandoMapNode) : RandoMapNode :=
  mkNode (div_start n) (div_end n) (undiv_start n) (undiv_vaddr n) (num_funcs n) (funcs n)
         v (right n) (prio n).
Definition set_right (v : Z) (n : RandoMapNode) : RandoMapNode :=
  mkNode (div_start n) (div_end n) (undiv_start n) (undiv_vaddr n) (num_funcs n) (funcs n)
         (left n) v (prio n).
Definition set_prio (v : Z) (n : RandoMapNode) : RandoMapNode :=
  mkNode (div_start n) (div_end n) (undiv_start n) (undiv_vaddr n) (num_funcs n) (funcs n)
         (left n) (right n) v.

(** The file-level statics of rando_map.cpp together with the memory they
    point into.  [nodes] is the node memory (an address that holds no
    record reads as zero bytes, which is what a fresh anonymous mapping
    contains); [rando_map_header] is [None] while the pointer is null;
    [mmap_pool] lists the addresses the operating system will hand out on
    the next calls of [mmap] (an exhausted pool is [MAP_FAILED]). *)
Record state : Type := mkState {
  nodes : gmap Z RandoMapNode;
  current_page : RandoMapPage;
  free_list : Z;
  rando_map_header : option RandoMapHeader;
  mmap_pool : list Z
}.

Definition set_nodes (m : gmap Z RandoMapNode) (s : state) : state :=
  mkState m (current_page s) (free_list s) (rando_map_header s) (mmap_pool s).
Definition set_current_page (p : RandoMapPage) (s : state) : state :=
  mkState (nodes s) p (free_list s) (rando_map_header s) (mmap_pool s).
Definition set_free_list (f : Z) (s : state) : state :=
  mkState (nodes s) (current_page s) f (rando_map_header s) (mmap_pool s).
Definition set_rando_map_header (h : option RandoMapHeader) (s : state) : state :=
  mkState (nodes s) (current_page s) (free_list s) h (mmap_pool s).
Definition set_mmap_pool (l : list Z) (s : state) : state :=
  mkState (nodes s) (current_page s) (free_list s) (rando_map_header s) l.

(** The statics before [rando_map_init] has run. *)
Definition initial_state (pool : list Z) : state :=
  mkState ∅ (mkPage 0 0) 0 None pool.

(** ** Outcomes and the state monad *)

Inductive outcome (A : Type) : Type :=
| Done (x : A) (s : state)   (* the call returned *)
| Fatal (msg : string)       (* __libc_fatal terminated the process *)
| Fault                      (* a null pointer was dereferenced *)
| OutOfFuel.                 (* the recursion budget of the model ran out *)

Arguments Done {A} x s.
Arguments Fatal {A} msg.
Arguments Fault {A}.
Arguments OutOfFuel {A}.

Definition M (A : Type) : Type := state → outcome A.

Definition ret {A} (x : A) : M A := λ s, Done x s.

Definition bind {A B} (c : M A) (k : A → M B) : M B := λ s,
  match c s with
  | Done x s' => k x s'
  | Fatal msg => Fatal msg
  | Fault => Fault
  | OutOfFuel => OutOfFuel
  end.

Notation "x <- c ;; k" := (bind c (λ x, k))
  (at level 100, c at next level, right associativity).
Notation "c ;;; k" := (bind c (λ _, k))
  (at level 100, right associativity).

Definition __libc_fatal {A} (msg : string) : M A := λ _, Fatal msg.

(** Reading a whole node through a pointer. *)
Definition load (p : Z) : M RandoMapNode := λ s,
  if decide (p = 0) then Fault
  else Done (default zero_node (nodes s !! p)) s.

(** Writing one member through a pointer: [p->field = v]. *)
Definition update (p : Z) (f : RandoMapNode → RandoMapNode) : M unit := λ s,
  if decide (p = 0) then Fault
  else Done tt (set_nodes (<[p := f (default zero_node (nodes s !! p))]> (nodes s)) s).

(** A [RandoMapNode **]: the address of the header's [root] member or of
    the [left] or [right] member of a node. *)
Inductive slot : Type :=
| RootSlot
| LeftOf (p : Z)
| RightOf (p : Z).

Definition read_slot (ptr : slot) : M Z :=
  match ptr with
  | RootSlot => λ s,
      match rando_map_header s with
      | Some h => Done (root h) s
      | None => Fault
      end
  | LeftOf p => n <- load p ;; ret (left n)
  | RightOf p => n <- load p ;; ret (right n)
  end.

Definition write_slot (ptr : slot) (v : Z) : M unit :=
  match ptr with
  | RootSlot => λ s,
      match rando_map_header s with
      | Some h => Done tt (set_rando_map_header (Some (mkHeader (version h) v)) s)
      | None => Fault
      end
  | LeftOf p => update p (set_left v)
  | RightOf p => update p (set_right v)
  end.

(** ** rando_map.cpp : the arena allocator *)

Section RandoMap.

Variable a : arch.

Definition get_state : M state := λ s, Done s s.
Definition put_state (s' : state) : M unit := λ _, Done tt s'.

(** [memset(map_start, 0, PAGE_SIZE)]: every node record inside the page
    is dropped, so that the page reads as zero bytes. *)
Definition memset_page (map_start : Z) (m : gmap Z RandoMapNode) : gmap Z RandoMapNode :=
  filter (λ kv, ¬ (map_start ≤ kv.1 < map_start + PAGE_SIZE)) m.

Definition alloc_map_page : M Z := λ s,
  match mmap_pool s with
  | [] => Fatal "rando_map mmap failed"
  | map_start :: pool =>
      let map_end := wrap a (map_start + PAGE_SIZE) in
      Done map_start
        (set_current_page
           (mkPage map_start (wrap a (map_end - sizeof_RandoMapNode a)))
           (set_nodes (memset_page map_start (nodes s)) (set_mmap_pool pool s)))
  end.

Definition rando_map_init : M unit :=
  map_start <- alloc_map_page ;;
  (* prctl(PR_SET_VMA, ...) only names the mapping *)
  s <- get_state ;;
  put_state
    (set_current_page
       (mkPage (wrap a (map_start + sizeof_RandoMapHeader a)) (limit (current_page s)))
       (set_rando_map_header (Some (mkHeader kMapVersion 0)) s)).

(** [current_page.next++] *)
Definition bump_next : M unit := λ s,
  Done tt (set_current_page
             (mkPage (wrap a (next (current_page s) + sizeof_RandoMapNode a))
                     (limit (current_page s))) s).

Definition alloc_node : M Z :=
  s <- get_state ;;
  if decide (free_list s ≠ 0) then
    let res := free_list s in
    n <- load res ;;
    s1 <- get_state ;;
    put_state (set_free_list (right n) s1) ;;;
    ret res
  else
    (if decide (next (current_page s) > limit (current_page s))
     then (_ <- alloc_map_page ;; ret tt) else ret tt) ;;;
    s1 <- get_state ;;
    let res := next (current_page s1) in
    bump_next ;;;
    ret res.

(** ** rando_map.cpp : the treap *)

Definition rotate_left_son (ptr : slot) : M Z :=
  curr <- read_slot ptr ;;
  c <- load curr ;;
  let son := left c in
  sn <- load son ;;
  let gson := right sn in
  update son (set_right curr) ;;;
  update curr (set_left gson) ;;;
  write_slot ptr son ;;;
  ret son.

Definition rotate_right_son (ptr : slot) : M Z :=
  curr <- read_slot ptr ;;
  c <- load curr ;;
  let son := right c in
  sn <- load son ;;
  let gson := left sn in
  update son (set_left curr) ;;;
  update curr (set_right gson) ;;;
  write_slot ptr son ;;;
  ret son.

(** The C recursion is unbounded; [fuel] bounds its depth and [OutOfFuel]
    reports that the bound was hit. *)
Fixpoint map_tree_insert_node (fuel : nat) (node : Z) (ptr : slot) : M unit :=
  match fuel with
  | O => λ _, OutOfFuel
  | S fuel' =>
      curr <- read_slot ptr ;;
      if decide (curr = 0) then write_slot ptr node
      else
        n <- load node ;;
        c <- load curr ;;
        if decide (div_start n < div_start c) then
          map_tree_insert_node fuel' node (LeftOf curr) ;;;
          c1 <- load curr ;;
          l <- load (left c1) ;;
          if decide (prio l > prio c1) then (_ <- rotate_left_son ptr ;; ret tt)
          else ret tt
        else if decide (div_start n >= div_end c) then
          map_tree_insert_node fuel' node (RightOf curr) ;;;
          c1 <- load curr ;;
          r <- load (right c1) ;;
          if decide (prio r > prio c1) then (_ <- rotate_right_son ptr ;; ret tt)
          else ret tt
        else __libc_fatal "overlapping rando map nodes"
  end.

Fixpoint map_tree_delete_node (fuel : nat) (div_start' : Z) (ptr : slot) : M Z :=
  match fuel with
  | O => λ _, OutOfFuel
  | S fuel' =>
      curr <- read_slot ptr ;;
      if decide (curr = 0) then __libc_fatal "trying to delete inexistent node"
      else
        c <- load curr ;;
        if decide (div_start' < div_start c) then
          map_tree_delete_node fuel' div_start' (LeftOf curr)
        else if decide (div_start' >= div_end c) then
          map_tree_delete_node fuel' div_start' (RightOf curr)
        else
          (* Found it!!! *)
          update curr (set_prio 0) ;;;
          if decide (left c = 0) then
            write_slot ptr (right c) ;;; ret curr
          else if decide (right c = 0) then
            write_slot ptr (left c) ;;; ret curr
          else
            l <- load (left c) ;;
            r <- load (right c) ;;
            if decide (prio l > prio r) then
              son <- rotate_left_son ptr ;;
              map_tree_delete_node fuel' div_start' (RightOf son)
            else
              son <- rotate_right_son ptr ;;
              map_tree_delete_node fuel' div_start' (LeftOf son)
  end.

(** Modelled from the spec: [arc4random_uniform] is libc code outside the
    two source files.  The specification only says that priorities are
    drawn uniformly at random, so the model follows the function as libc
    documents it: it draws 32-bit words until one is not below
    [2^32 mod upper_bound], the smallest word from which the words divide
    evenly into [upper_bound] classes, and returns that word modulo
    [upper_bound] (zero when [upper_bound < 2]).  [arc4random_min] is that
    threshold, computed as libc does with 32-bit wrap-around. *)
Definition arc4random_min (upper_bound : Z) : Z :=
  ((- upper_bound) mod 2 ^ 32) mod upper_bound.

(** Modelled from the spec: the 32-bit words that
    [arc4random_uniform(upper_bound)] does not reject. *)
Definition arc4random_accepts (upper_bound raw : Z) : Prop :=
  arc4random_min upper_bound ≤ raw < 2 ^ 32.

(** Modelled from the spec: the value [arc4random_uniform(upper_bound)]
    returns when [raw] is the 32-bit word of the random stream that it
    accepts. *)
Definition arc4random_uniform (upper_bound : Z) (raw : Z) : Z :=
  if decide (upper_bound < 2) then 0 else raw mod upper_bound.

(** [raw] is the randomness consumed by the call. *)
Definition rando_map_add (fuel : nat)
    (div_start div_size undiv_start undiv_vaddr num_funcs funcs : Z)
    (raw : Z) : M unit :=
  node <- alloc_node ;;
  bump_next ;;;
  update node (set_div_start div_start) ;;;
  update node (set_div_end (wrap a (div_start + div_size))) ;;;
  update node (set_undiv_start undiv_start) ;;;
  update node (set_undiv_vaddr undiv_vaddr) ;;;
  update node (set_num_funcs num_funcs) ;;;
  update node (set_funcs funcs) ;;;
  update node (set_left 0) ;;;
  update node (set_right 0) ;;;
  update node (set_prio (arc4random_uniform UINT32_MAX raw)) ;;;
  map_tree_insert_node fuel node RootSlot.

Definition rando_map_delete (fuel : nat) (div_start : Z) : M unit :=
  node <- map_tree_delete_node fuel div_start RootSlot ;;
  (* Put node on the free list *)
  update node (λ _, zero_node) ;;;
  s <- get_state ;;
  update node (set_right (free_list s)) ;;;
  s1 <- get_state ;;
  put_state (set_free_list node s1).

End RandoMap.

(** ** The lookup *)

(** Modelled from the spec: the lookup of a diversified address is not in
    the two source files.  The specification describes it as the tree
    descent "by the same start/end comparison" as insert and delete: left
    when the address is below [div_start], right when it is at or above
    [div_end], found otherwise.  It returns the address of the node it
    reaches, or [0]. *)
Fixpoint rando_map_lookup (fuel : nat) (addr : Z) (curr : Z) : M Z :=
  match fuel with
  | O => λ _, OutOfFuel
  | S fuel' =>
      if decide (curr = 0) then ret 0
      else
        c <- load curr ;;
        if decide (addr < div_start c) then rando_map_lookup fuel' addr (left c)
        else if decide (addr >= div_end c) then rando_map_lookup fuel' addr (right c)
        else ret curr
  end.

(** Modelled from the spec: the lookup entry point, which starts the
    descent at the root held by the registry header. *)
Definition rando_map_find (fuel : nat) (addr : Z) : M Z :=
  curr <- read_slot RootSlot ;; rando_map_lookup fuel addr curr.

(** ** linker_pagerando.cpp : the address sampler *)

Definition RAND_ADDR_LOW (a : arch) : Z :=
  match a with arm => 0xb0000000 | aarch64 => 0x1000000000 end.

Definition RAND_ADDR_HIGH (a : arch) : Z :=
  match a with arm => 0xb6000000 | aarch64 => 0x5000000000 end.

(** [ElfW(Addr) range = RAND_ADDR_HIGH - RAND_ADDR_LOW] *)
Definition sampler_range (a : arch) : Z :=
  wrap a (RAND_ADDR_HIGH a - RAND_ADDR_LOW a).

(** [ElfW(Addr) min = -range % range] *)
Definition sampler_min (a : arch) : Z :=
  wrap a (- sampler_range a) mod sampler_range a.

(** The do-while loop: [draws] lists the full-width values that
    successive calls of [arc4random_buf] deliver; the loop takes the first
    one that is not below [min].  [None]: every value listed was
    rejected and the loop is still drawing. *)
Fixpoint first_accepted (min : Z) (draws : list Z) : option Z :=
  match draws with
  | [] => None
  | random_start_address :: rest =>
      if decide (random_start_address < min) then first_accepted min rest
      else Some random_start_address
  end.

(** [random_start_address % range + RAND_ADDR_LOW] *)
Definition address_of_draw (a : arch) (v : Z) : Z :=
  wrap a (v mod sampler_range a + RAND_ADDR_LOW a).

Definition get_random_address (a : arch) (draws : list Z) : option Z :=
  match first_accepted (sampler_min a) draws with
  | Some v => Some (address_of_draw a v)
  | None => None
  end.

(** ** linker_pagerando.cpp : the POT base *)

(** [g_pot_base] is the static of that name.  [mmap] is what the
    reservation of [kPOTSize] bytes returns for a hint ([None] is
    [MAP_FAILED]); [draws] feeds the sampler, which is called only when the
    base is not yet set.  The result is the value returned and the static
    afterwards; [None]: the sampler is still drawing. *)
Definition get_pot_base (a : arch) (draws : list Z) (mmap : Z → option Z)
    (g_pot_base : Z) : option (Z * Z) :=
  if decide (g_pot_base = 0) then
    match get_random_address a draws with
    | None => None
    | Some hint =>
        match mmap hint with
        | None => Some (0, g_pot_base)
        | Some map_base => Some (map_base, map_base)
        end
    end
  else Some (g_pot_base, g_pot_base).

(** ** linker_pagerando.cpp : the POT index map *)

Section POTIndex.

(** The sentinel is defined in linker_pagerando.h, outside the two source
    files: whatever [size_t] value it is, this file takes it as given. *)
Variable kPOTIndexError : Z.

Local Open Scope nat_scope.

(** A [std::string] is the list of its characters. *)
Definition newline : ascii := "010"%char.

(** [content.find(c, pos)]; [None] is [std::string::npos]. *)
Definition find (content : list ascii) (c : ascii) (pos : nat) : option nat :=
  (λ ix, pos + ix.1) <$> list_find (λ x, x = c) (drop pos content).

(** [content.substr(pos)] and [content.substr(pos, len)] *)
Definition substr_from (content : list ascii) (pos : nat) : list ascii :=
  drop pos content.
Definition substr (content : list ascii) (pos len : nat) : list ascii :=
  take len (drop pos content).

Record POTIndexMap : Type := mkPOTIndexMap {
  pot_indices_ : gmap (list ascii) nat;
  initialized_ : bool
}.

(** [static POTIndexMap g_pot_map;] *)
Definition g_pot_map : POTIndexMap := mkPOTIndexMap ∅ false.

(** The do-while loop of [read_pot_map]; [fuel] bounds its iterations. *)
Fixpoint read_pot_map_loop (fuel : nat) (content : list ascii) (pos index : nat)
    (pot_indices : gmap (list ascii) nat) : gmap (list ascii) nat :=
  match fuel with
  | O => pot_indices
  | S fuel' =>
      let next_newline := find content newline pos in
      let line :=
        match next_newline with
        | None => substr_from content pos
        | Some n => substr content pos (n - pos)
        end in
      let pot_indices' := <[line := index]> pot_indices in
      match next_newline with
      | None => pot_indices'
      | Some n => read_pot_map_loop fuel' content (n + 1) (index + 1) pot_indices'
      end
  end.

(** [file] is what [ReadFileToString] finds at the map path: the content
    of the file, or [None] when it cannot be read.  Every round of the loop
    moves [pos] past one newline, so one round more than the content has
    characters is always enough. *)
Definition read_pot_map (file : option (list ascii)) (m : POTIndexMap)
    : bool * POTIndexMap :=
  match file with
  | None => (false, m)
  | Some content =>
      (true,
       mkPOTIndexMap
         (read_pot_map_loop (S (length content)) content 0 0 (pot_indices_ m))
         (initialized_ m))
  end.

Definition find_pot_index (soname : list ascii) (m : POTIndexMap) : Z :=
  match pot_indices_ m !! soname with
  | None => kPOTIndexError
  | Some index => Z.of_nat index
  end.

Definition get_pot_index (file : option (list ascii)) (soname : list ascii)
    (m : POTIndexMap) : Z * POTIndexMap :=
  if initialized_ m then (find_pot_index soname m, m)
  else
    match read_pot_map file m with
    | (false, m1) => (kPOTIndexError, m1)
    | (true, m1) =>
        let m2 := mkPOTIndexMap (pot_indices_ m1) true in
        (find_pot_index soname m2, m2)
    end.

End POTIndex.

(** * Part II: the vocabulary of the specification

    The tree a memory state represents, what the operations do to it, the
    invariants, and the example registries used further down. *)

(** ** The tree a memory state represents

    The content of a node apart from its two links. *)
Record entry : Type := mkEntry {
  e_start : Z;
  e_end : Z;
  e_undiv_start : Z;
  e_undiv_vaddr : Z;
  e_num_funcs : Z;
  e_funcs : Z;
  e_prio : Z
}.

Definition node_of (e : entry) (l r : Z) : RandoMapNode :=
  mkNode (e_start e) (e_end e) (e_undiv_start e) (e_undiv_vaddr e)
         (e_num_funcs e) (e_funcs e) l r (e_prio e).

Definition entry_of (n : RandoMapNode) : entry :=
  mkEntry (div_start n) (div_end n) (undiv_start n) (undiv_vaddr n)
          (num_funcs n) (funcs n) (prio n).

Definition with_prio (v : Z) (e : entry) : entry :=
  mkEntry (e_start e) (e_end e) (e_undiv_start e) (e_undiv_vaddr e)
          (e_num_funcs e) (e_funcs e) v.

(** The shape of the pointer structure: which node sits at which address,
    with which content. *)
Inductive tree : Type :=
| Leaf
| Node (l : tree) (p : Z) (e : entry) (r : tree).

Definition root_of (t : tree) : Z :=
  match t with Leaf => 0 | Node _ p _ _ => p end.

Fixpoint items (t : tree) : list (Z * entry) :=
  match t with
  | Leaf => []
  | Node l p e r => items l ++ (p, e) :: items r
  end.

Definition addrs (t : tree) : list Z := (items t).*1.
Definition entries (t : tree) : list entry := (items t).*2.

Fixpoint size (t : tree) : nat :=
  match t with
  | Leaf => O
  | Node l _ _ r => S (size l + size r)
  end.

(** [rep m t]: memory [m] holds the nodes of [t], linked as [t] says. *)
Fixpoint rep (m : gmap Z RandoMapNode) (t : tree) : Prop :=
  match t with
  | Leaf => True
  | Node l p e r =>
      p ≠ 0 ∧ m !! p = Some (node_of e (root_of l) (root_of r)) ∧
      rep m l ∧ rep m r
  end.

(** The treap hanging off the header is [t]: the live nodes are exactly
    the nodes of [t], each at an address of its own. *)
Definition represents (s : state) (t : tree) : Prop :=
  (∃ h, rando_map_header s = Some h ∧ root h = root_of t) ∧
  rep (nodes s) t ∧ NoDup (addrs t).

(** ** The operations on the represented tree *)

Definition rot_left_son (t : tree) : tree :=
  match t with
  | Node (Node ll q y lr) p x r => Node ll q y (Node lr p x r)
  | _ => t
  end.

Definition rot_right_son (t : tree) : tree :=
  match t with
  | Node l p x (Node rl q y rr) => Node (Node l p x rl) q y rr
  | _ => t
  end.

Arguments rot_left_son : simpl never.
Arguments rot_right_son : simpl never.

Definition top_prio (t : tree) : Z :=
  match t with Leaf => 0 | Node _ _ e _ => e_prio e end.

(** What [map_tree_insert_node] does to the tree; [None] is the fatal
    path. *)
Fixpoint insert_tree (p : Z) (x : entry) (t : tree) : option tree :=
  match t with
  | Leaf => Some (Node Leaf p x Leaf)
  | Node l q y r =>
      if decide (e_start x < e_start y) then
        match insert_tree p x l with
        | Some l' =>
            Some (if decide (top_prio l' > e_prio y)
                  then rot_left_son (Node l' q y r) else Node l' q y r)
        | None => None
        end
      else if decide (e_start x >= e_end y) then
        match insert_tree p x r with
        | Some r' =>
            Some (if decide (top_prio r' > e_prio y)
                  then rot_right_son (Node l q y r') else Node l q y r')
        | None => None
        end
      else None
  end.

(** What the rotations of [map_tree_delete_node] leave of the two
    subtrees of the node that is taken out. *)
Fixpoint merge (l : tree) : tree → tree :=
  match l with
  | Leaf => λ r, r
  | Node ll q y lr =>
      fix merge_r (r : tree) : tree :=
        match r with
        | Leaf => Node ll q y lr
        | Node rl q' z rr =>
            if decide (e_prio y > e_prio z)
            then Node ll q y (merge lr (Node rl q' z rr))
            else Node (merge_r rl) q' z rr
        end
  end.

(** What [map_tree_delete_node] does to the tree: the address and content
    of the node taken out and the remaining tree; [None] is the fatal
    path. *)
Fixpoint delete_tree (d : Z) (t : tree) : option (Z * entry * tree) :=
  match t with
  | Leaf => None
  | Node l q y r =>
      if decide (d < e_start y) then
        match delete_tree d l with
        | Some (v, l') => Some (v, Node l' q y r)
        | None => None
        end
      else if decide (d >= e_end y) then
        match delete_tree d r with
        | Some (v, r') => Some (v, Node l q y r')
        | None => None
        end
      else Some (q, y, merge l r)
  end.

(** The state in which [rando_map_add] calls [map_tree_insert_node]: the
    registry [s] with the node at [node] filled in with the content [x] and
    null links, not yet linked into the tree. *)
Definition pending (node : Z) (x : entry) (s : state) : state :=
  set_nodes (<[node := node_of x 0 0]> (nodes s)) s.


(** ** The invariants of the treap *)

(** Binary-search-tree order: the in-order traversal of [div_start] is
    strictly ascending. *)
Definition bst (t : tree) : Prop := Sorted Z.lt (e_start <$> entries t).

(** The same, allowing equal neighbours. *)
Definition bst_weak (t : tree) : Prop := Sorted Z.le (e_start <$> entries t).

Definition top_le (t : tree) (k : Z) : Prop :=
  match t with Leaf => True | Node _ _ e _ => e_prio e ≤ k end.

(** Max-heap order: the priority of a node is at least that of each child
    it has. *)
Fixpoint heap (t : tree) : Prop :=
  match t with
  | Leaf => True
  | Node l _ e r => heap l ∧ heap r ∧ top_le l (e_prio e) ∧ top_le r (e_prio e)
  end.

Definition contains (e : entry) (d : Z) : Prop := e_start e ≤ d < e_end e.

(** Two entries overlap when some address lies in both intervals. *)
Definition overlap (x y : entry) : Prop :=
  ∃ d, contains x d ∧ contains y d.

(** [x] lies wholly before [y]. *)
Definition before (x y : entry) : Prop :=
  e_start x ≤ e_start y ∧ e_end x ≤ e_start y.

(** The live intervals are in ascending order and pairwise disjoint. *)
Definition ordered_disjoint (t : tree) : Prop :=
  StronglySorted before (entries t).

Definition nonempty (e : entry) : Prop := e_start e < e_end e.

(** The in-order traversal is sorted by a relation on [div_start]. *)
Definition key (i : Z * entry) : Z := e_start i.2.

Definition sorted_by (R : relation Z) (t : tree) : Prop :=
  StronglySorted (λ i j, R (key i) (key j)) (items t).

(** ** Slots and frames *)

(** The slot [ptr] currently holds the pointer [v]. *)
Definition slot_holds (ptr : slot) (v : Z) (s : state) : Prop :=
  match ptr with
  | RootSlot => ∃ h, rando_map_header s = Some h ∧ root h = v
  | LeftOf o => o ≠ 0 ∧ ∃ n, nodes s !! o = Some n ∧ left n = v
  | RightOf o => o ≠ 0 ∧ ∃ n, nodes s !! o = Some n ∧ right n = v
  end.

(** The slot [ptr] is not a member of any node at an address in [X]. *)
Definition slot_sep (ptr : slot) (X : list Z) : Prop :=
  match ptr with
  | RootSlot => True
  | LeftOf o | RightOf o => o ∉ X
  end.

(** The state after [*ptr = v]. *)
Definition put_slot (ptr : slot) (v : Z) (s : state) : state :=
  match write_slot ptr v s with
  | Done _ s' => s'
  | _ => s
  end.

(** [m'] differs from [m] at most at the addresses in [X]. *)
Definition agree_outside (X : list Z) (m m' : gmap Z RandoMapNode) : Prop :=
  ∀ p, p ∉ X → m' !! p = m !! p.

(** The statics that the tree operations never touch. *)
Definition same_arena (s s' : state) : Prop :=
  current_page s' = current_page s ∧ free_list s' = free_list s ∧
  mmap_pool s' = mmap_pool s.

(** ** The allocator *)

(** The state after [current_page.next++]. *)
Definition bumped (a : arch) (s : state) : state :=
  set_current_page
    (mkPage (wrap a (next (current_page s) + sizeof_RandoMapNode a))
            (limit (current_page s))) s.

(** The slot that [alloc_node] is about to hand out is not a live node:
    the head of the free list when there is one, else the next slot of
    the current page, else the start of the page that [mmap] returns. *)
Definition alloc_fresh (s : state) (t : tree) : Prop :=
  if decide (free_list s ≠ 0) then free_list s ∉ addrs t
  else if decide (next (current_page s) > limit (current_page s)) then
    match mmap_pool s with
    | [] => True
    | map_start :: _ =>
        map_start ≠ 0 ∧
        Forall (λ p, ¬ (map_start ≤ p < map_start + PAGE_SIZE)) (addrs t)
    end
  else next (current_page s) ≠ 0 ∧ next (current_page s) ∉ addrs t.

#[local] Instance alloc_fresh_dec s t : Decision (alloc_fresh s t).
Proof. unfold alloc_fresh. destruct (mmap_pool s); repeat case_decide; apply _. Defined.

(** The content [rando_map_add] gives the new node. *)
Definition new_entry (a : arch)
    (div_start div_size undiv_start undiv_vaddr num_funcs funcs raw : Z) : entry :=
  mkEntry div_start (wrap a (div_start + div_size)) undiv_start undiv_vaddr
          num_funcs funcs (arc4random_uniform UINT32_MAX raw).

(** ** The sampler *)

(** The number of complete residue classes among the accepted values. *)
Definition sampler_classes (a : arch) : Z :=
  (addr_modulus a - sampler_min a) / sampler_range a.

(** The accepted full-width values that are mapped to [addr]. *)
Definition preimages (a : arch) (addr : Z) : list Z :=
  let r := addr - RAND_ADDR_LOW a in
  let k0 := if decide (r < sampler_min a) then 1 else 0 in
  (λ k, r + (k0 + k) * sampler_range a) <$> seqZ 0 (sampler_classes a).

(** ** The lines of the map file *)

(** The lines of a file: the pieces between newlines, the piece after the
    last newline included. *)
Fixpoint split_lines (s : list ascii) : list (list ascii) :=
  match s with
  | [] => [[]]
  | c :: rest =>
      if decide (c = newline) then [] :: split_lines rest
      else match split_lines rest with
           | l :: ls => (c :: l) :: ls
           | [] => [[c]]
           end
  end.

(** The map that assigning successive indices to [lines] produces. *)
Fixpoint assign (lines : list (list ascii)) (index : nat)
    (m : gmap (list ascii) nat) : gmap (list ascii) nat :=
  match lines with
  | [] => m
  | l :: ls => assign ls (S index) (<[l := index]> m)
  end.

(** ** Example registries

    The scenario of the specification: region [0x1000, 0x1400) copied
    from 0x9000 and region [0x2000, 0x2400) copied from 0xA000, registered
    on AArch64 in a registry whose first page the system maps at 0x10000. *)

Definition state_of {A} (o : outcome A) : state :=
  match o with
  | Done _ s => s
  | _ => initial_state []
  end.

Definition ex_boot : state :=
  state_of (rando_map_init aarch64 (initial_state [0x10000; 0x20000])).

Definition ex_one : state :=
  state_of (rando_map_add aarch64 4 0x1000 0x400 0x9000 0x9000 3 0x7000 700 ex_boot).

Definition ex_two : state :=
  state_of (rando_map_add aarch64 4 0x2000 0x400 0xA000 0xA000 5 0x7100 900 ex_one).

Definition ex_entry1 : entry := mkEntry 0x1000 0x1400 0x9000 0x9000 3 0x7000 700.
Definition ex_entry2 : entry := mkEntry 0x2000 0x2400 0xA000 0xA000 5 0x7100 900.

Definition ex_one_tree : tree := Node Leaf 0x10010 ex_entry1 Leaf.
Definition ex_two_tree : tree :=
  Node (Node Leaf 0x10010 ex_entry1 Leaf) 0x100a0 ex_entry2 Leaf.

(** The content of one more node, for the region [0x1800, 0x1900). *)
Definition ex_entry3 : entry := mkEntry 0x1800 0x1900 0xB000 0xB000 1 0x7200 800.

(** The registry of two regions with a third, [0x3000, 0x3100), registered
    as well: the root, [0x2000, 0x2400), has two sons. *)
Definition ex_entry4 : entry := mkEntry 0x3000 0x3100 0xB000 0xB000 0 0 800.

Definition ex_three : state :=
  state_of (rando_map_add aarch64 4 0x3000 0x100 0xB000 0xB000 0 0 800 ex_two).

Definition ex_three_tree : tree :=
  Node (Node Leaf 0x10010 ex_entry1 Leaf) 0x100a0 ex_entry2
       (Node Leaf 0x10130 ex_entry4 Leaf).

(** A registry holding the empty interval [5, 5), and a second node,
    already filled in for the interval [5, 6), about to be inserted. *)
Definition empty_interval_state : state :=
  let s := state_of (rando_map_add aarch64 4 5 0 0x9000 0x9000 0 0 1 ex_boot) in
  set_nodes (<[0x100a0 := node_of (mkEntry 5 6 0xA000 0xA000 0 0 0) 0 0]> (nodes s)) s.

Definition empty_interval_tree : tree :=
  Node Leaf 0x10010 (mkEntry 5 5 0x9000 0x9000 0 0 1) Leaf.

Definition empty_interval_tree' : tree :=
  Node Leaf 0x10010 (mkEntry 5 5 0x9000 0x9000 0 0 1)
       (Node Leaf 0x100a0 (mkEntry 5 6 0xA000 0xA000 0 0 0) Leaf).

(** The registry of [ex_one], holding [0x1000, 0x1400), after a second
    registration for [0x800, 0x2000), which strictly encloses the first. *)
Definition ex_overlap : outcome unit :=
  rando_map_add aarch64 4 0x800 0x1800 0xC000 0xC000 1 0x7300 100 ex_one.

Definition ex_entry_overlap : entry :=
  mkEntry 0x800 0x2000 0xC000 0xC000 1 0x7300 100.

Definition ex_overlap_tree : tree :=
  Node (Node Leaf 0x100a0 ex_entry_overlap Leaf) 0x10010 ex_entry1 Leaf.

(** The registry of [ex_one] after its only region has been deleted: the
    node at 0x10010 is on the free list. *)
Definition ex_freed : state := state_of (rando_map_delete 2 0x1000 ex_one).

Definition ex_reused : state :=
  state_of (rando_map_add aarch64 4 0x2000 0x400 0xA000 0xA000 5 0x7100 900 ex_freed).

Definition ex_entry_zero : entry := mkEntry 0x3000 0x3000 0xD000 0xD000 0 0 500.
Definition ex_entry_twin : entry := mkEntry 0x3000 0x3100 0xE000 0xE000 0 0 600.

(** [ex_one] with a zero-length registration at 0x3000, ... *)
Definition ex_zero : state :=
  state_of (rando_map_add aarch64 4 0x3000 0 0xD000 0xD000 0 0 500 ex_one).

(** ... and then with the region [0x3000, 0x3100) registered as well. *)
Definition ex_zero_twin : state :=
  state_of (rando_map_add aarch64 4 0x3000 0x100 0xE000 0xE000 0 0 600 ex_zero).

Definition ex_zero_tree : tree :=
  Node Leaf 0x10010 ex_entry1 (Node Leaf 0x100a0 ex_entry_zero Leaf).

Definition ex_zero_twin_tree : tree :=
  Node Leaf 0x10010 ex_entry1
       (Node (Node Leaf 0x100a0 ex_entry_zero Leaf) 0x10130 ex_entry_twin Leaf).

Definition ex_soname : list ascii := String.list_ascii_of_string "libc.so".

(** The map file with the two lines "libc.so" and "libc.so". *)
Definition ex_twice : list ascii := ex_soname ++ newline :: ex_soname.





(** ** The arena invariant *)

(** The free list that starts at [p] threads exactly the nodes [fl], in
    this order, through their [right] members. *)
Fixpoint free_chain (m : gmap Z RandoMapNode) (p : Z) (fl : list Z) : Prop :=
  match fl with
  | [] => p = 0
  | q :: rest =>
      p = q ∧ q ≠ 0 ∧ free_chain m (right (default zero_node (m !! q))) rest
  end.

(** No slot that the current page can still hand out lies in the page
    that [mmap] will return at [b]. *)
Definition page_free (b : Z) (cp : RandoMapPage) : Prop :=
  limit cp < next cp ∨ limit cp < b ∨ b + PAGE_SIZE ≤ next cp.

(** A page that [mmap] will return: inside the address space, not at
    address zero, and holding none of the nodes at [X]. *)
Definition pool_page_ok (a : arch) (cp : RandoMapPage) (X : list Z) (b : Z) : Prop :=
  0 < b ∧ b + PAGE_SIZE ≤ addr_modulus a ∧ page_free b cp ∧
  Forall (λ p, ¬ (b ≤ p < b + PAGE_SIZE)) X.

(** The pages that [mmap] will return do not overlap one another. *)
Fixpoint pool_sep (pool : list Z) : Prop :=
  match pool with
  | [] => True
  | b :: rest =>
      Forall (λ b', b + PAGE_SIZE ≤ b' ∨ b' + PAGE_SIZE ≤ b) rest ∧ pool_sep rest
  end.

(** The arena is well formed: the live nodes are the tree [t], the free
    list holds the nodes [fl], no node is both, and neither the rest of the
    current page nor a page still to be mapped holds any of them. *)
Definition arena_ok (a : arch) (s : state) (t : tree) (fl : list Z) : Prop :=
  represents s t ∧
  free_chain (nodes s) (free_list s) fl ∧
  NoDup (addrs t ++ fl) ∧
  0 < next (current_page s) ∧
  Forall (λ p, ¬ (next (current_page s) ≤ p ≤ limit (current_page s)))
         (addrs t ++ fl) ∧
  Forall (pool_page_ok a (current_page s) (addrs t ++ fl)) (mmap_pool s) ∧
  pool_sep (mmap_pool s).

(** Room for [k] more registrations below the top of the address space:
    each one moves the bump pointer by at most two nodes. *)
Definition headroom (a : arch) (k : nat) (s : state) : Prop :=
  Forall (λ b, b + 2 * sizeof_RandoMapNode a * Z.of_nat k < addr_modulus a)
         (next (current_page s) :: mmap_pool s).

#[local] Instance free_chain_dec m p fl : Decision (free_chain m p fl).
Proof. revert p. induction fl as [|q rest IH]; intros p; simpl; apply _. Defined.

#[local] Instance pool_page_ok_dec a cp X b : Decision (pool_page_ok a cp X b).
Proof. unfold pool_page_ok, page_free. apply _. Defined.

#[local] Instance pool_sep_dec pool : Decision (pool_sep pool).
Proof. induction pool as [|b rest IH]; simpl; apply _. Defined.

(** ** Sequences of calls *)

(** The calls the loader makes on an initialised registry. *)
Inductive op : Type :=
| Add (div_start div_size undiv_start undiv_vaddr num_funcs funcs raw : Z)
| Delete (div_start : Z).

Definition run_op (a : arch) (fuel : nat) (o : op) : M unit :=
  match o with
  | Add ds sz us uv nf fs raw => rando_map_add a fuel ds sz us uv nf fs raw
  | Delete d => rando_map_delete fuel d
  end.

Fixpoint run_ops (a : arch) (fuel : nat) (ops : list op) : M unit :=
  match ops with
  | [] => ret tt
  | o :: rest => run_op a fuel o ;;; run_ops a fuel rest
  end.

(** The call is a registration. *)
Definition is_add (o : op) : Prop :=
  match o with Add _ _ _ _ _ _ _ => True | Delete _ => False end.

#[local] Instance is_add_dec o : Decision (is_add o).
Proof. destruct o; simpl; apply _. Defined.

(** A short run of calls: two registrations, the removal of the first,
    and a further registration. *)
Definition ex_ops : list op :=
  [Add 0x1000 0x400 0x9000 0x9000 3 0x7000 700;
   Add 0x2000 0x400 0xA000 0xA000 5 0x7100 900;
   Delete 0x1000;
   Add 0x3000 0x100 0xB000 0xB000 0 0 800].

(** A registry like [ex_one] whose current page is used up. *)
Definition ex_full : state :=
  set_current_page (mkPage 0x11000 0x10fb8) ex_one.

(** * Part III: proofs *)

(** ** Facts about the represented tree *)

Lemma items_Node l p e r : items (Node l p e r) = items l ++ (p, e) :: items r.
Proof. reflexivity. Qed.

Lemma addrs_Node l p e r : addrs (Node l p e r) = addrs l ++ p :: addrs r.
Proof. unfold addrs. simpl. by rewrite fmap_app. Qed.

Lemma entries_Node l p e r : entries (Node l p e r) = entries l ++ e :: entries r.
Proof. unfold entries. simpl. by rewrite fmap_app. Qed.

Lemma items_rot_left_son t : items (rot_left_son t) = items t.
Proof.
  destruct t as [|[|ll q y lr] p x r]; unfold rot_left_son; simpl; try done.
  by rewrite <- app_assoc.
Qed.

Lemma items_rot_right_son t : items (rot_right_son t) = items t.
Proof.
  destruct t as [|l p x [|rl q y rr]]; unfold rot_right_son; simpl; try done.
  by rewrite <- app_assoc.
Qed.

Lemma merge_Leaf_r l : merge l Leaf = l.
Proof. by destruct l. Qed.

Lemma merge_Node_Node ll q y lr rl q' z rr :
  merge (Node ll q y lr) (Node rl q' z rr) =
  if decide (e_prio y > e_prio z)
  then Node ll q y (merge lr (Node rl q' z rr))
  else Node (merge (Node ll q y lr) rl) q' z rr.
Proof. reflexivity. Qed.

Lemma items_merge l r : items (merge l r) = items l ++ items r.
Proof.
  revert r. induction l as [|ll IHll q y lr IHlr]; intros r; [done|].
  induction r as [|rl IHrl q' z rr _].
  - rewrite merge_Leaf_r. simpl. by rewrite app_nil_r.
  - rewrite merge_Node_Node. case_decide.
    + rewrite !items_Node, IHlr, items_Node. by rewrite <- app_assoc.
    + rewrite !items_Node, IHrl, items_Node. by rewrite <- app_assoc.
Qed.

Lemma insert_tree_items p x t t' :
  insert_tree p x t = Some t' →
  ∃ l1 l2, items t = l1 ++ l2 ∧ items t' = l1 ++ (p, x) :: l2.
Proof.
  revert t'. induction t as [|l IHl q y r IHr]; intros t' H; simpl in H.
  - inversion H; subst. by exists [], [].
  - repeat case_decide.
    + destruct (insert_tree p x l) as [l'|]; [|done].
      destruct (IHl l' eq_refl) as (l1 & l2 & E1 & E2).
      exists l1, (l2 ++ (q, y) :: items r).
      assert (items t' = items (Node l' q y r)) as ->.
      { inversion H. case_decide; [apply items_rot_left_son|done]. }
      simpl. rewrite E1, E2. by rewrite <- !app_assoc.
    + destruct (insert_tree p x r) as [r'|]; [|done].
      destruct (IHr r' eq_refl) as (l1 & l2 & E1 & E2).
      exists (items l ++ (q, y) :: l1), l2.
      assert (items t' = items (Node l q y r')) as ->.
      { inversion H. case_decide; [apply items_rot_right_son|done]. }
      simpl. rewrite E1, E2. by rewrite <- !app_assoc.
    + done.
Qed.

Lemma insert_tree_Node p x t t' :
  insert_tree p x t = Some t' → ∃ l q y r, t' = Node l q y r.
Proof.
  intros H. destruct (insert_tree_items _ _ _ _ H) as (l1 & l2 & _ & E).
  destruct t' as [|l q y r]; [|eauto].
  simpl in E. by destruct l1.
Qed.

Lemma insert_tree_addrs p x t t' :
  insert_tree p x t = Some t' → addrs t' ≡ₚ p :: addrs t.
Proof.
  intros H. destruct (insert_tree_items _ _ _ _ H) as (l1 & l2 & E1 & E2).
  unfold addrs. rewrite E1, E2, !fmap_app. simpl.
  by rewrite <- Permutation_middle.
Qed.

Lemma insert_tree_size p x t t' :
  insert_tree p x t = Some t' → length (items t') = S (length (items t)).
Proof.
  intros H. destruct (insert_tree_items _ _ _ _ H) as (l1 & l2 & E1 & E2).
  rewrite E1, E2, !length_app. simpl. lia.
Qed.

Lemma delete_tree_items d t v e t' :
  delete_tree d t = Some (v, e, t') →
  contains e d ∧
  ∃ l1 l2, items t = l1 ++ (v, e) :: l2 ∧ items t' = l1 ++ l2.
Proof.
  revert t'. induction t as [|l IHl q y r IHr]; intros t' H; simpl in H; [done|].
  repeat case_decide.
  - destruct (delete_tree d l) as [[[v1 e1] l']|]; [|done].
    inversion H; subst. destruct (IHl l' eq_refl) as (Hc & l1 & l2 & E1 & E2).
    split; [done|]. exists l1, (l2 ++ (q, y) :: items r).
    simpl. rewrite E1, E2. by rewrite <- !app_assoc.
  - destruct (delete_tree d r) as [[[v1 e1] r']|]; [|done].
    inversion H; subst. destruct (IHr r' eq_refl) as (Hc & l1 & l2 & E1 & E2).
    split; [done|]. exists (items l ++ (q, y) :: l1), l2.
    simpl. rewrite E1, E2. by rewrite <- !app_assoc.
  - inversion H; subst. split; [unfold contains; lia|].
    exists (items l), (items r). by rewrite items_merge.
Qed.

(** *** Order *)

Lemma StronglySorted_fmap_inv {A B} (f : A → B) (R : relation B) (l : list A) :
  StronglySorted R (f <$> l) → StronglySorted (λ x y, R (f x) (f y)) l.
Proof.
  induction l as [|x l IH]; intros H; [constructor|].
  rewrite fmap_cons in H. apply StronglySorted_cons in H as [H1 H2].
  constructor; [by apply IH|]. by rewrite Forall_fmap in H1.
Qed.

Lemma sorted_by_starts (R : relation Z) `{!Transitive R} t :
  Sorted R (e_start <$> entries t) ↔ sorted_by R t.
Proof.
  unfold sorted_by, entries, key. rewrite <- list_fmap_compose. split.
  - intros H. apply Sorted_StronglySorted in H; [|done].
    by apply (StronglySorted_fmap_inv (e_start ∘ snd)) in H.
  - intros H. apply StronglySorted_Sorted.
    by eapply (StronglySorted_fmap (e_start ∘ snd)), H.
Qed.

Lemma bst_sorted_by t : bst t ↔ sorted_by Z.lt t.
Proof. apply (sorted_by_starts Z.lt). Qed.

Lemma bst_weak_sorted_by t : bst_weak t ↔ sorted_by Z.le t.
Proof. apply (sorted_by_starts Z.le). Qed.

Section InsertOrder.

Variable R : relation Z.
Hypothesis R_trans : Transitive R.
Hypothesis R_lt : ∀ x y, x < y → R x y.

(** Where the descent of [insert_tree] puts the new node. *)
Lemma insert_tree_split p x t t' :
  insert_tree p x t = Some t' →
  sorted_by R t →
  Forall (λ i, e_end i.2 ≤ e_start x → key i ≤ e_start x → R (key i) (e_start x))
         (items t) →
  ∃ l1 l2, items t = l1 ++ l2 ∧ items t' = l1 ++ (p, x) :: l2 ∧
           Forall (λ i, R (key i) (e_start x)) l1 ∧
           Forall (λ i, R (e_start x) (key i)) l2.
Proof.
  unfold sorted_by.
  revert t'. induction t as [|l IHl q y r IHr]; intros t' H Hs Hn; simpl in H.
  - inversion H; subst. by exists [], [].
  - rewrite items_Node in Hs, Hn.
    apply StronglySorted_app in Hs as (Hlr & Hsl & Hsr).
    apply StronglySorted_cons in Hsr as (Hyr & Hsr).
    apply Forall_app in Hn as (Hnl & Hnr).
    apply Forall_cons in Hnr as (Hny & Hnr).
    repeat case_decide.
    + destruct (insert_tree p x l) as [l'|]; [|done].
      destruct (IHl l' eq_refl Hsl Hnl) as (l1 & l2 & E1 & E2 & F1 & F2).
      exists l1, (l2 ++ (q, y) :: items r).
      assert (items t' = items (Node l' q y r)) as ->.
      { inversion H. case_decide; [apply items_rot_left_son|done]. }
      rewrite !items_Node, E1, E2, <- !app_assoc. repeat split; [done|].
      apply Forall_app. split; [done|].
      assert (R (e_start x) (key (q, y))) as Hxy by by apply R_lt.
      constructor; [done|].
      eapply Forall_impl; [exact Hyr|]. intros i Hi. simpl in Hi.
      by etrans.
    + destruct (insert_tree p x r) as [r'|]; [|done].
      destruct (IHr r' eq_refl Hsr Hnr) as (l1 & l2 & E1 & E2 & F1 & F2).
      exists (items l ++ (q, y) :: l1), l2.
      assert (items t' = items (Node l q y r')) as ->.
      { inversion H. case_decide; [apply items_rot_right_son|done]. }
      rewrite !items_Node, E1, E2, <- !app_assoc. repeat split; [|done].
      assert (R (key (q, y)) (e_start x)) as Hyx.
      { apply Hny; unfold key; simpl; lia. }
      apply Forall_app. split; [|by constructor].
      apply Forall_forall. intros i Hi.
      etrans; [|exact Hyx]. apply Hlr; [done|]. by left.
    + done.
Qed.

Lemma insert_tree_sorted p x t t' :
  insert_tree p x t = Some t' →
  sorted_by R t →
  Forall (λ i, e_end i.2 ≤ e_start x → key i ≤ e_start x → R (key i) (e_start x))
         (items t) →
  sorted_by R t'.
Proof.
  intros H Hs Hn.
  destruct (insert_tree_split _ _ _ _ H Hs Hn) as (l1 & l2 & E1 & E2 & F1 & F2).
  unfold sorted_by in *. rewrite E1 in Hs. rewrite E2.
  apply StronglySorted_app in Hs as (Hlr & Hsl & Hsr).
  apply StronglySorted_app. repeat split; [|done|].
  - intros i j Hi Hj. apply elem_of_cons in Hj as [->|Hj].
    + by eapply (proj1 (Forall_forall _ _) F1).
    + by apply Hlr.
  - by constructor.
Qed.

End InsertOrder.

Lemma delete_tree_sorted (R : relation Z) d t v e t' :
  delete_tree d t = Some (v, e, t') → sorted_by R t → sorted_by R t'.
Proof.
  intros H Hs. destruct (delete_tree_items _ _ _ _ _ H) as (_ & l1 & l2 & E1 & E2).
  unfold sorted_by in *. rewrite E1 in Hs. rewrite E2.
  apply StronglySorted_app in Hs as (Hlr & Hsl & Hsr).
  apply StronglySorted_cons in Hsr as (_ & Hsr).
  apply StronglySorted_app. repeat split; [|done|done].
  intros i j Hi Hj. apply Hlr; [done|]. by right.
Qed.

(** *** Heap order *)

Lemma top_le_mono t k k' : top_le t k → k ≤ k' → top_le t k'.
Proof. destruct t; simpl; [done|lia]. Qed.

Lemma insert_tree_heap p x t t' :
  insert_tree p x t = Some t' →
  heap t →
  heap t' ∧
  ∀ k, top_le t k →
       (e_prio x ≤ k → top_le t' k) ∧
       (k < e_prio x → ∃ l r, t' = Node l p x r ∧ top_le l k ∧ top_le r k).
Proof.
  revert t'. induction t as [|l IHl q y r IHr]; intros t' H Hh; simpl in H.
  - inversion H; subst. simpl. split; [done|]. intros k _. split; [done|].
    intros _. by exists Leaf, Leaf.
  - destruct Hh as (Hhl & Hhr & Hly & Hry). repeat case_decide.
    + destruct (insert_tree p x l) as [l'|] eqn:Hi; [|done].
      destruct (IHl l' eq_refl Hhl) as (Hhl' & Hk).
      destruct (Hk _ Hly) as (Hk1 & Hk2). inversion H as [Ht']. clear H.
      destruct (decide (e_prio x ≤ e_prio y)) as [Hxy|Hxy].
      * specialize (Hk1 Hxy).
        assert (¬ top_prio l' > e_prio y) as Hno.
        { destruct (insert_tree_Node _ _ _ _ Hi) as (? & ? & ? & ? & ->).
          simpl in *; lia. }
        rewrite decide_False by done. simpl. split; [done|].
        intros k Hyk. simpl in Hyk. split; [done|]. intros ?; lia.
      * destruct Hk2 as (a & b & -> & Ha & Hb); [lia|].
        simpl in Hhl'. destruct Hhl' as (Hha & Hhb & Hax & Hbx).
        rewrite decide_True by (simpl; lia). unfold rot_left_son. simpl.
        split; [repeat split; try done; lia|].
        intros k Hyk. simpl in Hyk. split; [done|]. intros Hkx.
        exists a, (Node b q y r). repeat split; [|done].
        eapply top_le_mono; [exact Ha|done].
    + destruct (insert_tree p x r) as [r'|] eqn:Hi; [|done].
      destruct (IHr r' eq_refl Hhr) as (Hhr' & Hk).
      destruct (Hk _ Hry) as (Hk1 & Hk2). inversion H as [Ht']. clear H.
      destruct (decide (e_prio x ≤ e_prio y)) as [Hxy|Hxy].
      * specialize (Hk1 Hxy).
        assert (¬ top_prio r' > e_prio y) as Hno.
        { destruct (insert_tree_Node _ _ _ _ Hi) as (? & ? & ? & ? & ->).
          simpl in *; lia. }
        rewrite decide_False by done. simpl. split; [done|].
        intros k Hyk. simpl in Hyk. split; [done|]. intros ?; lia.
      * destruct Hk2 as (c & b & -> & Hc & Hb); [lia|].
        simpl in Hhr'. destruct Hhr' as (Hhc & Hhb & Hcx & Hbx).
        rewrite decide_True by (simpl; lia). unfold rot_right_son. simpl.
        split; [repeat split; try done; lia|].
        intros k Hyk. simpl in Hyk. split; [done|]. intros Hkx.
        exists (Node l q y c), b. repeat split; [done|].
        eapply top_le_mono; [exact Hb|done].
    + done.
Qed.

Lemma merge_heap l r :
  heap l → heap r → heap (merge l r) ∧
  ∀ k, top_le l k → top_le r k → top_le (merge l r) k.
Proof.
  revert r. induction l as [|ll IHll q y lr IHlr]; intros r Hl Hr; [done|].
  induction r as [|rl IHrl q' z rr _].
  - by rewrite merge_Leaf_r.
  - rewrite merge_Node_Node.
    destruct Hl as (Hll & Hlr & Hlly & Hlry).
    pose proof Hr as (Hrl & Hrr & Hrlz & Hrrz).
    case_decide.
    + destruct (IHlr (Node rl q' z rr) Hlr Hr) as (Hm & Hk).
      split; [|done]. simpl. repeat split; try done.
      apply Hk; [done|]. simpl. lia.
    + destruct (IHrl Hrl) as (Hm & Hk).
      split; [|done]. simpl. repeat split; try done.
      apply Hk; [|done]. simpl. lia.
Qed.

Lemma delete_tree_heap d t v e t' :
  delete_tree d t = Some (v, e, t') →
  heap t → heap t' ∧ ∀ k, top_le t k → top_le t' k.
Proof.
  revert t'. induction t as [|l IHl q y r IHr]; intros t' H Hh; simpl in H; [done|].
  destruct Hh as (Hhl & Hhr & Hly & Hry). repeat case_decide.
  - destruct (delete_tree d l) as [[[v1 e1] l']|]; [|done].
    inversion H; subst. destruct (IHl l' eq_refl Hhl) as (Hhl' & Hk).
    simpl. repeat split; try done. by apply Hk.
  - destruct (delete_tree d r) as [[[v1 e1] r']|]; [|done].
    inversion H; subst. destruct (IHr r' eq_refl Hhr) as (Hhr' & Hk).
    simpl. repeat split; try done. by apply Hk.
  - inversion H; subst. destruct (merge_heap l r Hhl Hhr) as (Hm & Hk).
    split; [done|]. intros k Hyk. simpl in Hyk.
    apply Hk; eapply top_le_mono; eauto.
Qed.

(** ** Memory: loads, updates and slots *)

Lemma load_Some s p n :
  p ≠ 0 → nodes s !! p = Some n → load p s = Done n s.
Proof. intros Hp Hn. unfold load. rewrite decide_False by done. by rewrite Hn. Qed.

Lemma update_Some s p f n :
  p ≠ 0 → nodes s !! p = Some n →
  update p f s = Done tt (set_nodes (<[p := f n]> (nodes s)) s).
Proof. intros Hp Hn. unfold update. rewrite decide_False by done. by rewrite Hn. Qed.

Lemma bind_Done {A B} (c : M A) (k : A → M B) s x s' :
  c s = Done x s' → bind c k s = k x s'.
Proof. intros H. unfold bind. by rewrite H. Qed.

Lemma set_nodes_set_nodes m m' s : set_nodes m (set_nodes m' s) = set_nodes m s.
Proof. reflexivity. Qed.

Lemma set_nodes_id s : set_nodes (nodes s) s = s.
Proof. by destruct s. Qed.

Lemma read_slot_holds ptr v s : slot_holds ptr v s → read_slot ptr s = Done v s.
Proof.
  destruct ptr as [|o|o]; simpl.
  - by intros (h & -> & <-).
  - intros (Ho & n & Hn & <-). unfold bind. by rewrite (load_Some _ _ _ Ho Hn).
  - intros (Ho & n & Hn & <-). unfold bind. by rewrite (load_Some _ _ _ Ho Hn).
Qed.

Lemma write_slot_holds ptr v w s :
  slot_holds ptr w s → write_slot ptr v s = Done tt (put_slot ptr v s).
Proof.
  unfold put_slot. destruct ptr as [|o|o]; simpl.
  - by intros (h & -> & _).
  - intros (Ho & n & Hn & _). by rewrite (update_Some _ _ _ _ Ho Hn).
  - intros (Ho & n & Hn & _). by rewrite (update_Some _ _ _ _ Ho Hn).
Qed.

Lemma put_slot_LeftOf o v s n :
  o ≠ 0 → nodes s !! o = Some n →
  put_slot (LeftOf o) v s = set_nodes (<[o := set_left v n]> (nodes s)) s.
Proof. intros Ho Hn. unfold put_slot. simpl. by rewrite (update_Some _ _ _ _ Ho Hn). Qed.

Lemma put_slot_RightOf o v s n :
  o ≠ 0 → nodes s !! o = Some n →
  put_slot (RightOf o) v s = set_nodes (<[o := set_right v n]> (nodes s)) s.
Proof. intros Ho Hn. unfold put_slot. simpl. by rewrite (update_Some _ _ _ _ Ho Hn). Qed.

Lemma set_left_id n : set_left (left n) n = n.
Proof. by destruct n. Qed.

Lemma set_right_id n : set_right (right n) n = n.
Proof. by destruct n. Qed.

Lemma put_slot_same ptr v s : slot_holds ptr v s → put_slot ptr v s = s.
Proof.
  destruct ptr as [|o|o]; simpl.
  - intros (h & Hh & <-). unfold put_slot. simpl. rewrite Hh.
    destruct s as [? ? ? hd ?]. simpl in *. subst hd. by destruct h.
  - intros (Ho & n & Hn & <-). rewrite (put_slot_LeftOf _ _ _ _ Ho Hn).
    rewrite set_left_id, insert_id by done. apply set_nodes_id.
  - intros (Ho & n & Hn & <-). rewrite (put_slot_RightOf _ _ _ _ Ho Hn).
    rewrite set_right_id, insert_id by done. apply set_nodes_id.
Qed.

Lemma slot_holds_put_slot ptr v w s :
  slot_holds ptr w s → slot_holds ptr v (put_slot ptr v s).
Proof.
  destruct ptr as [|o|o]; simpl.
  - intros (h & Hh & _). unfold put_slot. simpl. rewrite Hh. simpl. eauto.
  - intros (Ho & n & Hn & _). rewrite (put_slot_LeftOf _ _ _ _ Ho Hn). simpl.
    split; [done|]. eexists. by rewrite lookup_insert_eq.
  - intros (Ho & n & Hn & _). rewrite (put_slot_RightOf _ _ _ _ Ho Hn). simpl.
    split; [done|]. eexists. by rewrite lookup_insert_eq.
Qed.

(** Changing memory away from the slot does not change what it holds. *)
Lemma slot_holds_agree ptr v s m X :
  slot_holds ptr v s → slot_sep ptr X → agree_outside X (nodes s) m →
  slot_holds ptr v (set_nodes m s).
Proof.
  destruct ptr as [|o|o]; simpl; [done| |].
  - intros (Ho & n & Hn & Hv) Hsep Ha. split; [done|]. exists n. by rewrite Ha.
  - intros (Ho & n & Hn & Hv) Hsep Ha. split; [done|]. exists n. by rewrite Ha.
Qed.

Lemma nodes_put_slot ptr v s p :
  slot_sep ptr [p] → nodes (put_slot ptr v s) !! p = nodes s !! p.
Proof.
  unfold put_slot. destruct ptr as [|o|o]; simpl; intros Hsep.
  - by destruct (rando_map_header s).
  - unfold update. case_decide; [done|]. simpl.
    rewrite lookup_insert_ne; [done|]. set_solver.
  - unfold update. case_decide; [done|]. simpl.
    rewrite lookup_insert_ne; [done|]. set_solver.
Qed.

Lemma put_slot_fields ptr v s :
  current_page (put_slot ptr v s) = current_page s ∧
  free_list (put_slot ptr v s) = free_list s ∧
  mmap_pool (put_slot ptr v s) = mmap_pool s.
Proof.
  unfold put_slot. destruct ptr as [|o|o]; simpl.
  - by destruct (rando_map_header s).
  - unfold update. by case_decide.
  - unfold update. by case_decide.
Qed.

(** *** Frame properties of [rep] *)

Lemma rep_agree m m' t :
  (∀ p, p ∈ addrs t → m' !! p = m !! p) → rep m t → rep m' t.
Proof.
  induction t as [|l IHl p e r IHr]; [done|].
  intros Ha (Hp & Hm & Hl & Hr).
  assert (∀ x, x ∈ addrs l ∨ x = p ∨ x ∈ addrs r → m' !! x = m !! x) as Ha'.
  { intros x Hx. apply Ha. by rewrite addrs_Node, elem_of_app, elem_of_cons. }
  simpl. split; [done|]. split; [|split].
  - rewrite Ha'; [done|]. tauto.
  - apply IHl; [|done]. intros; apply Ha'. tauto.
  - apply IHr; [|done]. intros; apply Ha'. tauto.
Qed.

Lemma rep_agree_outside X m m' t :
  agree_outside X m m' → (∀ p, p ∈ addrs t → p ∉ X) → rep m t → rep m' t.
Proof. intros Ha Hd. apply rep_agree. intros p Hp. by apply Ha, Hd. Qed.

Lemma rep_insert_ne m p n t :
  p ∉ addrs t → rep m t → rep (<[p := n]> m) t.
Proof.
  intros Hp. apply rep_agree. intros q Hq.
  rewrite lookup_insert_ne; [done|]. by intros ->.
Qed.

Lemma rep_nonzero m t p : rep m t → p ∈ addrs t → p ≠ 0.
Proof.
  induction t as [|l IHl q e r IHr]; [by rewrite elem_of_nil|].
  intros (Hq & _ & Hl & Hr). rewrite addrs_Node, elem_of_app, elem_of_cons.
  intros [?|[->|?]]; auto.
Qed.


(** A memory state represents at most one tree. *)
Lemma rep_unique m t1 t2 :
  rep m t1 → rep m t2 → root_of t1 = root_of t2 → t1 = t2.
Proof.
  revert t2. induction t1 as [|l1 IHl p1 e1 r1 IHr]; intros [|l2 p2 e2 r2]; simpl.
  - done.
  - intros _ (Hp & _) E. by rewrite <- E in Hp.
  - intros (Hp & _) _ E. by rewrite E in Hp.
  - intros (Hp1 & Hm1 & Hl1 & Hr1) (Hp2 & Hm2 & Hl2 & Hr2) ->.
    rewrite Hm1 in Hm2. injection Hm2 as Hs He Hus Huv Hnf Hf Hl Hr Hpr.
    f_equal; [by apply IHl| |by apply IHr].
    destruct e1, e2; simpl in *; by subst.
Qed.

Lemma represents_unique s t1 t2 : represents s t1 → represents s t2 → t1 = t2.
Proof.
  intros ((h1 & Hh1 & Hr1) & Hrep1 & _) ((h2 & Hh2 & Hr2) & Hrep2 & _).
  eapply rep_unique; [done..|]. congruence.
Qed.

(** ** The rotations on a represented tree *)

Ltac step H := erewrite bind_Done by (apply H).

Lemma NoDup_Node l p e r :
  NoDup (addrs (Node l p e r)) ↔
  NoDup (addrs l) ∧ NoDup (addrs r) ∧ (p ∉ addrs l) ∧ (p ∉ addrs r) ∧
  (∀ x, x ∈ addrs l → x ∉ addrs r).
Proof.
  rewrite addrs_Node, NoDup_app, NoDup_cons. split.
  - intros (Hl & Hd & Hp & Hr). repeat split; try done.
    + intros Hin. apply (Hd _ Hin). by left.
    + intros x Hx Hx'. apply (Hd _ Hx). by right.
  - intros (Hl & Hr & Hpl & Hpr & Hd). repeat split; try done.
    intros x Hx [->|Hx']%elem_of_cons; [done|]. by apply (Hd x).
Qed.

Lemma elem_of_addrs_Node x l p e r :
  x ∈ addrs (Node l p e r) ↔ x ∈ addrs l ∨ x = p ∨ x ∈ addrs r.
Proof. by rewrite addrs_Node, elem_of_app, elem_of_cons. Qed.

Lemma agree_outside_insert2 m p1 n1 p2 n2 :
  agree_outside [p1; p2] m (<[p2 := n2]> (<[p1 := n1]> m)).
Proof.
  intros p Hp. apply not_elem_of_cons in Hp as (? & Hp).
  apply not_elem_of_cons in Hp as (? & _).
  by rewrite !lookup_insert_ne.
Qed.

Lemma rotate_left_son_rep ptr s ll p' e' lr q y r :
  slot_holds ptr q s →
  rep (nodes s) (Node (Node ll p' e' lr) q y r) →
  NoDup (addrs (Node (Node ll p' e' lr) q y r)) →
  slot_sep ptr [p'; q] →
  ∃ m', agree_outside [p'; q] (nodes s) m' ∧
        rep m' (Node ll p' e' (Node lr q y r)) ∧
        rotate_left_son ptr s = Done p' (put_slot ptr p' (set_nodes m' s)).
Proof.
  intros Hslot (Hq & Hmq & (Hp' & Hmp' & Hll & Hlr) & Hr) Hnd Hsep.
  apply NoDup_Node in Hnd as (Hnd & Hndr & Hql & Hqr & Hlr').
  apply NoDup_Node in Hnd as (Hndll & Hndlr & Hpll & Hplr & Hll').
  rewrite elem_of_addrs_Node in Hql.
  assert (p' ≠ q) as Hne by (intros ->; tauto).
  assert (p' ∉ addrs r) as Hpr.
  { apply Hlr', elem_of_addrs_Node. tauto. }
  set (m1 := <[p' := set_right q (node_of e' (root_of ll) (root_of lr))]> (nodes s)).
  set (m2 := <[q := set_left (root_of lr) (node_of y p' (root_of r))]> m1).
  assert (agree_outside [p'; q] (nodes s) m2) as Hag
    by apply agree_outside_insert2.
  exists m2. split; [done|]. split.
  - assert (∀ t, rep (nodes s) t → p' ∉ addrs t → q ∉ addrs t → rep m2 t) as Hfr.
    { intros t Ht H1 H2. unfold m2, m1.
      apply rep_insert_ne; [done|]. by apply rep_insert_ne. }
    simpl. split; [done|]. split; [|split; [|split; [done|split; [|split]]]].
    + unfold m2, m1. rewrite lookup_insert_ne, lookup_insert_eq; done.
    + apply Hfr; [done..|tauto].
    + unfold m2. by rewrite lookup_insert_eq.
    + apply Hfr; [done..|tauto].
    + by apply Hfr.
  - unfold rotate_left_son.
    step (read_slot_holds _ _ _ Hslot).
    step (load_Some _ _ _ Hq Hmq). simpl.
    step (load_Some _ _ _ Hp' Hmp'). simpl.
    step (update_Some _ _ (set_right q) _ Hp' Hmp').
    erewrite bind_Done; cycle 1.
    { apply update_Some; [done|]. simpl. rewrite lookup_insert_ne by done. exact Hmq. }
    simpl. fold m1. fold m2.
    erewrite bind_Done; cycle 1.
    { eapply write_slot_holds.
      apply (slot_holds_agree _ _ _ _ [p'; q] Hslot Hsep Hag). }
    reflexivity.
Qed.

Lemma rotate_right_son_rep ptr s l q y rl p' e' rr :
  slot_holds ptr q s →
  rep (nodes s) (Node l q y (Node rl p' e' rr)) →
  NoDup (addrs (Node l q y (Node rl p' e' rr))) →
  slot_sep ptr [p'; q] →
  ∃ m', agree_outside [p'; q] (nodes s) m' ∧
        rep m' (Node (Node l q y rl) p' e' rr) ∧
        rotate_right_son ptr s = Done p' (put_slot ptr p' (set_nodes m' s)).
Proof.
  intros Hslot (Hq & Hmq & Hl & (Hp' & Hmp' & Hrl & Hrr)) Hnd Hsep.
  apply NoDup_Node in Hnd as (Hndl & Hnd & Hql & Hqr & Hlr').
  apply NoDup_Node in Hnd as (Hndrl & Hndrr & Hprl & Hprr & Hrr').
  rewrite elem_of_addrs_Node in Hqr.
  assert (p' ≠ q) as Hne by (intros ->; tauto).
  assert (p' ∉ addrs l) as Hpl.
  { intros Hin. apply (Hlr' _ Hin), elem_of_addrs_Node. tauto. }
  set (m1 := <[p' := set_left q (node_of e' (root_of rl) (root_of rr))]> (nodes s)).
  set (m2 := <[q := set_right (root_of rl) (node_of y (root_of l) p')]> m1).
  assert (agree_outside [p'; q] (nodes s) m2) as Hag
    by apply agree_outside_insert2.
  exists m2. split; [done|]. split.
  - assert (∀ t, rep (nodes s) t → p' ∉ addrs t → q ∉ addrs t → rep m2 t) as Hfr.
    { intros t Ht H1 H2. unfold m2, m1.
      apply rep_insert_ne; [done|]. by apply rep_insert_ne. }
    simpl. split; [done|]. split; [|split; [split; [done|split; [|split]]|]].
    + unfold m2, m1. rewrite lookup_insert_ne, lookup_insert_eq; done.
    + unfold m2. by rewrite lookup_insert_eq.
    + by apply Hfr.
    + apply Hfr; [done..|tauto].
    + apply Hfr; [done..|tauto].
  - unfold rotate_right_son.
    step (read_slot_holds _ _ _ Hslot).
    step (load_Some _ _ _ Hq Hmq). simpl.
    step (load_Some _ _ _ Hp' Hmp'). simpl.
    step (update_Some _ _ (set_left q) _ Hp' Hmp').
    erewrite bind_Done; cycle 1.
    { apply update_Some; [done|]. simpl. rewrite lookup_insert_ne by done. exact Hmq. }
    simpl. fold m1. fold m2.
    erewrite bind_Done; cycle 1.
    { eapply write_slot_holds.
      apply (slot_holds_agree _ _ _ _ [p'; q] Hslot Hsep Hag). }
    reflexivity.
Qed.

(** ** [map_tree_insert_node] computes [insert_tree] *)

Lemma bind_Fatal {A B} (c : M A) (k : A → M B) s msg :
  c s = Fatal msg → bind c k s = Fatal msg.
Proof. intros H. unfold bind. by rewrite H. Qed.

Lemma map_tree_insert_node_S fuel node ptr :
  map_tree_insert_node (S fuel) node ptr =
  (curr <- read_slot ptr ;;
   if decide (curr = 0) then write_slot ptr node
   else
     n <- load node ;;
     c <- load curr ;;
     if decide (div_start n < div_start c) then
       map_tree_insert_node fuel node (LeftOf curr) ;;;
       c1 <- load curr ;;
       l <- load (left c1) ;;
       if decide (prio l > prio c1) then (_ <- rotate_left_son ptr ;; ret tt)
       else ret tt
     else if decide (div_start n >= div_end c) then
       map_tree_insert_node fuel node (RightOf curr) ;;;
       c1 <- load curr ;;
       r <- load (right c1) ;;
       if decide (prio r > prio c1) then (_ <- rotate_right_son ptr ;; ret tt)
       else ret tt
     else __libc_fatal "overlapping rando map nodes").
Proof. reflexivity. Qed.

Lemma agree_outside_refl X m : agree_outside X m m.
Proof. done. Qed.

Lemma agree_outside_trans X m1 m2 m3 :
  agree_outside X m1 m2 → agree_outside X m2 m3 → agree_outside X m1 m3.
Proof. intros H1 H2 p Hp. by rewrite H2, H1. Qed.

Lemma agree_outside_mono X Y m m' :
  (∀ p, p ∈ X → p ∈ Y) → agree_outside X m m' → agree_outside Y m m'.
Proof. intros HXY H p Hp. apply H. intros Hin. by apply Hp, HXY. Qed.

Lemma agree_outside_insert X m p n :
  p ∈ X → agree_outside X m (<[p := n]> m).
Proof. intros Hp p' Hp'. rewrite lookup_insert_ne; [done|]. by intros ->. Qed.

Lemma slot_sep_mono ptr X Y :
  (∀ p, p ∈ Y → p ∈ X) → slot_sep ptr X → slot_sep ptr Y.
Proof. intros HYX. destruct ptr; simpl; [done|..]; intros H Hin; by apply H, HYX. Qed.

Ltac fields :=
  cbn [div_start div_end left right prio node_of root_of top_prio
       set_left set_right set_prio].

Lemma map_tree_insert_node_spec fuel node x ptr s t :
  slot_holds ptr (root_of t) s →
  rep (nodes s) t → NoDup (addrs t) →
  node ≠ 0 → node ∉ addrs t →
  nodes s !! node = Some (node_of x 0 0) →
  slot_sep ptr (node :: addrs t) →
  (size t < fuel)%nat →
  match insert_tree node x t with
  | None =>
      map_tree_insert_node fuel node ptr s = Fatal "overlapping rando map nodes"
  | Some t' =>
      ∃ m', agree_outside (node :: addrs t) (nodes s) m' ∧ rep m' t' ∧
            map_tree_insert_node fuel node ptr s =
              Done tt (put_slot ptr (root_of t') (set_nodes m' s))
  end.
Proof.
  revert fuel ptr s.
  induction t as [|l IHl q y r IHr]; intros fuel ptr s Hslot Hrep Hnd Hnode Hfresh Hmem Hsep Hfuel.
  - destruct fuel as [|fuel]; [simpl in Hfuel; lia|]. simpl insert_tree.
    exists (nodes s). split; [done|]. split; [by simpl|].
    rewrite map_tree_insert_node_S.
    step (read_slot_holds _ _ _ Hslot). simpl root_of.
    rewrite decide_True by done. rewrite set_nodes_id.
    by eapply write_slot_holds.
  - destruct fuel as [|fuel]; [simpl in Hfuel; lia|]. simpl in Hfuel.
    destruct Hrep as (Hq & Hmq & Hrl & Hrr).
    apply NoDup_Node in Hnd as (Hndl & Hndr & Hql & Hqr & Hlr).
    rewrite elem_of_addrs_Node in Hfresh.
    assert (node ≠ q) as Hnq by tauto.
    rewrite map_tree_insert_node_S.
    step (read_slot_holds _ _ _ Hslot). simpl root_of.
    rewrite decide_False by done.
    step (load_Some _ _ _ Hnode Hmem).
    step (load_Some _ _ _ Hq Hmq).
    simpl insert_tree. fields.
    destruct (decide (e_start x < e_start y)) as [Hlt|Hlt].
    + assert (slot_holds (LeftOf q) (root_of l) s) as Hslot'.
      { simpl. split; [done|]. eexists. split; [exact Hmq|done]. }
      assert (slot_sep (LeftOf q) (node :: addrs l)) as Hsep'.
      { simpl. rewrite not_elem_of_cons. split; [done|tauto]. }
      specialize (IHl fuel (LeftOf q) s Hslot' Hrl Hndl Hnode
                      ltac:(tauto) Hmem Hsep' ltac:(lia)).
      destruct (insert_tree node x l) as [l'|] eqn:Hins.
      * destruct IHl as (m1 & Hag1 & Hrep1 & Hrun).
        step Hrun.
        assert (m1 !! q = Some (node_of y (root_of l) (root_of r))) as Hm1q.
        { rewrite Hag1; [done|]. rewrite not_elem_of_cons. split; [done|tauto]. }
        rewrite (put_slot_LeftOf q _ (set_nodes m1 s) _ Hq Hm1q).
        rewrite set_nodes_set_nodes. cbn [nodes set_nodes]. fields.
        set (m2 := <[q := node_of y (root_of l') (root_of r)]> m1).
        pose proof (insert_tree_addrs _ _ _ _ Hins) as Hperm.
        assert (∀ z, z ∈ addrs l' ↔ z = node ∨ z ∈ addrs l) as Hin'.
        { intros z. by rewrite Hperm, elem_of_cons. }
        assert (NoDup (addrs l')) as Hndl'.
        { rewrite Hperm. apply NoDup_cons. split; [tauto|done]. }
        assert (q ∉ addrs l') as Hql'.
        { rewrite Hin'. intros [E|?]; [by apply Hnq|done]. }
        assert (agree_outside (node :: addrs (Node l q y r)) (nodes s) m2) as Hag2.
        { eapply agree_outside_trans.
          - eapply agree_outside_mono; [|exact Hag1].
            intros z. rewrite !elem_of_cons, elem_of_addrs_Node. tauto.
          - apply agree_outside_insert.
            rewrite elem_of_cons, elem_of_addrs_Node. tauto. }
        assert (rep m2 (Node l' q y r)) as Hrep2.
        { simpl. split; [done|]. split; [|split].
          - unfold m2. by rewrite lookup_insert_eq.
          - by apply rep_insert_ne.
          - apply rep_insert_ne; [done|].
            eapply rep_agree_outside; [exact Hag1| |exact Hrr].
            intros z Hz. rewrite not_elem_of_cons. split.
            + intros ->. tauto.
            + intros Hzl. by apply (Hlr z). }
        assert (NoDup (addrs (Node l' q y r))) as Hnd2.
        { apply NoDup_Node. repeat split; try done.
          intros z [->|Hz]%Hin'; [tauto|by apply Hlr]. }
        assert (slot_holds ptr q (set_nodes m2 s)) as Hslot2.
        { eapply slot_holds_agree; [exact Hslot|exact Hsep|exact Hag2]. }
        destruct (insert_tree_Node _ _ _ _ Hins) as (a' & p' & e' & b' & ->).
        pose proof Hrep2 as (_ & Hm2q & (Hp' & Hm2p' & _ & _) & _).
        erewrite bind_Done; cycle 1.
        { apply load_Some; [done|exact Hm2q]. }
        fields.
        erewrite bind_Done; cycle 1.
        { apply load_Some; [done|exact Hm2p']. }
        fields.
        destruct (decide (e_prio e' > e_prio y)) as [Hgt|Hgt].
        -- destruct (rotate_left_son_rep ptr (set_nodes m2 s) a' p' e' b' q y r)
             as (m3 & Hag3 & Hrep3 & Hrun3); [done..| |].
           { eapply slot_sep_mono; [|exact Hsep].
             intros z. rewrite !elem_of_cons, elem_of_nil, elem_of_addrs_Node.
             intros [->|[->|[]]]; [|tauto].
             destruct (proj1 (Hin' p')) as [?|?]; [|tauto..].
             apply elem_of_addrs_Node. tauto. }
           exists m3. split; [|split; [done|]].
           ++ eapply agree_outside_trans; [exact Hag2|].
              eapply agree_outside_mono; [|exact Hag3].
              intros z. rewrite !elem_of_cons, elem_of_nil, elem_of_addrs_Node.
              intros [->|[->|[]]]; [|tauto].
              destruct (proj1 (Hin' p')) as [?|?]; [|tauto..].
              apply elem_of_addrs_Node. tauto.
           ++ step Hrun3. reflexivity.
        -- exists m2. split; [done|]. split; [done|].
           unfold ret. fields. by rewrite (put_slot_same _ _ _ Hslot2).
      * by apply bind_Fatal.
    + destruct (decide (e_start x >= e_end y)) as [Hge|Hge]; [|done].
      assert (slot_holds (RightOf q) (root_of r) s) as Hslot'.
      { simpl. split; [done|]. eexists. split; [exact Hmq|done]. }
      assert (slot_sep (RightOf q) (node :: addrs r)) as Hsep'.
      { simpl. rewrite not_elem_of_cons. split; [done|tauto]. }
      specialize (IHr fuel (RightOf q) s Hslot' Hrr Hndr Hnode
                      ltac:(tauto) Hmem Hsep' ltac:(lia)).
      destruct (insert_tree node x r) as [r'|] eqn:Hins.
      * destruct IHr as (m1 & Hag1 & Hrep1 & Hrun).
        step Hrun.
        assert (m1 !! q = Some (node_of y (root_of l) (root_of r))) as Hm1q.
        { rewrite Hag1; [done|]. rewrite not_elem_of_cons. split; [done|tauto]. }
        rewrite (put_slot_RightOf q _ (set_nodes m1 s) _ Hq Hm1q).
        rewrite set_nodes_set_nodes. cbn [nodes set_nodes]. fields.
        set (m2 := <[q := node_of y (root_of l) (root_of r')]> m1).
        pose proof (insert_tree_addrs _ _ _ _ Hins) as Hperm.
        assert (∀ z, z ∈ addrs r' ↔ z = node ∨ z ∈ addrs r) as Hin'.
        { intros z. by rewrite Hperm, elem_of_cons. }
        assert (NoDup (addrs r')) as Hndr'.
        { rewrite Hperm. apply NoDup_cons. split; [tauto|done]. }
        assert (q ∉ addrs r') as Hqr'.
        { rewrite Hin'. intros [E|?]; [by apply Hnq|done]. }
        assert (agree_outside (node :: addrs (Node l q y r)) (nodes s) m2) as Hag2.
        { eapply agree_outside_trans.
          - eapply agree_outside_mono; [|exact Hag1].
            intros z. rewrite !elem_of_cons, elem_of_addrs_Node. tauto.
          - apply agree_outside_insert.
            rewrite elem_of_cons, elem_of_addrs_Node. tauto. }
        assert (rep m2 (Node l q y r')) as Hrep2.
        { simpl. split; [done|]. split; [|split].
          - unfold m2. by rewrite lookup_insert_eq.
          - apply rep_insert_ne; [done|].
            eapply rep_agree_outside; [exact Hag1| |exact Hrl].
            intros z Hz. rewrite not_elem_of_cons. split.
            + intros ->. tauto.
            + by apply Hlr.
          - by apply rep_insert_ne. }
        assert (NoDup (addrs (Node l q y r'))) as Hnd2.
        { apply NoDup_Node. repeat split; try done.
          intros z Hz [->|Hz']%Hin'; [tauto|by apply (Hlr z)]. }
        assert (slot_holds ptr q (set_nodes m2 s)) as Hslot2.
        { eapply slot_holds_agree; [exact Hslot|exact Hsep|exact Hag2]. }
        destruct (insert_tree_Node _ _ _ _ Hins) as (a' & p' & e' & b' & ->).
        pose proof Hrep2 as (_ & Hm2q & _ & (Hp' & Hm2p' & _ & _)).
        erewrite bind_Done; cycle 1.
        { apply load_Some; [done|exact Hm2q]. }
        fields.
        erewrite bind_Done; cycle 1.
        { apply load_Some; [done|exact Hm2p']. }
        fields.
        destruct (decide (e_prio e' > e_prio y)) as [Hgt|Hgt].
        -- destruct (rotate_right_son_rep ptr (set_nodes m2 s) l q y a' p' e' b')
             as (m3 & Hag3 & Hrep3 & Hrun3); [done..| |].
           { eapply slot_sep_mono; [|exact Hsep].
             intros z. rewrite !elem_of_cons, elem_of_nil, elem_of_addrs_Node.
             intros [->|[->|[]]]; [|tauto].
             destruct (proj1 (Hin' p')) as [?|?]; [|tauto..].
             apply elem_of_addrs_Node. tauto. }
           exists m3. split; [|split; [done|]].
           ++ eapply agree_outside_trans; [exact Hag2|].
              eapply agree_outside_mono; [|exact Hag3].
              intros z. rewrite !elem_of_cons, elem_of_nil, elem_of_addrs_Node.
              intros [->|[->|[]]]; [|tauto].
              destruct (proj1 (Hin' p')) as [?|?]; [|tauto..].
              apply elem_of_addrs_Node. tauto.
           ++ step Hrun3. reflexivity.
        -- exists m2. split; [done|]. split; [done|].
           unfold ret. fields. by rewrite (put_slot_same _ _ _ Hslot2).
      * by apply bind_Fatal.
Qed.

(** ** [map_tree_delete_node] computes [delete_tree] *)

(** A change of memory made after [*ptr = v], away from the node that
    holds the slot, can as well be made before it. *)
Lemma put_slot_commute ptr v w s m X :
  slot_holds ptr w s → slot_sep ptr X →
  agree_outside X (nodes (put_slot ptr v s)) m →
  ∃ m', agree_outside X (nodes s) m' ∧ (∀ p, p ∈ X → m' !! p = m !! p) ∧
        set_nodes m (put_slot ptr v s) = put_slot ptr v (set_nodes m' s).
Proof.
  destruct ptr as [|o|o]; simpl.
  - intros (h & Hh & _) _ Hag. exists m. unfold put_slot in *. simpl in *.
    rewrite Hh in *. simpl in *. done.
  - intros (Ho & n & Hn & _) Hsep Hag.
    rewrite (put_slot_LeftOf _ _ _ _ Ho Hn) in *. simpl in Hag.
    assert (m !! o = Some (set_left v n)) as Hmo.
    { rewrite Hag by done. by rewrite lookup_insert_eq. }
    exists (<[o := n]> m). split; [|split].
    + intros p Hp. destruct (decide (p = o)) as [->|Hne].
      * by rewrite lookup_insert_eq.
      * rewrite lookup_insert_ne by done. rewrite Hag by done.
        by rewrite lookup_insert_ne.
    + intros p Hp. rewrite lookup_insert_ne; [done|]. by intros ->.
    + rewrite (put_slot_LeftOf o v (set_nodes (<[o := n]> m) s) n Ho)
        by apply lookup_insert_eq.
      simpl. rewrite insert_insert_eq, (insert_id m o _ Hmo). reflexivity.
  - intros (Ho & n & Hn & _) Hsep Hag.
    rewrite (put_slot_RightOf _ _ _ _ Ho Hn) in *. simpl in Hag.
    assert (m !! o = Some (set_right v n)) as Hmo.
    { rewrite Hag by done. by rewrite lookup_insert_eq. }
    exists (<[o := n]> m). split; [|split].
    + intros p Hp. destruct (decide (p = o)) as [->|Hne].
      * by rewrite lookup_insert_eq.
      * rewrite lookup_insert_ne by done. rewrite Hag by done.
        by rewrite lookup_insert_ne.
    + intros p Hp. rewrite lookup_insert_ne; [done|]. by intros ->.
    + rewrite (put_slot_RightOf o v (set_nodes (<[o := n]> m) s) n Ho)
        by apply lookup_insert_eq.
      simpl. rewrite insert_insert_eq, (insert_id m o _ Hmo). reflexivity.
Qed.

Lemma map_tree_delete_node_S fuel d ptr :
  map_tree_delete_node (S fuel) d ptr =
  (curr <- read_slot ptr ;;
   if decide (curr = 0) then __libc_fatal "trying to delete inexistent node"
   else
     c <- load curr ;;
     if decide (d < div_start c) then
       map_tree_delete_node fuel d (LeftOf curr)
     else if decide (d >= div_end c) then
       map_tree_delete_node fuel d (RightOf curr)
     else
       update curr (set_prio 0) ;;;
       if decide (left c = 0) then
         write_slot ptr (right c) ;;; ret curr
       else if decide (right c = 0) then
         write_slot ptr (left c) ;;; ret curr
       else
         l <- load (left c) ;;
         r <- load (right c) ;;
         if decide (prio l > prio r) then
           son <- rotate_left_son ptr ;;
           map_tree_delete_node fuel d (RightOf son)
         else
           son <- rotate_right_son ptr ;;
           map_tree_delete_node fuel d (LeftOf son)).
Proof. reflexivity. Qed.

Lemma addrs_merge l r : addrs (merge l r) = addrs l ++ addrs r.
Proof. unfold addrs. by rewrite items_merge, fmap_app. Qed.

Lemma rep_Leaf_root m t : rep m t → root_of t = 0 → t = Leaf.
Proof. destruct t; [done|]. simpl. intros (? & _) ?. congruence. Qed.

(** The node at the slot is the one to take out: it is rotated down until
    one of its links is null and then spliced out. *)
Lemma delete_found_spec fuel d ptr s l q y r :
  slot_holds ptr q s →
  rep (nodes s) (Node l q y r) → NoDup (addrs (Node l q y r)) →
  slot_sep ptr (addrs (Node l q y r)) →
  contains y d →
  (size (Node l q y r) < fuel)%nat →
  ∃ m' lq rq,
    agree_outside (addrs (Node l q y r)) (nodes s) m' ∧
    rep m' (merge l r) ∧
    m' !! q = Some (node_of (with_prio 0 y) lq rq) ∧
    map_tree_delete_node fuel d ptr s =
      Done q (put_slot ptr (root_of (merge l r)) (set_nodes m' s)).
Proof.
  revert d ptr s l q y r.
  induction fuel as [|fuel IH];
    intros d ptr s l q y r Hslot Hrep Hnd Hsep Hc Hfuel; [simpl in Hfuel; lia|].
  destruct Hc as [Hc1 Hc2].
  pose proof Hrep as (Hq & Hmq & Hrl & Hrr).
  pose proof Hnd as (Hndl & Hndr & Hql & Hqr & Hlr)%NoDup_Node.
  rewrite map_tree_delete_node_S.
  step (read_slot_holds _ _ _ Hslot).
  rewrite decide_False by done.
  step (load_Some _ _ _ Hq Hmq). fields.
  rewrite decide_False by lia. rewrite decide_False by lia.
  step (update_Some _ _ (set_prio 0) _ Hq Hmq). fields.
  change (set_prio 0 (node_of y (root_of l) (root_of r)))
    with (node_of (with_prio 0 y) (root_of l) (root_of r)).
  set (m1 := <[q := node_of (with_prio 0 y) (root_of l) (root_of r)]> (nodes s)).
  assert (agree_outside (addrs (Node l q y r)) (nodes s) m1) as Hag1.
  { apply agree_outside_insert, elem_of_addrs_Node. tauto. }
  assert (slot_holds ptr q (set_nodes m1 s)) as Hslot1.
  { eapply slot_holds_agree; [exact Hslot|exact Hsep|exact Hag1]. }
  assert (rep m1 l) as Hrl1 by by apply rep_insert_ne.
  assert (rep m1 r) as Hrr1 by by apply rep_insert_ne.
  assert (m1 !! q = Some (node_of (with_prio 0 y) (root_of l) (root_of r))) as Hm1q.
  { unfold m1. by rewrite lookup_insert_eq. }
  destruct l as [|ll pl yl lr].
  { (* no left child *)
    fields. rewrite decide_True by done.
    erewrite bind_Done; [|by eapply write_slot_holds].
    exists m1, 0, (root_of r). by repeat split. }
  fields. rewrite decide_False by (by destruct Hrl).
  destruct r as [|rl pr yr rr].
  { (* no right child *)
    fields. rewrite decide_True by done.
    erewrite bind_Done; [|by eapply write_slot_holds].
    rewrite merge_Leaf_r. exists m1, pl, 0.
    split; [done|]. split; [done|]. by split. }
  fields. rewrite decide_False by (by destruct Hrr).
  destruct Hrl1 as (Hpl & Hm1pl & Hrll1 & Hrlr1).
  destruct Hrr1 as (Hpr & Hm1pr & Hrrl1 & Hrrr1).
  step (load_Some (set_nodes m1 s) _ _ Hpl Hm1pl).
  step (load_Some (set_nodes m1 s) _ _ Hpr Hm1pr). fields.
  rewrite merge_Node_Node.
  pose proof Hndl as (Hndll & Hndlr & Hpll & Hplr & Hllr)%NoDup_Node.
  pose proof Hndr as (Hndrl & Hndrr & Hprl & Hprr & Hrlr)%NoDup_Node.
  rewrite elem_of_addrs_Node in Hql, Hqr.
  assert (∀ z, z ∈ addrs (Node ll pl yl lr) → z ∉ addrs (Node rl pr yr rr)) as Hlr0
    by done.
  setoid_rewrite elem_of_addrs_Node in Hlr.
  set (y0 := with_prio 0 y) in *.
  set (X := addrs (Node (Node ll pl yl lr) q y (Node rl pr yr rr))) in *.
  assert (∀ z, z ∈ X ↔ (z ∈ addrs ll ∨ z = pl ∨ z ∈ addrs lr) ∨ z = q ∨
                        (z ∈ addrs rl ∨ z = pr ∨ z ∈ addrs rr)) as HX.
  { intros z. unfold X. by rewrite !elem_of_addrs_Node. }
  assert (pl ≠ q ∧ pr ≠ q ∧ pl ≠ pr) as (Hplq & Hprq & Hplpr).
  { repeat split; intros E; subst; [tauto|tauto|].
    apply (Hlr pr); tauto. }
  destruct (decide (e_prio yl > e_prio yr)) as [Hgt|Hgt].
  - (* the left son comes up; the node goes down to its right *)
    destruct (rotate_left_son_rep ptr (set_nodes m1 s) ll pl yl lr q y0
                (Node rl pr yr rr)) as (m2 & Hag2 & Hrep2 & Hrun2).
    { done. }
    { simpl. by repeat split. }
    { apply NoDup_Node. repeat split; try done; by rewrite elem_of_addrs_Node. }
    { eapply slot_sep_mono; [|exact Hsep]. intros z. rewrite HX.
      rewrite !elem_of_cons, elem_of_nil. intros [->|[->|[]]]; tauto. }
    step Hrun2. rewrite set_nodes_set_nodes.
    set (s2 := put_slot ptr pl (set_nodes m2 s)).
    assert (agree_outside X (nodes s) m2) as Hag02.
    { eapply agree_outside_trans; [exact Hag1|].
      eapply agree_outside_mono; [|exact Hag2]. intros z. rewrite HX.
      rewrite !elem_of_cons, elem_of_nil. intros [->|[->|[]]]; tauto. }
    assert (slot_holds ptr q (set_nodes m2 s)) as Hslot2.
    { eapply slot_holds_agree; [exact Hslot|exact Hsep|exact Hag02]. }
    assert (∀ p, p ∈ X → nodes s2 !! p = m2 !! p) as Hs2.
    { intros p Hp. unfold s2. rewrite nodes_put_slot; [done|].
      eapply slot_sep_mono; [|exact Hsep]. intros z.
      rewrite elem_of_cons, elem_of_nil. by intros [->|[]]. }
    destruct Hrep2 as (_ & Hm2pl & Hrep2ll & Hrep2sub).
    destruct (IH d (RightOf pl) s2 lr q y0 (Node rl pr yr rr))
      as (m3 & lq & rq & Hag3 & Hrep3 & Hm3q & Hrun3).
    { simpl. split; [done|]. eexists.
      split; [rewrite Hs2; [exact Hm2pl|apply HX; tauto]|reflexivity]. }
    { eapply rep_agree; [|exact Hrep2sub]. intros p Hp. apply Hs2, HX.
      rewrite elem_of_addrs_Node in Hp. rewrite elem_of_addrs_Node in Hp. tauto. }
    { apply NoDup_Node. repeat split; try done.
      - tauto.
      - by rewrite elem_of_addrs_Node.
      - intros z Hz. rewrite elem_of_addrs_Node. apply Hlr. tauto. }
    { simpl. rewrite elem_of_addrs_Node, elem_of_addrs_Node.
      intros [?|[?|[?|[?|?]]]]; try tauto; apply (Hlr pl); tauto. }
    { split; simpl; lia. }
    { simpl in Hfuel |- *. lia. }
    rewrite Hrun3.
    set (v := root_of (merge lr (Node rl pr yr rr))) in *.
    assert (m3 !! pl = Some (node_of yl (root_of ll) q)) as Hm3pl.
    { rewrite Hag3.
      - rewrite Hs2; [exact Hm2pl|]. apply HX. tauto.
      - rewrite elem_of_addrs_Node, elem_of_addrs_Node.
        intros [?|[?|[?|[?|?]]]]; try tauto; apply (Hlr pl); tauto. }
    rewrite (put_slot_RightOf pl v (set_nodes m3 s2) _ Hpl Hm3pl).
    rewrite set_nodes_set_nodes. cbn [nodes set_nodes]. fields.
    set (m4 := <[pl := node_of yl (root_of ll) v]> m3).
    destruct (put_slot_commute ptr pl q (set_nodes m2 s) m4 X Hslot2 Hsep)
      as (m' & Hag' & HXm' & Heq).
    { fold s2. eapply agree_outside_trans.
      - eapply agree_outside_mono; [|exact Hag3]. intros z. rewrite HX.
        rewrite elem_of_addrs_Node, elem_of_addrs_Node. tauto.
      - apply agree_outside_insert, HX. tauto. }
    exists m', lq, rq. split; [|split; [|split]].
    + eapply agree_outside_trans; [exact Hag02|exact Hag'].
    + assert (rep m4 (Node ll pl yl (merge lr (Node rl pr yr rr)))) as Hrep4.
      { simpl. split; [done|]. split; [|split].
        - unfold m4. by rewrite lookup_insert_eq.
        - apply rep_insert_ne; [done|].
          eapply rep_agree_outside; [exact Hag3| |].
          + intros z Hz. rewrite elem_of_addrs_Node, elem_of_addrs_Node.
            assert (z ∈ addrs ll ∨ z = pl ∨ z ∈ addrs lr) as Hzl by tauto.
            intros [?|[?|?]].
            * by apply (Hllr z).
            * subst. tauto.
            * by apply (Hlr z).
          + eapply rep_agree; [|exact Hrep2ll]. intros z Hz. apply Hs2, HX. tauto.
        - apply rep_insert_ne; [|done]. rewrite addrs_merge, elem_of_app.
          rewrite elem_of_addrs_Node.
          intros [?|[?|[?|?]]]; try tauto; apply (Hlr pl); tauto. }
      eapply rep_agree; [|exact Hrep4]. intros z Hz. apply HXm', HX.
      rewrite elem_of_addrs_Node, addrs_merge, elem_of_app in Hz.
      rewrite elem_of_addrs_Node in Hz. tauto.
    + rewrite HXm' by (apply HX; tauto). unfold m4.
      rewrite lookup_insert_ne by (intros E; by apply Hplq). exact Hm3q.
    + fields. fold s2 in Heq. rewrite set_nodes_set_nodes in Heq.
      by rewrite <- Heq.
  - (* the right son comes up; the node goes down to its left *)
    destruct (rotate_right_son_rep ptr (set_nodes m1 s) (Node ll pl yl lr) q y0
                rl pr yr rr) as (m2 & Hag2 & Hrep2 & Hrun2).
    { done. }
    { simpl. by repeat split. }
    { apply NoDup_Node. repeat split; try done; by rewrite elem_of_addrs_Node. }
    { eapply slot_sep_mono; [|exact Hsep]. intros z. rewrite HX.
      rewrite !elem_of_cons, elem_of_nil. intros [->|[->|[]]]; tauto. }
    step Hrun2. rewrite set_nodes_set_nodes.
    set (s2 := put_slot ptr pr (set_nodes m2 s)).
    assert (agree_outside X (nodes s) m2) as Hag02.
    { eapply agree_outside_trans; [exact Hag1|].
      eapply agree_outside_mono; [|exact Hag2]. intros z. rewrite HX.
      rewrite !elem_of_cons, elem_of_nil. intros [->|[->|[]]]; tauto. }
    assert (slot_holds ptr q (set_nodes m2 s)) as Hslot2.
    { eapply slot_holds_agree; [exact Hslot|exact Hsep|exact Hag02]. }
    assert (∀ p, p ∈ X → nodes s2 !! p = m2 !! p) as Hs2.
    { intros p Hp. unfold s2. rewrite nodes_put_slot; [done|].
      eapply slot_sep_mono; [|exact Hsep]. intros z.
      rewrite elem_of_cons, elem_of_nil. by intros [->|[]]. }
    destruct Hrep2 as (_ & Hm2pr & Hrep2sub & Hrep2rr).
    assert (∀ z, z ∈ addrs (Node (Node ll pl yl lr) q y0 rl) ↔
                 (z ∈ addrs ll ∨ z = pl ∨ z ∈ addrs lr) ∨ z = q ∨ z ∈ addrs rl)
      as Hsub.
    { intros z. by rewrite !elem_of_addrs_Node. }
    assert (pr ∉ addrs (Node (Node ll pl yl lr) q y0 rl)) as Hprsub.
    { rewrite Hsub. intros [?|[?|?]]; try tauto. apply (Hlr pr); tauto. }
    destruct (IH d (LeftOf pr) s2 (Node ll pl yl lr) q y0 rl)
      as (m3 & lq & rq & Hag3 & Hrep3 & Hm3q & Hrun3).
    { simpl. split; [done|]. eexists.
      split; [rewrite Hs2; [exact Hm2pr|apply HX; tauto]|reflexivity]. }
    { eapply rep_agree; [|exact Hrep2sub]. intros p Hp. apply Hs2, HX.
      apply Hsub in Hp. tauto. }
    { apply NoDup_Node. repeat split; try done.
      - by rewrite elem_of_addrs_Node.
      - tauto.
      - intros z Hz%elem_of_addrs_Node Hz'. apply (Hlr z); tauto. }
    { done. }
    { split; simpl; lia. }
    { simpl in Hfuel |- *. lia. }
    rewrite Hrun3.
    set (v := root_of (merge (Node ll pl yl lr) rl)) in *.
    assert (m3 !! pr = Some (node_of yr q (root_of rr))) as Hm3pr.
    { rewrite Hag3 by done. rewrite Hs2; [exact Hm2pr|]. apply HX. tauto. }
    rewrite (put_slot_LeftOf pr v (set_nodes m3 s2) _ Hpr Hm3pr).
    rewrite set_nodes_set_nodes. cbn [nodes set_nodes]. fields.
    set (m4 := <[pr := node_of yr v (root_of rr)]> m3).
    destruct (put_slot_commute ptr pr q (set_nodes m2 s) m4 X Hslot2 Hsep)
      as (m' & Hag' & HXm' & Heq).
    { fold s2. eapply agree_outside_trans.
      - eapply agree_outside_mono; [|exact Hag3]. intros z. rewrite HX, Hsub. tauto.
      - apply agree_outside_insert, HX. tauto. }
    exists m', lq, rq. split; [|split; [|split]].
    + eapply agree_outside_trans; [exact Hag02|exact Hag'].
    + assert (rep m4 (Node (merge (Node ll pl yl lr) rl) pr yr rr)) as Hrep4.
      { cbn [rep]. split; [done|]. split; [|split].
        - unfold m4. by rewrite lookup_insert_eq.
        - apply rep_insert_ne; [|done]. rewrite addrs_merge, elem_of_app.
          rewrite elem_of_addrs_Node.
          intros [?|?]; try tauto. apply (Hlr pr); tauto.
        - apply rep_insert_ne; [done|].
          eapply rep_agree_outside; [exact Hag3| |].
          + intros z Hz. rewrite Hsub.
            assert (z ∈ addrs rl ∨ z = pr ∨ z ∈ addrs rr) as Hzr by tauto.
            intros [?|[?|?]].
            * by apply (Hlr z).
            * subst. tauto.
            * by apply (Hrlr z).
          + eapply rep_agree; [|exact Hrep2rr]. intros z Hz. apply Hs2, HX. tauto. }
      eapply rep_agree; [|exact Hrep4]. intros z Hz. apply HXm', HX.
      rewrite elem_of_addrs_Node, addrs_merge, elem_of_app in Hz.
      rewrite elem_of_addrs_Node in Hz. tauto.
    + rewrite HXm' by (apply HX; tauto). unfold m4.
      rewrite lookup_insert_ne by (intros E; by apply Hprq). exact Hm3q.
    + fields. fold s2 in Heq. rewrite set_nodes_set_nodes in Heq.
      by rewrite <- Heq.
Qed.

Lemma map_tree_delete_node_spec fuel d ptr s t :
  slot_holds ptr (root_of t) s →
  rep (nodes s) t → NoDup (addrs t) →
  slot_sep ptr (addrs t) →
  (size t < fuel)%nat →
  match delete_tree d t with
  | None =>
      map_tree_delete_node fuel d ptr s = Fatal "trying to delete inexistent node"
  | Some (v, e, t') =>
      ∃ m' lv rv,
        agree_outside (addrs t) (nodes s) m' ∧ rep m' t' ∧
        m' !! v = Some (node_of (with_prio 0 e) lv rv) ∧
        map_tree_delete_node fuel d ptr s =
          Done v (put_slot ptr (root_of t') (set_nodes m' s))
  end.
Proof.
  revert fuel ptr s.
  induction t as [|l IHl q y r IHr]; intros fuel ptr s Hslot Hrep Hnd Hsep Hfuel.
  - destruct fuel as [|fuel]; [simpl in Hfuel; lia|]. simpl delete_tree.
    rewrite map_tree_delete_node_S.
    step (read_slot_holds _ _ _ Hslot). simpl root_of.
    by rewrite decide_True by done.
  - simpl delete_tree.
    destruct (decide (d < e_start y)) as [Hlt|Hlt];
      [|destruct (decide (d >= e_end y)) as [Hge|Hge]].
    + destruct fuel as [|fuel]; [simpl in Hfuel; lia|]. simpl in Hfuel.
      pose proof Hrep as (Hq & Hmq & Hrl & Hrr).
      pose proof Hnd as (Hndl & Hndr & Hql & Hqr & Hlr)%NoDup_Node.
      rewrite map_tree_delete_node_S.
      step (read_slot_holds _ _ _ Hslot). simpl root_of.
      rewrite decide_False by done.
      step (load_Some _ _ _ Hq Hmq). fields.
      rewrite decide_True by done.
      assert (slot_holds (LeftOf q) (root_of l) s) as Hslot'.
      { simpl. split; [done|]. eexists. split; [exact Hmq|done]. }
      specialize (IHl fuel (LeftOf q) s Hslot' Hrl Hndl Hql ltac:(lia)).
      destruct (delete_tree d l) as [[[v e] l']|] eqn:Hdel; [|done].
      destruct IHl as (m1 & lv & rv & Hag1 & Hrep1 & Hm1v & Hrun).
      rewrite Hrun.
      destruct (delete_tree_items _ _ _ _ _ Hdel) as (_ & l1 & l2 & E1 & E2).
      assert (∀ z, z ∈ addrs l' → z ∈ addrs l) as Hsub.
      { intros z. unfold addrs. rewrite E1, E2, !fmap_app, fmap_cons.
        rewrite !elem_of_app, elem_of_cons. tauto. }
      assert (v ∈ addrs l) as Hvl.
      { unfold addrs. rewrite E1, fmap_app, fmap_cons, elem_of_app, elem_of_cons.
        simpl. tauto. }
      assert (m1 !! q = Some (node_of y (root_of l) (root_of r))) as Hm1q.
      { by rewrite Hag1. }
      rewrite (put_slot_LeftOf q _ (set_nodes m1 s) _ Hq Hm1q).
      rewrite set_nodes_set_nodes. cbn [nodes set_nodes]. fields.
      set (m2 := <[q := node_of y (root_of l') (root_of r)]> m1).
      assert (agree_outside (addrs (Node l q y r)) (nodes s) m2) as Hag2.
      { eapply agree_outside_trans.
        - eapply agree_outside_mono; [|exact Hag1].
          intros z. rewrite elem_of_addrs_Node. tauto.
        - apply agree_outside_insert. rewrite elem_of_addrs_Node. tauto. }
      exists m2, lv, rv. split; [done|]. split; [|split].
      * cbn [rep]. split; [done|]. split; [|split].
        -- unfold m2. by rewrite lookup_insert_eq.
        -- apply rep_insert_ne; [|done]. intros Hin. by apply Hql, Hsub.
        -- apply rep_insert_ne; [done|].
           eapply rep_agree_outside; [exact Hag1| |exact Hrr].
           intros z Hz Hzl. by apply (Hlr z).
      * unfold m2. rewrite lookup_insert_ne; [done|]. by intros ->.
      * cbn [root_of]. rewrite put_slot_same; [done|].
        eapply slot_holds_agree; [exact Hslot|exact Hsep|exact Hag2].
    + destruct fuel as [|fuel]; [simpl in Hfuel; lia|]. simpl in Hfuel.
      pose proof Hrep as (Hq & Hmq & Hrl & Hrr).
      pose proof Hnd as (Hndl & Hndr & Hql & Hqr & Hlr)%NoDup_Node.
      rewrite map_tree_delete_node_S.
      step (read_slot_holds _ _ _ Hslot). simpl root_of.
      rewrite decide_False by done.
      step (load_Some _ _ _ Hq Hmq). fields.
      rewrite decide_False by done. rewrite decide_True by done.
      assert (slot_holds (RightOf q) (root_of r) s) as Hslot'.
      { simpl. split; [done|]. eexists. split; [exact Hmq|done]. }
      specialize (IHr fuel (RightOf q) s Hslot' Hrr Hndr Hqr ltac:(lia)).
      destruct (delete_tree d r) as [[[v e] r']|] eqn:Hdel; [|done].
      destruct IHr as (m1 & lv & rv & Hag1 & Hrep1 & Hm1v & Hrun).
      rewrite Hrun.
      destruct (delete_tree_items _ _ _ _ _ Hdel) as (_ & l1 & l2 & E1 & E2).
      assert (∀ z, z ∈ addrs r' → z ∈ addrs r) as Hsub.
      { intros z. unfold addrs. rewrite E1, E2, !fmap_app, fmap_cons.
        rewrite !elem_of_app, elem_of_cons. tauto. }
      assert (v ∈ addrs r) as Hvr.
      { unfold addrs. rewrite E1, fmap_app, fmap_cons, elem_of_app, elem_of_cons.
        simpl. tauto. }
      assert (m1 !! q = Some (node_of y (root_of l) (root_of r))) as Hm1q.
      { by rewrite Hag1. }
      rewrite (put_slot_RightOf q _ (set_nodes m1 s) _ Hq Hm1q).
      rewrite set_nodes_set_nodes. cbn [nodes set_nodes]. fields.
      set (m2 := <[q := node_of y (root_of l) (root_of r')]> m1).
      assert (agree_outside (addrs (Node l q y r)) (nodes s) m2) as Hag2.
      { eapply agree_outside_trans.
        - eapply agree_outside_mono; [|exact Hag1].
          intros z. rewrite elem_of_addrs_Node. tauto.
        - apply agree_outside_insert. rewrite elem_of_addrs_Node. tauto. }
      exists m2, lv, rv. split; [done|]. split; [|split].
      * cbn [rep]. split; [done|]. split; [|split].
        -- unfold m2. by rewrite lookup_insert_eq.
        -- apply rep_insert_ne; [done|].
           eapply rep_agree_outside; [exact Hag1| |exact Hrl].
           intros z Hz. by apply Hlr.
        -- apply rep_insert_ne; [|done]. intros Hin. by apply Hqr, Hsub.
      * unfold m2. rewrite lookup_insert_ne; [done|]. by intros ->.
      * cbn [root_of]. rewrite put_slot_same; [done|].
        eapply slot_holds_agree; [exact Hslot|exact Hsep|exact Hag2].
    + apply delete_found_spec; try done. unfold contains. lia.
Qed.

(** ** The operations at the root of the registry *)

Lemma represents_slot s t : represents s t → slot_holds RootSlot (root_of t) s.
Proof. by intros (Hh & _). Qed.

Lemma put_slot_RootSlot_nodes v s : nodes (put_slot RootSlot v s) = nodes s.
Proof. unfold put_slot. simpl. by destruct (rando_map_header s). Qed.

Lemma represents_put_slot s t t' m :
  represents s t → rep m t' → NoDup (addrs t') →
  represents (put_slot RootSlot (root_of t') (set_nodes m s)) t'.
Proof.
  intros ((h & Hh & _) & _) Hrep Hnd. split; [|split; [|done]].
  - unfold put_slot. simpl. rewrite Hh. simpl. eauto.
  - by rewrite put_slot_RootSlot_nodes.
Qed.

Lemma same_arena_put_slot ptr v m s : same_arena s (put_slot ptr v (set_nodes m s)).
Proof. destruct (put_slot_fields ptr v (set_nodes m s)) as (? & ? & ?). by split. Qed.

Lemma insert_at_root fuel node x s t :
  represents s t →
  node ≠ 0 → node ∉ addrs t →
  nodes s !! node = Some (node_of x 0 0) →
  (size t < fuel)%nat →
  match insert_tree node x t with
  | None =>
      map_tree_insert_node fuel node RootSlot s = Fatal "overlapping rando map nodes"
  | Some t' =>
      ∃ s', map_tree_insert_node fuel node RootSlot s = Done tt s' ∧
            represents s' t' ∧ same_arena s s' ∧
            agree_outside (node :: addrs t) (nodes s) (nodes s')
  end.
Proof.
  intros Hr Hnode Hfresh Hmem Hfuel.
  pose proof Hr as (Hh & Hrep & Hnd).
  pose proof (map_tree_insert_node_spec fuel node x RootSlot s t
                (represents_slot _ _ Hr) Hrep Hnd Hnode Hfresh Hmem I Hfuel) as H.
  destruct (insert_tree node x t) as [t'|] eqn:Hins; [|done].
  destruct H as (m' & Hag & Hrep' & Hrun).
  eexists. split; [exact Hrun|]. split; [|split].
  - eapply represents_put_slot; [exact Hr|done|].
    rewrite (insert_tree_addrs _ _ _ _ Hins). by apply NoDup_cons.
  - apply same_arena_put_slot.
  - by rewrite put_slot_RootSlot_nodes.
Qed.

(** Filling in a node that is not in the tree leaves the tree as it is. *)
Lemma represents_pending node x s t :
  represents s t → (node ∉ addrs t) →
  represents (pending node x s) t ∧
  nodes (pending node x s) !! node = Some (node_of x 0 0).
Proof.
  intros (Hh & Hrep & Hnd) Hnt. split; [|apply lookup_insert_eq].
  split; [done|]. split; [|done]. by apply rep_insert_ne.
Qed.

Lemma delete_tree_NoDup d t v e t' :
  delete_tree d t = Some (v, e, t') → NoDup (addrs t) →
  NoDup (addrs t') ∧ v ∈ addrs t ∧ (v ∉ addrs t') ∧
  (∀ z, z ∈ addrs t' → z ∈ addrs t).
Proof.
  intros Hdel Hnd.
  destruct (delete_tree_items _ _ _ _ _ Hdel) as (_ & l1 & l2 & E1 & E2).
  unfold addrs in *. rewrite E1 in Hnd. rewrite E1, E2.
  rewrite fmap_app, fmap_cons in Hnd. rewrite !fmap_app, fmap_cons. simpl in *.
  apply NoDup_app in Hnd as (Hnd1 & Hd & Hnd2).
  apply NoDup_cons in Hnd2 as (Hv & Hnd2).
  split; [|split; [|split]].
  - apply NoDup_app. repeat split; [done| |done].
    intros z Hz Hz'. apply (Hd z Hz). by right.
  - rewrite elem_of_app, elem_of_cons. tauto.
  - rewrite elem_of_app. intros [Hin|Hin]; [|done]. apply (Hd v Hin). by left.
  - intros z. rewrite !elem_of_app, elem_of_cons. tauto.
Qed.

Lemma delete_at_root fuel d s t :
  represents s t →
  (size t < fuel)%nat →
  match delete_tree d t with
  | None =>
      map_tree_delete_node fuel d RootSlot s = Fatal "trying to delete inexistent node"
  | Some (v, e, t') =>
      ∃ s' lv rv,
        map_tree_delete_node fuel d RootSlot s = Done v s' ∧
        represents s' t' ∧ same_arena s s' ∧
        agree_outside (addrs t) (nodes s) (nodes s') ∧
        nodes s' !! v = Some (node_of (with_prio 0 e) lv rv)
  end.
Proof.
  intros Hr Hfuel. pose proof Hr as (Hh & Hrep & Hnd).
  pose proof (map_tree_delete_node_spec fuel d RootSlot s t
                (represents_slot _ _ Hr) Hrep Hnd I Hfuel) as H.
  destruct (delete_tree d t) as [[[v e] t']|] eqn:Hdel; [|done].
  destruct H as (m' & lv & rv & Hag & Hrep' & Hmv & Hrun).
  destruct (delete_tree_NoDup _ _ _ _ _ Hdel Hnd) as (Hnd' & _).
  exists (put_slot RootSlot (root_of t') (set_nodes m' s)), lv, rv.
  split; [exact Hrun|]. split; [|split; [|split]].
  - by eapply represents_put_slot.
  - apply same_arena_put_slot.
  - by rewrite put_slot_RootSlot_nodes.
  - by rewrite put_slot_RootSlot_nodes.
Qed.

Lemma rando_map_delete_spec fuel d s t :
  represents s t →
  (size t < fuel)%nat →
  match delete_tree d t with
  | None =>
      rando_map_delete fuel d s = Fatal "trying to delete inexistent node"
  | Some (v, e, t') =>
      ∃ s', rando_map_delete fuel d s = Done tt s' ∧
            represents s' t' ∧
            nodes s' !! v = Some (set_right (free_list s) zero_node) ∧
            free_list s' = v ∧
            current_page s' = current_page s ∧
            mmap_pool s' = mmap_pool s ∧
            agree_outside (addrs t) (nodes s) (nodes s')
  end.
Proof.
  intros Hr Hfuel. pose proof (delete_at_root fuel d s t Hr Hfuel) as H.
  pose proof Hr as (_ & Hrep & Hnd).
  destruct (delete_tree d t) as [[[v e] t']|] eqn:Hdel.
  - destruct H as (s1 & lv & rv & Hrun & Hr1 & (Hcp & Hfl & Hpool) & Hag & Hv).
    destruct (delete_tree_NoDup _ _ _ _ _ Hdel Hnd) as (Hnd' & Hvt & Hvt' & Hsub).
    assert (v ≠ 0) as Hv0 by (eapply rep_nonzero; eauto).
    unfold rando_map_delete. step Hrun.
    step (update_Some _ _ (λ _, zero_node) _ Hv0 Hv).
    unfold get_state at 1. unfold bind at 1.
    erewrite bind_Done; cycle 1.
    { apply update_Some; [done|]. simpl. apply lookup_insert_eq. }
    cbn [nodes set_nodes free_list]. rewrite insert_insert_eq.
    unfold get_state, put_state, bind. rewrite Hfl.
    eexists. split; [reflexivity|].
    destruct Hr1 as (Hh1 & Hrep1 & _).
    split; [|split; [|split; [|split; [|split]]]]; cbn; try done.
    + split; [done|]. split; [|done]. by apply rep_insert_ne.
    + by rewrite lookup_insert_eq.
    + eapply agree_outside_trans; [exact Hag|]. by apply agree_outside_insert.
  - unfold rando_map_delete. by apply bind_Fatal.
Qed.

(** *** Which node a delete finds *)

Lemma delete_tree_None d t :
  Forall (λ e, ¬ contains e d) (entries t) → delete_tree d t = None.
Proof.
  intros Hall. destruct (delete_tree d t) as [[[v e] t']|] eqn:Hdel; [|done].
  destruct (delete_tree_items _ _ _ _ _ Hdel) as (Hc & l1 & l2 & E1 & _).
  exfalso. rewrite Forall_forall in Hall. apply (Hall e); [|done].
  unfold entries. rewrite E1, fmap_app, fmap_cons, elem_of_app, elem_of_cons.
  simpl. tauto.
Qed.

Lemma delete_tree_finds d t p e :
  ordered_disjoint t → (p, e) ∈ items t → contains e d →
  ∃ t', delete_tree d t = Some (p, e, t').
Proof.
  unfold ordered_disjoint.
  induction t as [|l IHl q y r IHr]; [by rewrite elem_of_nil|].
  rewrite entries_Node, items_Node. intros Hs Hin Hc.
  apply StronglySorted_app in Hs as (Hlr & Hsl & Hsr).
  apply StronglySorted_cons in Hsr as (Hyr & Hsr).
  rewrite Forall_forall in Hyr.
  assert (∀ z, z ∈ entries l → before z y) as Hly.
  { intros z Hz. apply Hlr; [done|]. by left. }
  destruct Hc as [Hc1 Hc2].
  apply elem_of_app in Hin as [Hin|Hin]; [|apply elem_of_cons in Hin as [Hin|Hin]].
  - assert (e ∈ entries l) as He by (apply (list_elem_of_fmap_2 snd _ _ Hin)).
    destruct (Hly e He) as [Hb1 Hb2]. simpl.
    rewrite decide_True by lia.
    destruct (IHl Hsl Hin) as (l' & ->); [by split|]. eauto.
  - injection Hin as -> ->. simpl.
    rewrite decide_False by lia. rewrite decide_False by lia. eauto.
  - assert (e ∈ entries r) as He by (apply (list_elem_of_fmap_2 snd _ _ Hin)).
    destruct (Hyr e He) as [Hb1 Hb2]. simpl.
    rewrite decide_False by lia. rewrite decide_True by lia.
    destruct (IHr Hsr Hin) as (r' & ->); [by split|]. eauto.
Qed.

Lemma ordered_disjoint_others (l1 l2 : list (Z * entry)) e d :
  StronglySorted before (l1.*2 ++ e :: l2.*2) → contains e d →
  Forall (λ i, ¬ contains i.2 d) (l1 ++ l2).
Proof.
  intros Hs [Hc1 Hc2].
  apply StronglySorted_app in Hs as (Hlr & _ & Hsr).
  apply StronglySorted_cons in Hsr as (Her & _). rewrite Forall_forall in Her.
  apply Forall_app. split; apply Forall_forall; intros [q y] Hin [Hy1 Hy2]; simpl in *.
  - destruct (Hlr y e) as [Hb1 Hb2]; [|by left|lia].
    by apply (list_elem_of_fmap_2 snd _ _ Hin).
  - destruct (Her y) as [Hb1 Hb2]; [|lia].
    by apply (list_elem_of_fmap_2 snd _ _ Hin).
Qed.


(** ** The allocator and [rando_map_add] *)

Lemma memset_page_lookup b m p :
  ¬ (b ≤ p < b + PAGE_SIZE) → memset_page b m !! p = m !! p.
Proof.
  intros Hp. unfold memset_page. rewrite map_lookup_filter.
  destruct (m !! p) as [n|]; [|done]. simpl.
  by rewrite option_guard_True.
Qed.

Lemma alloc_node_free a s :
  free_list s ≠ 0 →
  alloc_node a s =
    Done (free_list s)
         (set_free_list (right (default zero_node (nodes s !! free_list s))) s).
Proof.
  intros Hfl. unfold alloc_node, bind, get_state, put_state, ret, load.
  rewrite decide_True by done. by rewrite decide_False by done.
Qed.

Lemma alloc_node_bump a s :
  free_list s = 0 →
  ¬ next (current_page s) > limit (current_page s) →
  alloc_node a s =
    Done (next (current_page s))
         (set_current_page
            (mkPage (wrap a (next (current_page s) + sizeof_RandoMapNode a))
                    (limit (current_page s))) s).
Proof.
  intros Hfl Hle. unfold alloc_node, bind, get_state, ret, bump_next.
  rewrite decide_False by (by intros []). by rewrite decide_False by done.
Qed.

Lemma alloc_node_page a s :
  free_list s = 0 →
  next (current_page s) > limit (current_page s) →
  alloc_node a s =
    match mmap_pool s with
    | [] => Fatal "rando_map mmap failed"
    | map_start :: pool =>
        Done map_start
          (set_current_page
             (mkPage (wrap a (map_start + sizeof_RandoMapNode a))
                     (wrap a (wrap a (map_start + PAGE_SIZE) - sizeof_RandoMapNode a)))
             (set_nodes (memset_page map_start (nodes s)) (set_mmap_pool pool s)))
    end.
Proof.
  intros Hfl Hgt. unfold alloc_node, bind, get_state, ret, bump_next, alloc_map_page.
  rewrite decide_False by (by intros []). rewrite decide_True by done.
  by destruct (mmap_pool s).
Qed.

Lemma alloc_node_spec a s t :
  alloc_fresh s t → rep (nodes s) t →
  alloc_node a s = Fatal "rando_map mmap failed" ∨
  ∃ res s1, alloc_node a s = Done res s1 ∧ res ≠ 0 ∧ (res ∉ addrs t) ∧
            rep (nodes s1) t ∧ rando_map_header s1 = rando_map_header s.
Proof.
  unfold alloc_fresh. intros Hfresh Hrep.
  destruct (decide (free_list s ≠ 0)) as [Hfl|Hfl].
  - right. rewrite alloc_node_free by done.
    eexists _, _. split; [reflexivity|]. by repeat split.
  - assert (free_list s = 0) as Hfl0 by (destruct (decide (free_list s = 0)); tauto).
    destruct (decide (next (current_page s) > limit (current_page s))) as [Hgt|Hgt].
    + rewrite alloc_node_page by done.
      destruct (mmap_pool s) as [|b pool]; [by left|]. right.
      destruct Hfresh as [Hb Hout]. rewrite Forall_forall in Hout.
      eexists _, _. split; [reflexivity|]. split; [done|]. split; [|split; [|done]].
      * intros Hin. apply (Hout _ Hin). unfold PAGE_SIZE. lia.
      * simpl. eapply rep_agree; [|exact Hrep]. intros p Hp.
        apply memset_page_lookup. by apply Hout.
    + right. destruct Hfresh as [Hn Hout]. rewrite alloc_node_bump by done.
      eexists _, _. split; [reflexivity|]. by repeat split.
Qed.

Lemma update_Done s p f :
  p ≠ 0 →
  update p f s = Done tt (set_nodes (<[p := f (default zero_node (nodes s !! p))]> (nodes s)) s).
Proof. intros Hp. unfold update. by rewrite decide_False. Qed.

(** The nine member assignments of [rando_map_add] leave one fully
    initialised node, whatever the slot held before. *)
Lemma fill_node node ds de us uv nf fs pr (k : M unit) s :
  node ≠ 0 →
  (update node (set_div_start ds) ;;;
   update node (set_div_end de) ;;;
   update node (set_undiv_start us) ;;;
   update node (set_undiv_vaddr uv) ;;;
   update node (set_num_funcs nf) ;;;
   update node (set_funcs fs) ;;;
   update node (set_left 0) ;;;
   update node (set_right 0) ;;;
   update node (set_prio pr) ;;;
   k) s =
  k (set_nodes (<[node := mkNode ds de us uv nf fs 0 0 pr]> (nodes s)) s).
Proof.
  intros Hnode.
  rewrite (bind_Done _ _ _ _ _ (update_Done _ _ _ Hnode)).
  do 8 (erewrite bind_Done;
        [|apply update_Some; [done|cbn [nodes set_nodes]; apply lookup_insert_eq]];
        rewrite set_nodes_set_nodes; cbn [nodes set_nodes]; rewrite insert_insert_eq).
  reflexivity.
Qed.

Lemma rando_map_add_spec a fuel ds sz us uv nf fs raw s t :
  represents s t → alloc_fresh s t → (size t < fuel)%nat →
  (alloc_node a s = Fatal "rando_map mmap failed" ∧
   rando_map_add a fuel ds sz us uv nf fs raw s = Fatal "rando_map mmap failed") ∨
  ∃ node s1, alloc_node a s = Done node s1 ∧ node ≠ 0 ∧ (node ∉ addrs t) ∧
    match insert_tree node (new_entry a ds sz us uv nf fs raw) t with
    | None =>
        rando_map_add a fuel ds sz us uv nf fs raw s =
          Fatal "overlapping rando map nodes"
    | Some t' =>
        ∃ s', rando_map_add a fuel ds sz us uv nf fs raw s = Done tt s' ∧
              represents s' t' ∧
              same_arena (bumped a s1) s' ∧
              agree_outside (node :: addrs t) (nodes s1) (nodes s')
    end.
Proof.
  intros Hr Hfresh Hfuel. pose proof Hr as (Hh & Hrep & Hnd).
  destruct (alloc_node_spec a s t Hfresh Hrep)
    as [Hfat|(node & s1 & Hrun & Hnode & Hnt & Hrep1 & Hh1)].
  { left. split; [done|]. unfold rando_map_add. by apply bind_Fatal. }
  right. exists node, s1. split; [done|]. split; [done|]. split; [done|].
  set (x := new_entry a ds sz us uv nf fs raw).
  set (s2' := set_nodes (<[node := node_of x 0 0]> (nodes s1))
                (set_current_page
                   (mkPage (wrap a (next (current_page s1) + sizeof_RandoMapNode a))
                           (limit (current_page s1))) s1)).
  assert (rando_map_add a fuel ds sz us uv nf fs raw s =
          map_tree_insert_node fuel node RootSlot s2') as ->.
  { unfold rando_map_add. step Hrun. unfold bump_next at 1. unfold bind at 1.
    by rewrite fill_node by done. }
  assert (represents s2' t) as Hr2.
  { split; [|split; [|done]].
    - unfold s2'. simpl. by rewrite Hh1.
    - unfold s2'. simpl. by apply rep_insert_ne. }
  assert (nodes s2' !! node = Some (node_of x 0 0)) as Hmem.
  { unfold s2'. simpl. by rewrite lookup_insert_eq. }
  pose proof (insert_at_root fuel node x s2' t Hr2 Hnode Hnt Hmem Hfuel) as H.
  destruct (insert_tree node x t) as [t'|].
  - destruct H as (s' & Hrun' & Hr' & Har & Hag).
    exists s'. split; [done|]. split; [done|]. split; [done|].
    eapply agree_outside_trans; [|exact Hag].
    apply agree_outside_insert. by left.
  - exact H.
Qed.

(** ** What a returning [rando_map_add] leaves *)

Lemma rando_map_add_links a fuel ds sz us uv nf fs raw s t s' :
  represents s t → alloc_fresh s t → (size t < fuel)%nat →
  rando_map_add a fuel ds sz us uv nf fs raw s = Done tt s' →
  ∃ t' p, represents s' t' ∧ p ≠ 0 ∧ (p ∉ addrs t) ∧
          insert_tree p (new_entry a ds sz us uv nf fs raw) t = Some t' ∧
          (p, new_entry a ds sz us uv nf fs raw) ∈ items t'.
Proof.
  intros Hr Hfresh Hfuel Hrun.
  destruct (rando_map_add_spec a fuel ds sz us uv nf fs raw s t Hr Hfresh Hfuel)
    as [[_ Hfat]|(p & s1 & _ & Hp & Hpt & H)]; [congruence|].
  destruct (insert_tree p (new_entry a ds sz us uv nf fs raw) t) as [t'|] eqn:Hins;
    [|congruence].
  destruct H as (s'' & Hrun' & Hr' & _).
  assert (s'' = s') as -> by congruence.
  exists t', p. split; [done|]. split; [done|]. split; [done|]. split; [done|].
  destruct (insert_tree_items _ _ _ _ Hins) as (l1 & l2 & _ & ->).
  rewrite elem_of_app, elem_of_cons. tauto.
Qed.

(** What a returning [rando_map_add] does to the bump pointer: the
    increment inside [alloc_node] (none when the node comes off the free
    list) followed by the increment in [rando_map_add] itself. *)
Lemma rando_map_add_bump a fuel ds sz us uv nf fs raw s t s' :
  represents s t → alloc_fresh s t → (size t < fuel)%nat →
  rando_map_add a fuel ds sz us uv nf fs raw s = Done tt s' →
  if decide (free_list s ≠ 0) then
    current_page s' = current_page (bumped a s)
  else if decide (next (current_page s) > limit (current_page s)) then
    ∃ map_start pool, mmap_pool s = map_start :: pool ∧ mmap_pool s' = pool ∧
      next (current_page s') =
        wrap a (wrap a (map_start + sizeof_RandoMapNode a) + sizeof_RandoMapNode a)
  else
    current_page s' = current_page (bumped a (bumped a s)).
Proof.
  intros Hr Hfresh Hfuel Hrun.
  destruct (rando_map_add_spec a fuel ds sz us uv nf fs raw s t Hr Hfresh Hfuel)
    as [[_ Hfat]|(p & s1 & Halloc & _ & _ & H)]; [congruence|].
  destruct (insert_tree p (new_entry a ds sz us uv nf fs raw) t) as [t'|];
    [|congruence].
  destruct H as (s'' & Hrun' & _ & (Hcp & _ & Hpool) & _).
  assert (s'' = s') as -> by congruence.
  destruct (decide (free_list s ≠ 0)) as [Hfl|Hfl].
  - rewrite alloc_node_free in Halloc by done.
    injection Halloc as _ <-. by rewrite Hcp.
  - assert (free_list s = 0) as Hfl0 by (destruct (decide (free_list s = 0)); tauto).
    destruct (decide (next (current_page s) > limit (current_page s))) as [Hgt|Hgt].
    + rewrite alloc_node_page in Halloc by done.
      destruct (mmap_pool s) as [|b pool]; [done|].
      injection Halloc as _ <-. exists b, pool.
      split; [done|]. split; [by rewrite Hpool|]. by rewrite Hcp.
    + rewrite alloc_node_bump in Halloc by done.
      injection Halloc as _ <-. by rewrite Hcp.
Qed.

Lemma arc4random_uniform_range raw :
  0 ≤ arc4random_uniform UINT32_MAX raw ≤ 2 ^ 32 - 2.
Proof.
  unfold arc4random_uniform, UINT32_MAX. rewrite decide_False by lia.
  pose proof (Z.mod_pos_bound raw (2 ^ 32 - 1) ltac:(lia)). lia.
Qed.

(** ** Lookup *)

Lemma rando_map_lookup_S fuel addr curr :
  rando_map_lookup (S fuel) addr curr =
  (if decide (curr = 0) then ret 0
   else
     c <- load curr ;;
     if decide (addr < div_start c) then rando_map_lookup fuel addr (left c)
     else if decide (addr >= div_end c) then rando_map_lookup fuel addr (right c)
     else ret curr).
Proof. reflexivity. Qed.

(** On a tree whose intervals are ascending and pairwise disjoint, the
    descent for an address reaches the node whose interval contains it. *)
Lemma rando_map_lookup_finds fuel d s t p e :
  rep (nodes s) t → ordered_disjoint t →
  (p, e) ∈ items t → contains e d →
  (size t < fuel)%nat →
  rando_map_lookup fuel d (root_of t) s = Done p s.
Proof.
  unfold ordered_disjoint. revert fuel.
  induction t as [|l IHl q y r IHr]; intros fuel Hrep Hs Hin Hc Hfuel;
    [by apply elem_of_nil in Hin|].
  destruct fuel as [|fuel]; [simpl in Hfuel; lia|]. simpl in Hfuel.
  destruct Hrep as (Hq & Hmq & Hrl & Hrr).
  rewrite entries_Node in Hs. rewrite items_Node in Hin.
  apply StronglySorted_app in Hs as (Hlr & Hsl & Hsr).
  apply StronglySorted_cons in Hsr as (Hyr & Hsr).
  rewrite Forall_forall in Hyr.
  assert (∀ z, z ∈ entries l → before z y) as Hly.
  { intros z Hz. apply Hlr; [done|]. by left. }
  destruct Hc as [Hc1 Hc2].
  rewrite rando_map_lookup_S. simpl root_of. rewrite decide_False by done.
  step (load_Some _ _ _ Hq Hmq). fields.
  apply elem_of_app in Hin as [Hin|Hin]; [|apply elem_of_cons in Hin as [Hin|Hin]].
  - assert (e ∈ entries l) as He by (apply (list_elem_of_fmap_2 snd _ _ Hin)).
    destruct (Hly e He) as [Hb1 Hb2].
    rewrite decide_True by lia. apply IHl; [done|done|done|by split|lia].
  - injection Hin as -> ->.
    rewrite decide_False by lia. by rewrite decide_False by lia.
  - assert (e ∈ entries r) as He by (apply (list_elem_of_fmap_2 snd _ _ Hin)).
    destruct (Hyr e He) as [Hb1 Hb2].
    rewrite decide_False by lia. rewrite decide_True by lia.
    apply IHr; [done|done|done|by split|lia].
Qed.



(** An insert keeps the intervals ascending and pairwise disjoint when no
    interval of the tree starts inside the new one. *)
Lemma insert_tree_ordered p x t t' :
  insert_tree p x t = Some t' →
  ordered_disjoint t →
  Forall (λ y, e_start y ≤ e_start x ∨ e_end x ≤ e_start y) (entries t) →
  ordered_disjoint t'.
Proof.
  unfold ordered_disjoint. intros Hins Hs Hcmp.
  assert (∃ l1 l2, items t = l1 ++ l2 ∧ items t' = l1 ++ (p, x) :: l2 ∧
                   Forall (λ i, before i.2 x) l1 ∧
                   Forall (λ i, before x i.2) l2)
    as (l1 & l2 & E1 & E2 & F1 & F2).
  { clear -Hins Hs Hcmp. revert t' Hins.
    induction t as [|l IHl q y r IHr]; intros t' H; simpl in H.
    - inversion H; subst. by exists [], [].
    - rewrite entries_Node in Hs, Hcmp.
      apply StronglySorted_app in Hs as (Hlr & Hsl & Hsr).
      apply StronglySorted_cons in Hsr as (Hyr & Hsr).
      apply Forall_app in Hcmp as (Hcl & Hcr).
      apply Forall_cons in Hcr as (Hcy & Hcr).
      rewrite Forall_forall in Hyr.
      repeat case_decide.
      + destruct (insert_tree p x l) as [l'|]; [|done].
        destruct (IHl Hsl Hcl l' eq_refl) as (l1 & l2 & E1 & E2 & F1 & F2).
        exists l1, (l2 ++ (q, y) :: items r).
        assert (items t' = items (Node l' q y r)) as ->.
        { inversion H. case_decide; [apply items_rot_left_son|done]. }
        rewrite !items_Node, E1, E2, <- !app_assoc. repeat split; [done|].
        apply Forall_app. split; [done|].
        assert (before x y) as Hxy by (unfold before; lia).
        constructor; [done|].
        apply Forall_forall. intros [q' z] Hz. simpl.
        destruct (Hyr z) as [Hb1 Hb2].
        { by apply (list_elem_of_fmap_2 snd _ _ Hz). }
        unfold before in *. lia.
      + destruct (insert_tree p x r) as [r'|]; [|done].
        destruct (IHr Hsr Hcr r' eq_refl) as (l1 & l2 & E1 & E2 & F1 & F2).
        exists (items l ++ (q, y) :: l1), l2.
        assert (items t' = items (Node l q y r')) as ->.
        { inversion H. case_decide; [apply items_rot_right_son|done]. }
        rewrite !items_Node, E1, E2, <- !app_assoc. repeat split; [|done].
        assert (before y x) as Hyx by (unfold before; lia).
        apply Forall_app. split; [|by constructor].
        apply Forall_forall. intros [q' z] Hz. simpl.
        destruct (Hlr z y) as [Hb1 Hb2]; [|by left|].
        { by apply (list_elem_of_fmap_2 snd _ _ Hz). }
        unfold before in *. lia.
      + done. }
  unfold entries in *. rewrite E1, fmap_app in Hs.
  rewrite E2, fmap_app, fmap_cons.
  apply StronglySorted_app in Hs as (Hlr & Hsl & Hsr).
  apply StronglySorted_app. split; [|split; [done|]].
  - intros y z Hy Hz. apply elem_of_cons in Hz as [->|Hz].
    + apply list_elem_of_fmap in Hy as (i & -> & Hi).
      rewrite Forall_forall in F1. by apply F1.
    + by apply Hlr.
  - constructor; [done|]. by apply Forall_fmap.
Qed.

Lemma size_items t : size t = length (items t).
Proof.
  induction t as [|l IHl p e r IHr]; [done|].
  simpl. rewrite length_app. simpl. lia.
Qed.

(** A delete never takes out a node whose interval is empty. *)
Lemma delete_keeps_empty fuel d s t p e s' :
  represents s t → (p, e) ∈ items t → e_end e ≤ e_start e →
  (size t < fuel)%nat →
  rando_map_delete fuel d s = Done tt s' →
  ∃ t' q y, represents s' t' ∧ (p, e) ∈ items t' ∧
            (q, y) ∈ items t ∧ q ≠ p ∧ contains y d ∧ (q ∉ addrs t').
Proof.
  intros Hr Hin Hempty Hfuel Hrun.
  pose proof (rando_map_delete_spec fuel d s t Hr Hfuel) as H.
  pose proof Hr as (_ & _ & Hnd).
  destruct (delete_tree d t) as [[[q y] t']|] eqn:Hdel; [|congruence].
  destruct H as (s'' & Hrun' & Hr' & _).
  assert (s'' = s') as -> by congruence.
  destruct (delete_tree_items _ _ _ _ _ Hdel) as (Hc & l1 & l2 & E1 & E2).
  destruct (delete_tree_NoDup _ _ _ _ _ Hdel Hnd) as (_ & _ & Hqt' & _).
  assert ((p, e) ∈ items t') as Hin'.
  { rewrite E1, elem_of_app, elem_of_cons in Hin. rewrite E2, elem_of_app.
    destruct Hin as [?|[[= -> ->]|?]]; [tauto| |tauto].
    destruct Hc. lia. }
  exists t', q, y. split; [done|]. split; [done|]. split.
  { rewrite E1, elem_of_app, elem_of_cons. tauto. }
  split; [|done]. intros ->. apply Hqt'.
  by apply (list_elem_of_fmap_2 fst _ _ Hin').
Qed.

(** ** The sampler *)

Lemma sampler_constants a :
  0 < sampler_range a < addr_modulus a ∧
  sampler_range a = RAND_ADDR_HIGH a - RAND_ADDR_LOW a ∧
  0 ≤ RAND_ADDR_LOW a ∧ RAND_ADDR_HIGH a ≤ addr_modulus a ∧
  0 ≤ sampler_min a < sampler_range a ∧
  0 < sampler_classes a ∧
  addr_modulus a = sampler_classes a * sampler_range a + sampler_min a.
Proof. destruct a; vm_compute; repeat split; congruence. Qed.

Lemma first_accepted_Some min draws v :
  first_accepted min draws = Some v → v ∈ draws ∧ min ≤ v.
Proof.
  induction draws as [|r rest IH]; simpl; [done|].
  case_decide.
  - intros [? ?]%IH. split; [by right|done].
  - intros [= ->]. split; [by left|lia].
Qed.

Lemma first_accepted_Exists min draws :
  Exists (λ r, min ≤ r) draws → is_Some (first_accepted min draws).
Proof.
  induction 1 as [r rest Hr|r rest _ IH]; simpl; case_decide; eauto; lia.
Qed.

Lemma address_of_draw_range a v :
  RAND_ADDR_LOW a ≤ address_of_draw a v < RAND_ADDR_HIGH a ∧
  address_of_draw a v = v mod sampler_range a + RAND_ADDR_LOW a.
Proof.
  destruct (sampler_constants a) as (Hr & Hre & Hl & Hh & _).
  pose proof (Z.mod_pos_bound v (sampler_range a) ltac:(lia)) as Hm.
  unfold address_of_draw, wrap. rewrite Z.mod_small by lia. lia.
Qed.

(** The loop returns the first draw that is not below [min], having
    rejected every draw before it. *)
Lemma first_accepted_spec min draws v :
  first_accepted min draws = Some v ↔
  ∃ pre post, draws = pre ++ v :: post ∧ Forall (λ r, r < min) pre ∧ min ≤ v.
Proof.
  induction draws as [|d rest IH]; simpl.
  - split; [done|]. intros (pre & post & E & _). by destruct pre.
  - destruct (decide (d < min)) as [Hd|Hd].
    + rewrite IH. split.
      * intros (pre & post & -> & Hpre & Hv). exists (d :: pre), post.
        split; [done|]. split; [by constructor|done].
      * intros (pre & post & E & Hpre & Hv). destruct pre as [|d' pre].
        -- simpl in E. injection E as -> _. lia.
        -- simpl in E. injection E as -> ->. apply Forall_cons in Hpre as (_ & Hpre).
           by exists pre, post.
    + split.
      * intros [= ->]. exists [], rest. split; [done|]. split; [constructor|lia].
      * intros (pre & post & E & Hpre & Hv). destruct pre as [|d' pre].
        -- simpl in E. by injection E as ->.
        -- simpl in E. injection E as -> ->. apply Forall_cons in Hpre as (? & _). lia.
Qed.

Lemma get_random_address_spec a draws x :
  get_random_address a draws = Some x ↔
  ∃ pre v post, draws = pre ++ v :: post ∧
                Forall (λ r, r < sampler_min a) pre ∧ sampler_min a ≤ v ∧
                x = RAND_ADDR_LOW a + v mod sampler_range a.
Proof.
  unfold get_random_address. split.
  - destruct (first_accepted _ _) as [v|] eqn:Hv; [|done].
    intros [= <-]. apply first_accepted_spec in Hv as (pre & post & E & Hpre & Hm).
    exists pre, v, post. split; [done|]. split; [done|]. split; [done|].
    destruct (address_of_draw_range a v) as (_ & ->). lia.
  - intros (pre & v & post & E & Hpre & Hm & ->).
    assert (first_accepted (sampler_min a) draws = Some v) as ->.
    { apply first_accepted_spec. by exists pre, post. }
    destruct (address_of_draw_range a v) as (_ & ->). f_equal. lia.
Qed.

Lemma get_random_address_single a v x :
  get_random_address a [v] = Some x ↔
  sampler_min a ≤ v ∧ address_of_draw a v = x.
Proof.
  unfold get_random_address. simpl. destruct (decide (v < sampler_min a)).
  - split; [done|]. intros [? _]. lia.
  - split; [intros [= <-]; split; [lia|done]|]. by intros [_ ->].
Qed.

(** ** The POT index map *)

Section POTIndexFacts.

Local Open Scope nat_scope.

Lemma split_lines_no_newline l :
  Forall (λ c, c ≠ newline) l → split_lines l = [l].
Proof.
  induction 1 as [|c l Hc _ IH]; [done|]. simpl.
  rewrite decide_False by done. by rewrite IH.
Qed.

Lemma split_lines_app_newline l rest :
  Forall (λ c, c ≠ newline) l →
  split_lines (l ++ newline :: rest) = l :: split_lines rest.
Proof.
  induction 1 as [|c l Hc _ IH]; simpl.
  - done.
  - rewrite decide_False by done. by rewrite IH.
Qed.

Lemma read_pot_map_loop_assign fuel content pos index m :
  pos ≤ length content → length content - pos < fuel →
  read_pot_map_loop fuel content pos index m =
    assign (split_lines (drop pos content)) index m.
Proof.
  revert pos index m.
  induction fuel as [|fuel IH]; intros pos index m Hpos Hfuel; [lia|].
  simpl. unfold find, substr_from, substr.
  destruct (list_find (λ x, x = newline) (drop pos content)) as [[i x]|] eqn:Hfind;
    simpl.
  - apply list_find_Some in Hfind as (Hi & -> & Hbefore).
    assert (i < length (drop pos content)) as Hlen by (by eapply lookup_lt_Some).
    rewrite length_drop in Hlen.
    rewrite <- (take_drop_middle _ _ _ Hi) at 2.
    rewrite split_lines_app_newline; cycle 1.
    { apply Forall_forall. intros c Hc.
      apply list_elem_of_lookup in Hc as (j & Hj).
      apply lookup_take_Some in Hj as (Hj & Hji). by eapply Hbefore. }
    simpl. rewrite drop_drop.
    replace (pos + i - pos) with i by lia.
    replace (pos + i + 1) with (pos + S i) by lia.
    replace (index + 1) with (S index) by lia.
    apply IH; lia.
  - apply list_find_None in Hfind.
    by rewrite split_lines_no_newline.
Qed.

Lemma assign_lookup lines index m k :
  assign lines index m !! k =
    match list_find (λ l, l = k) (reverse lines) with
    | Some (j, _) => Some (index + (length lines - 1 - j))
    | None => m !! k
    end.
Proof.
  revert index m. induction lines as [|l ls IH]; intros index m; [done|].
  simpl. rewrite IH, reverse_cons.
  destruct (list_find (λ l0, l0 = k) (reverse ls)) as [[j x]|] eqn:Hfind.
  - pose proof Hfind as (Hj & _)%list_find_Some. apply lookup_lt_Some in Hj.
    rewrite length_reverse in Hj.
    erewrite list_find_app_l by done. f_equal. lia.
  - rewrite list_find_app_r by done. rewrite length_reverse. simpl.
    case_decide as Hl; simpl.
    + subst. rewrite lookup_insert_eq. f_equal. lia.
    + by rewrite lookup_insert_ne.
Qed.

(** What a freshly read map answers. *)
Lemma read_lookup content soname :
  read_pot_map_loop (S (length content)) content 0 0 ∅ !! soname =
    match list_find (λ l, l = soname) (reverse (split_lines content)) with
    | Some (j, _) => Some (length (split_lines content) - 1 - j)
    | None => None
    end.
Proof.
  rewrite read_pot_map_loop_assign by lia. rewrite drop_0, assign_lookup.
  by destruct (list_find _ _) as [[j x]|].
Qed.

End POTIndexFacts.

Lemma list_find_last {A} `{EqDecision A} (lines : list A) (k : A) (i : nat) :
  lines !! i = Some k →
  (∀ j, (i < j)%nat → lines !! j ≠ Some k) →
  ∃ x, list_find (λ l, l = k) (reverse lines) = Some ((length lines - 1 - i)%nat, x).
Proof.
  intros Hi Hlast. pose proof (lookup_lt_Some _ _ _ Hi) as Hlen.
  destruct (list_find (λ l, l = k) (reverse lines)) as [[j x]|] eqn:Hfind.
  - exists x. do 2 f_equal.
    pose proof Hfind as (Hj & -> & Hmin)%list_find_Some.
    apply reverse_lookup_Some in Hj as (Hj & Hjlen).
    destruct (decide (i < length lines - S j)%nat) as [Hlt|Hge].
    + by destruct (Hlast _ Hlt).
    + destruct (decide (length lines - 1 - i < j)%nat) as [Hlt'|?]; [|lia].
      exfalso. eapply (Hmin (length lines - 1 - i)%nat k); [|done..].
      apply reverse_lookup_Some. split; [|lia].
      by replace (length lines - S (length lines - 1 - i))%nat with i by lia.
  - exfalso. apply list_find_None in Hfind. rewrite Forall_forall in Hfind.
    apply (Hfind k); [|done]. apply elem_of_reverse.
    by eapply list_elem_of_lookup_2.
Qed.

(** ** The arena invariant *)

Lemma sizeof_RandoMapNode_bounds a :
  0 < sizeof_RandoMapNode a ∧ 2 * sizeof_RandoMapNode a < PAGE_SIZE ∧
  PAGE_SIZE < addr_modulus a ∧ sizeof_RandoMapHeader a < sizeof_RandoMapNode a ∧
  0 < sizeof_RandoMapHeader a.
Proof. destruct a; vm_compute; repeat split; congruence. Qed.

Lemma wrap_small a z : 0 ≤ z < addr_modulus a → wrap a z = z.
Proof. intros H. unfold wrap. by apply Z.mod_small. Qed.

Lemma free_chain_agree m m' p fl :
  (∀ q, q ∈ fl → m' !! q = m !! q) → free_chain m p fl → free_chain m' p fl.
Proof.
  revert p. induction fl as [|q rest IH]; intros p Ha; [done|].
  simpl. intros (-> & Hq & Hc). split; [done|]. split; [done|].
  rewrite Ha by (by left). apply IH; [|done].
  intros z Hz. apply Ha. by right.
Qed.

Lemma free_chain_nil m p fl : free_chain m p fl → p = 0 → fl = [].
Proof. destruct fl as [|q rest]; [done|]. simpl. intros (-> & Hq & _) ?. done. Qed.

Lemma free_chain_cons m p fl :
  free_chain m p fl → p ≠ 0 →
  ∃ rest, fl = p :: rest ∧
          free_chain m (right (default zero_node (m !! p))) rest.
Proof.
  destruct fl as [|q rest]; simpl; [done|].
  intros (-> & _ & Hc) _. eauto.
Qed.

Lemma arena_ok_alloc_fresh a s t fl : arena_ok a s t fl → alloc_fresh s t.
Proof.
  intros (Hr & Hc & Hnd & Hn & Hun & Hpool & _). unfold alloc_fresh.
  destruct (decide (free_list s ≠ 0)) as [Hfl|Hfl].
  - destruct (free_chain_cons _ _ _ Hc Hfl) as (rest & -> & _).
    apply NoDup_app in Hnd as (_ & Hd & _). intros Hin.
    apply (Hd _ Hin). by left.
  - destruct (decide (next (current_page s) > limit (current_page s))) as [Hgt|Hgt].
    + destruct (mmap_pool s) as [|b pool]; [done|].
      apply Forall_cons in Hpool as ((Hb & _ & _ & Hout) & _).
      split; [lia|]. by apply Forall_app in Hout as (Hout & _).
    + split; [lia|]. intros Hin. rewrite Forall_forall in Hun.
      apply (Hun (next (current_page s))); [|lia].
      apply elem_of_app. by left.
Qed.

Lemma pool_page_ok_mono a cp cp' X X' b :
  pool_page_ok a cp X b →
  (page_free b cp → page_free b cp') →
  (∀ p, p ∈ X' → p ∈ X) →
  pool_page_ok a cp' X' b.
Proof.
  intros (Hb & HM & Hpf & Hout) Hcp HX. split; [done|]. split; [done|].
  split; [auto|]. rewrite Forall_forall in *. intros p Hp. apply Hout. auto.
Qed.

Lemma rando_map_add_arena a fuel ds sz us uv nf fs raw s t fl s' :
  arena_ok a s t fl → (size t < fuel)%nat →
  next (current_page s) + 2 * sizeof_RandoMapNode a < addr_modulus a →
  rando_map_add a fuel ds sz us uv nf fs raw s = Done tt s' →
  ∃ t' p,
    insert_tree p (new_entry a ds sz us uv nf fs raw) t = Some t' ∧
    arena_ok a s' t' (tail fl) ∧
    (p ∉ addrs t) ∧ (p ∉ tail fl) ∧
    (fl ≠ [] → head fl = Some p ∧ mmap_pool s' = mmap_pool s) ∧
    (next (current_page s') ≤ next (current_page s) + 2 * sizeof_RandoMapNode a ∨
     ∃ b, b ∈ mmap_pool s ∧
          next (current_page s') = b + 2 * sizeof_RandoMapNode a) ∧
    mmap_pool s' `suffix_of` mmap_pool s.
Proof.
  intros Hok Hfuel Hroom Hrun.
  pose proof (arena_ok_alloc_fresh _ _ _ _ Hok) as Hfresh.
  destruct Hok as (Hr & Hc & Hnd & Hn & Hun & Hpool & Hsep).
  destruct (sizeof_RandoMapNode_bounds a) as (Hsz & Hsz2 & HP & _).
  set (x := new_entry a ds sz us uv nf fs raw).
  destruct (rando_map_add_spec a fuel ds sz us uv nf fs raw s t Hr Hfresh Hfuel)
    as [[_ Hfat]|(p & s1 & Halloc & Hp0 & Hpt & H)]; [congruence|].
  fold x in H.
  destruct (insert_tree p x t) as [t'|] eqn:Hins; [|congruence].
  destruct H as (s'' & Hrun' & Hr' & (Hcp & Hfl' & Hpool') & Hag).
  assert (s'' = s') as -> by congruence. clear Hrun'.
  exists t', p. split; [done|].
  pose proof (insert_tree_addrs _ _ _ _ Hins) as Hperm.
  pose proof Hr as (_ & Hrep & _).
  destruct (decide (free_list s ≠ 0)) as [Hfl|Hfl].
  - (* the node comes off the free list *)
    rewrite alloc_node_free in Halloc by done. injection Halloc as <- <-.
    destruct (free_chain_cons _ _ _ Hc Hfl) as (rest & -> & Hrest).
    simpl in Hcp, Hfl', Hpool'. cbn [tail head].
    assert (wrap a (next (current_page s) + sizeof_RandoMapNode a)
            = next (current_page s) + sizeof_RandoMapNode a) as Hw
      by (apply wrap_small; lia).
    rewrite Hw in Hcp.
    assert (NoDup (addrs t' ++ rest)) as Hnd'.
    { rewrite Hperm. simpl. by rewrite Permutation_middle. }
    assert (free_list s ∉ rest) as Hnr.
    { apply NoDup_app in Hnd as (_ & _ & Hnd). by apply NoDup_cons in Hnd as (? & _). }
    assert (∀ q, q ∈ addrs t' ++ rest → q ∈ addrs t ++ free_list s :: rest) as Hsub.
    { intros q. rewrite Hperm, !elem_of_app, !elem_of_cons. tauto. }
    split; [|split; [done|]; split; [done|]; split; [|split]].
    + split; [done|]. split; [|split; [done|]; split; [|split; [|split]]].
      * rewrite Hfl'. simpl. eapply free_chain_agree; [|exact Hrest].
        intros q Hq. apply Hag. rewrite elem_of_cons. intros [->|Hin]; [done|].
        apply NoDup_app in Hnd as (_ & Hd & _). apply (Hd _ Hin). by right.
      * rewrite Hcp. simpl. lia.
      * rewrite Hcp. simpl. rewrite Forall_forall in *. intros q Hq.
        specialize (Hun q (Hsub q Hq)). lia.
      * rewrite Hpool'. simpl. eapply Forall_impl; [exact Hpool|].
        intros b Hb. eapply pool_page_ok_mono; [exact Hb| |exact Hsub].
        rewrite Hcp. unfold page_free. simpl. lia.
      * by rewrite Hpool'.
    + intros _. split; [done|]. by rewrite Hpool'.
    + left. rewrite Hcp. simpl. lia.
    + by rewrite Hpool'.
  - assert (free_list s = 0) as Hfl0 by (destruct (decide (free_list s = 0)); tauto).
    pose proof (free_chain_nil _ _ _ Hc Hfl0) as ->. cbn [tail].
    rewrite app_nil_r in *.
    destruct (decide (next (current_page s) > limit (current_page s))) as [Hgt|Hgt].
    + (* a fresh page *)
      rewrite alloc_node_page in Halloc by done.
      destruct (mmap_pool s) as [|b pool] eqn:Epool; [done|].
      injection Halloc as <- <-.
      simpl in Hcp, Hfl', Hpool', Hag.
      apply Forall_cons in Hpool as ((Hb & HbM & _ & Hbout) & Hpool).
      destruct Hsep as (Hbsep & Hsep).
      assert (wrap a (b + sizeof_RandoMapNode a) = b + sizeof_RandoMapNode a) as Hw1
        by (apply wrap_small; lia).
      assert (wrap a (b + sizeof_RandoMapNode a + sizeof_RandoMapNode a)
              = b + 2 * sizeof_RandoMapNode a) as Hw2
        by (rewrite wrap_small; lia).
      assert (wrap a (wrap a (b + PAGE_SIZE) - sizeof_RandoMapNode a)
              = b + PAGE_SIZE - sizeof_RandoMapNode a) as Hw3.
      { unfold wrap. rewrite Zminus_mod_idemp_l. apply Z.mod_small. lia. }
      rewrite Hw1, Hw2, Hw3 in Hcp.
      split; [|split; [done|]; split; [apply not_elem_of_nil|];
        split; [intros Hne; by destruct Hne|split]].
      * unfold arena_ok. rewrite !app_nil_r.
        split; [done|]. split; [rewrite Hfl'; exact Hfl0|].
        split; [|split; [|split; [|split]]].
        -- rewrite Hperm. apply NoDup_cons. split; [done|]. by destruct Hr as (_ & _ & ?).
        -- rewrite Hcp. simpl. lia.
        -- rewrite Hcp. simpl. rewrite Hperm. apply Forall_cons. split; [lia|].
           rewrite Forall_forall in *. intros q Hq. specialize (Hbout q Hq). lia.
        -- rewrite Hpool'. rewrite Forall_forall in *. intros b' Hb'.
           destruct (Hpool b' Hb') as (Hb'0 & Hb'M & _ & Hb'out).
           specialize (Hbsep b' Hb').
           split; [done|]. split; [done|]. split.
           { rewrite Hcp. unfold page_free. simpl. lia. }
           rewrite Hperm. apply Forall_cons. split; [lia|]. done.
        -- by rewrite Hpool'.
      * right. exists b. split; [by left|]. by rewrite Hcp.
      * rewrite Hpool'. by apply suffix_cons_r.
    + (* the next slot of the current page *)
      rewrite alloc_node_bump in Halloc by done. injection Halloc as <- <-.
      simpl in Hcp, Hfl', Hpool', Hag.
      assert (wrap a (next (current_page s) + sizeof_RandoMapNode a)
              = next (current_page s) + sizeof_RandoMapNode a) as Hw
        by (apply wrap_small; lia).
      rewrite Hw in Hcp.
      assert (wrap a (next (current_page s) + sizeof_RandoMapNode a
                      + sizeof_RandoMapNode a)
              = next (current_page s) + 2 * sizeof_RandoMapNode a) as Hw2
        by (rewrite wrap_small; lia).
      rewrite Hw2 in Hcp.
      split; [|split; [done|]; split; [apply not_elem_of_nil|];
        split; [intros Hne; by destruct Hne|split]].
      * unfold arena_ok. rewrite !app_nil_r.
        split; [done|]. split; [rewrite Hfl'; exact Hfl0|].
        split; [|split; [|split; [|split]]].
        -- rewrite Hperm. apply NoDup_cons. split; [done|]. by destruct Hr as (_ & _ & ?).
        -- rewrite Hcp. simpl. lia.
        -- rewrite Hcp. simpl. rewrite Hperm. apply Forall_cons. split; [lia|].
           rewrite Forall_forall in *. intros q Hq. specialize (Hun q Hq). lia.
        -- rewrite Hpool'. rewrite Forall_forall in *. intros b' Hb'.
           destruct (Hpool b' Hb') as (Hb'0 & Hb'M & Hpf & Hb'out).
           split; [done|]. split; [done|]. split.
           { rewrite Hcp. unfold page_free in *. simpl. lia. }
           rewrite Hperm. apply Forall_cons. split; [|done].
           unfold page_free in Hpf. lia.
        -- by rewrite Hpool'.
      * left. rewrite Hcp. simpl. lia.
      * by rewrite Hpool'.
Qed.

Lemma rando_map_delete_arena a fuel d s t fl s' :
  arena_ok a s t fl → (size t < fuel)%nat →
  rando_map_delete fuel d s = Done tt s' →
  ∃ v e t', delete_tree d t = Some (v, e, t') ∧
            arena_ok a s' t' (v :: fl) ∧
            current_page s' = current_page s ∧ mmap_pool s' = mmap_pool s.
Proof.
  intros (Hr & Hc & Hnd & Hn & Hun & Hpool & Hsep) Hfuel Hrun.
  pose proof (rando_map_delete_spec fuel d s t Hr Hfuel) as H.
  destruct (delete_tree d t) as [[[v e] t']|] eqn:Hdel; [|congruence].
  destruct H as (s'' & Hrun' & Hr' & Hv & Hfl' & Hcp & Hpool' & Hag).
  assert (s'' = s') as -> by congruence. clear Hrun'.
  exists v, e, t'. split; [done|]. split; [|done].
  destruct (delete_tree_items _ _ _ _ _ Hdel) as (_ & l1 & l2 & E1 & E2).
  assert (addrs t' ++ v :: fl ≡ₚ addrs t ++ fl) as Hperm.
  { unfold addrs. rewrite E1, E2, !fmap_app, fmap_cons. simpl.
    rewrite <- !app_assoc. simpl.
    by rewrite <- !Permutation_middle. }
  pose proof Hr as (_ & Hrep & _).
  assert (v ∈ addrs t) as Hvt.
  { unfold addrs. rewrite E1, fmap_app, fmap_cons, elem_of_app, elem_of_cons. tauto. }
  split; [done|]. split; [|split; [|split; [|split; [|split]]]].
  - simpl. split; [done|]. split; [by eapply rep_nonzero|].
    rewrite Hv. simpl. eapply free_chain_agree; [|exact Hc].
    intros q Hq. apply Hag. intros Hin.
    apply NoDup_app in Hnd as (_ & Hd & _). by apply (Hd _ Hin).
  - by rewrite Hperm.
  - by rewrite Hcp.
  - rewrite Hcp, Hperm. done.
  - rewrite Hpool', Hcp. eapply Forall_impl; [exact Hpool|].
    intros b Hb. eapply pool_page_ok_mono; [exact Hb|done|].
    intros p. by rewrite Hperm.
  - by rewrite Hpool'.
Qed.

Lemma rando_map_init_arena a s b pool :
  mmap_pool s = b :: pool → free_list s = 0 →
  Forall (λ b', 0 < b' ∧ b' + PAGE_SIZE ≤ addr_modulus a) (b :: pool) →
  pool_sep (b :: pool) →
  ∃ s', rando_map_init a s = Done tt s' ∧
        arena_ok a s' Leaf [] ∧
        rando_map_header s' = Some (mkHeader kMapVersion 0) ∧
        current_page s' =
          mkPage (b + sizeof_RandoMapHeader a) (b + PAGE_SIZE - sizeof_RandoMapNode a) ∧
        mmap_pool s' = pool ∧
        (∀ p, b ≤ p < b + PAGE_SIZE → nodes s' !! p = None) ∧
        (∀ p, ¬ (b ≤ p < b + PAGE_SIZE) → nodes s' !! p = nodes s !! p).
Proof.
  intros Epool Hfl Hall (Hbsep & Hsep).
  apply Forall_cons in Hall as ((Hb & HbM) & Hall).
  destruct (sizeof_RandoMapNode_bounds a) as (Hsz & Hsz2 & HP & Hh & Hh0).
  unfold rando_map_init, bind, alloc_map_page, get_state, put_state.
  rewrite Epool. cbn [current_page set_current_page set_nodes set_mmap_pool limit].
  assert (wrap a (b + sizeof_RandoMapHeader a) = b + sizeof_RandoMapHeader a) as ->
    by (apply wrap_small; lia).
  assert (wrap a (wrap a (b + PAGE_SIZE) - sizeof_RandoMapNode a)
          = b + PAGE_SIZE - sizeof_RandoMapNode a) as ->.
  { unfold wrap. rewrite Zminus_mod_idemp_l. apply Z.mod_small. lia. }
  eexists. split; [reflexivity|].
  split; [|split; [done|]; split; [done|]; split; [done|]; split].
  - unfold arena_ok. simpl.
    split; [|split; [done|]; split; [constructor|]; split; [lia|];
             split; [constructor|]; split; [|done]].
    + split; [by eexists|]. split; [done|]. constructor.
    + rewrite Forall_forall in *. intros b' Hb'.
      destruct (Hall b' Hb') as (? & ?). specialize (Hbsep b' Hb').
      split; [done|]. split; [done|]. split; [|constructor].
      unfold page_free. simpl. lia.
  - intros p Hp. simpl. unfold memset_page. apply map_lookup_filter_None.
    right. intros n _. simpl. tauto.
  - intros p Hp. simpl. by apply memset_page_lookup.
Qed.

Lemma rando_map_add_outcome a fuel ds sz us uv nf fs raw s t :
  represents s t → alloc_fresh s t → (size t < fuel)%nat →
  (∃ s', rando_map_add a fuel ds sz us uv nf fs raw s = Done tt s') ∨
  rando_map_add a fuel ds sz us uv nf fs raw s = Fatal "rando_map mmap failed" ∨
  rando_map_add a fuel ds sz us uv nf fs raw s = Fatal "overlapping rando map nodes".
Proof.
  intros Hr Hfresh Hfuel.
  destruct (rando_map_add_spec a fuel ds sz us uv nf fs raw s t Hr Hfresh Hfuel)
    as [[_ Hfat]|(p & s1 & _ & _ & _ & H)]; [tauto|].
  destruct (insert_tree p _ t); [|tauto].
  destruct H as (s' & Hrun & _). eauto.
Qed.

(** ** Insert and delete follow the same path *)

Lemma insert_tree_None_iff p x t :
  insert_tree p x t = None ↔ is_Some (delete_tree (e_start x) t).
Proof.
  induction t as [|l IHl q y r IHr]; simpl.
  - split; [done|]. by intros [? ?].
  - destruct (decide (e_start x < e_start y)).
    + transitivity (insert_tree p x l = None).
      { destruct (insert_tree p x l); split; done. }
      rewrite IHl.
      destruct (delete_tree (e_start x) l) as [[v l']|]; split; intros [? ?];
        done || by eexists.
    + destruct (decide (e_start x >= e_end y)).
      * transitivity (insert_tree p x r = None).
        { destruct (insert_tree p x r); split; done. }
        rewrite IHr.
        destruct (delete_tree (e_start x) r) as [[v r']|]; split; intros [? ?];
          done || by eexists.
      * split; [by eexists|done].
Qed.

Lemma items_split_unique (l1 l2 l1' l2' : list (Z * entry)) p x x' :
  NoDup ((l1 ++ (p, x) :: l2).*1) →
  l1 ++ (p, x) :: l2 = l1' ++ (p, x') :: l2' →
  l1 = l1' ∧ x = x' ∧ l2 = l2'.
Proof.
  revert l1'. induction l1 as [|[q y] l1 IH]; intros [|[q' y'] l1'] Hnd E;
    simpl in *.
  - by injection E as <- <-.
  - injection E as <- <- ->. apply NoDup_cons in Hnd as (Hn & _).
    exfalso. apply Hn. rewrite fmap_app, fmap_cons, elem_of_app, elem_of_cons.
    simpl. tauto.
  - injection E as -> -> <-. apply NoDup_cons in Hnd as (Hn & _).
    exfalso. apply Hn. rewrite fmap_app, fmap_cons, elem_of_app, elem_of_cons.
    simpl. tauto.
  - injection E as <- <- E. apply NoDup_cons in Hnd as (_ & Hnd).
    destruct (IH l1' Hnd E) as (-> & -> & ->). done.
Qed.

(** A non-empty interval that lies wholly before or wholly after each
    live interval is never refused. *)
Lemma insert_tree_disjoint_Some p x t :
  nonempty x →
  Forall (λ y, before y x ∨ before x y) (entries t) →
  is_Some (insert_tree p x t).
Proof.
  intros Hne Hall.
  destruct (insert_tree p x t) as [t'|] eqn:Hins; [by eexists|].
  apply insert_tree_None_iff in Hins as [[[v e] t'] Hdel].
  destruct (delete_tree_items _ _ _ _ _ Hdel) as ([Hc1 Hc2] & l1 & l2 & E1 & _).
  rewrite Forall_forall in Hall.
  assert (e ∈ entries t) as He.
  { unfold entries. rewrite E1, fmap_app, fmap_cons, elem_of_app, elem_of_cons.
    simpl. tauto. }
  unfold nonempty in Hne.
  destruct (Hall e He) as [[? ?]|[? ?]]; lia.
Qed.

(** ** Where the new node ends up *)

Lemma insert_tree_root p x t t' :
  insert_tree p x t = Some t' → heap t →
  (t = Leaf ∨ top_prio t < e_prio x →
   root_of t' = p ∧ top_prio t' = e_prio x) ∧
  (t ≠ Leaf → e_prio x ≤ top_prio t →
   root_of t' = root_of t ∧ top_prio t' = top_prio t).
Proof.
  revert t'. induction t as [|l IHl q y r IHr]; intros t' Hins Hh.
  { simpl in Hins. injection Hins as <-. by split. }
  destruct Hh as (Hhl & Hhr & Hl & Hr). simpl in Hins.
  destruct (decide (e_start x < e_start y)).
  - destruct (insert_tree p x l) as [l'|] eqn:Hl'; [|done].
    injection Hins as <-.
    destruct (IHl l' eq_refl Hhl) as (IH1 & IH2).
    destruct (insert_tree_Node _ _ _ _ Hl') as (a1 & a2 & a3 & a4 & ->).
    assert (l = Leaf ∨ l ≠ Leaf ∧ top_prio l ≤ e_prio y) as Hly.
    { destruct l; [by left|right; split; [done|exact Hl]]. }
    destruct (decide (e_prio x ≤ e_prio y)) as [Hle|Hgt].
    + assert (top_prio (Node a1 a2 a3 a4) ≤ e_prio y) as Htop.
      { destruct Hly as [->|[Hne Hly]].
        - destruct (IH1 ltac:(by left)) as (_ & ->). done.
        - destruct (decide (top_prio l < e_prio x)) as [Hc|Hc].
          + destruct (IH1 ltac:(by right)) as (_ & ->). done.
          + destruct (IH2 Hne ltac:(lia)) as (_ & ->). done. }
      rewrite decide_False by lia. simpl.
      split; [intros [?|?]; [done|lia]|done].
    + assert (l = Leaf ∨ top_prio l < e_prio x) as Hc.
      { destruct Hly as [->|[_ ?]]; [by left|right; lia]. }
      destruct (IH1 Hc) as (Hroot & Htop). simpl in Htop.
      rewrite decide_True by (simpl; lia).
      unfold rot_left_son. simpl in *. split; [done|]. intros _ ?. lia.
  - destruct (decide (e_start x >= e_end y)); [|done].
    destruct (insert_tree p x r) as [r'|] eqn:Hr'; [|done].
    injection Hins as <-.
    destruct (IHr r' eq_refl Hhr) as (IH1 & IH2).
    destruct (insert_tree_Node _ _ _ _ Hr') as (a1 & a2 & a3 & a4 & ->).
    assert (r = Leaf ∨ r ≠ Leaf ∧ top_prio r ≤ e_prio y) as Hry.
    { destruct r; [by left|right; split; [done|exact Hr]]. }
    destruct (decide (e_prio x ≤ e_prio y)) as [Hle|Hgt].
    + assert (top_prio (Node a1 a2 a3 a4) ≤ e_prio y) as Htop.
      { destruct Hry as [->|[Hne Hry]].
        - destruct (IH1 ltac:(by left)) as (_ & ->). done.
        - destruct (decide (top_prio r < e_prio x)) as [Hc|Hc].
          + destruct (IH1 ltac:(by right)) as (_ & ->). done.
          + destruct (IH2 Hne ltac:(lia)) as (_ & ->). done. }
      rewrite decide_False by lia. simpl.
      split; [intros [?|?]; [done|lia]|done].
    + assert (r = Leaf ∨ top_prio r < e_prio x) as Hc.
      { destruct Hry as [->|[_ ?]]; [by left|right; lia]. }
      destruct (IH1 Hc) as (Hroot & Htop). simpl in Htop.
      rewrite decide_True by (simpl; lia).
      unfold rot_right_son. simpl in *. split; [done|]. intros _ ?. lia.
Qed.

Lemma put_slot_twice ptr v w u s :
  slot_holds ptr u s → put_slot ptr v (put_slot ptr w s) = put_slot ptr v s.
Proof.
  destruct ptr as [|o|o]; simpl.
  - intros (h & Hh & _). unfold put_slot. simpl. rewrite Hh. simpl. done.
  - intros (Ho & n & Hn & _). rewrite (put_slot_LeftOf _ _ _ _ Ho Hn).
    rewrite (put_slot_LeftOf o v _ (set_left w n) Ho) by apply lookup_insert_eq.
    rewrite (put_slot_LeftOf _ _ _ _ Ho Hn). simpl.
    by rewrite insert_insert_eq.
  - intros (Ho & n & Hn & _). rewrite (put_slot_RightOf _ _ _ _ Ho Hn).
    rewrite (put_slot_RightOf o v _ (set_right w n) Ho) by apply lookup_insert_eq.
    rewrite (put_slot_RightOf _ _ _ _ Ho Hn). simpl.
    by rewrite insert_insert_eq.
Qed.

(** ** The lines of the POT map *)

Lemma pot_lookup_sound content soname i :
  read_pot_map_loop (S (length content)) content 0 0 ∅ !! soname = Some i →
  split_lines content !! i = Some soname.
Proof.
  rewrite read_lookup.
  destruct (list_find _ _) as [[j x]|] eqn:Hfind; [|done].
  intros [= <-]. apply list_find_Some in Hfind as (Hj & -> & _).
  apply reverse_lookup_Some in Hj as (Hj & Hlen).
  by replace (length (split_lines content) - 1 - j)%nat
    with (length (split_lines content) - S j)%nat by lia.
Qed.

Lemma get_pot_index_first kErr content soname :
  (get_pot_index kErr (Some content) soname g_pot_map).1 =
    match read_pot_map_loop (S (length content)) content 0 0 ∅ !! soname with
    | Some i => Z.of_nat i
    | None => kErr
    end.
Proof. reflexivity. Qed.

Lemma split_lines_newline_free s l :
  l ∈ split_lines s → newline ∉ l.
Proof.
  revert l. induction s as [|c rest IH]; intros l; simpl.
  - rewrite list_elem_of_singleton. intros ->. apply not_elem_of_nil.
  - destruct (decide (c = newline)) as [->|Hc].
    + rewrite elem_of_cons. intros [->|Hl]; [apply not_elem_of_nil|by apply IH].
    + destruct (split_lines rest) as [|l0 ls] eqn:E.
      * rewrite list_elem_of_singleton. intros ->.
        rewrite elem_of_cons, elem_of_nil. intros [?|[]]. by subst.
      * rewrite elem_of_cons. intros [->|Hl].
        -- rewrite elem_of_cons. intros [?|Hin]; [by subst|].
           apply (IH l0); [by left|done].
        -- apply IH. by right.
Qed.

Lemma split_lines_nonempty s : split_lines s ≠ [].
Proof.
  destruct s as [|c rest]; simpl; [done|].
  destruct (decide (c = newline)); [done|]. by destruct (split_lines rest).
Qed.

Lemma split_lines_snoc_newline s :
  split_lines (s ++ [newline]) = split_lines s ++ [[]].
Proof.
  induction s as [|c rest IH].
  - by vm_compute.
  - simpl. destruct (decide (c = newline)); [by rewrite IH|].
    rewrite IH. pose proof (split_lines_nonempty rest).
    by destruct (split_lines rest).
Qed.

(** ** The example registries *)

Ltac solve_decide := refine (bool_decide_unpack _ _); vm_compute; exact I.

Ltac solve_represents :=
  split; [eexists; split; vm_compute; reflexivity|];
  split; [vm_compute; repeat split; discriminate|];
  refine (bool_decide_unpack _ _); vm_compute; exact I.

Lemma ex_boot_represents : represents ex_boot Leaf.
Proof. solve_represents. Qed.

Lemma ex_one_represents : represents ex_one ex_one_tree.
Proof. solve_represents. Qed.

Lemma ex_two_represents : represents ex_two ex_two_tree.
Proof. solve_represents. Qed.

(** * Part IV: the claims *)

(** ** C1: overlapping registrations *)

(** C1, the code at the failing input.  The insert of [0x800, 0x2000)
    into the registry holding [0x1000, 0x1400) does not reach the fatal
    path: it returns, and the tree then holds two live nodes whose
    intervals overlap. *)
Lemma overlapping_insert_accepted :
  represents ex_one ex_one_tree ∧
  ex_overlap = Done tt (state_of ex_overlap) ∧
  represents (state_of ex_overlap) ex_overlap_tree ∧
  overlap ex_entry_overlap ex_entry1.
Proof.
  split; [solve_represents|].
  split; [vm_compute; reflexivity|].
  split; [solve_represents|].
  exists 0x1000. split; split; vm_compute; congruence.
Qed.

(** What the accepted overlap does to lookups: the node of
    [0x800, 0x2000), original start 0xC000, is in the tree with the fields
    it was given, but the lookup of 0x1800, an address of the interval,
    ends at a null link, and the lookup of 0x1200 reaches the other
    node. *)
Lemma lookup_misses_inserted_interval :
  ex_overlap = Done tt (state_of ex_overlap) ∧
  represents (state_of ex_overlap) ex_overlap_tree ∧
  (0x100a0, ex_entry_overlap) ∈ items ex_overlap_tree ∧
  contains ex_entry_overlap 0x1800 ∧
  contains ex_entry_overlap 0x1200 ∧
  rando_map_find 3 0x1800 (state_of ex_overlap) = Done 0 (state_of ex_overlap) ∧
  rando_map_find 3 0x1200 (state_of ex_overlap) = Done 0x10010 (state_of ex_overlap).
Proof.
  split; [vm_compute; reflexivity|].
  split; [solve_represents|].
  split; [vm_compute; repeat constructor|].
  split; [split; vm_compute; congruence|].
  split; [split; vm_compute; congruence|].
  split; vm_compute; reflexivity.
Qed.

(** ** C2: the address sampler *)

(** C2.  [get_random_address] returns the first draw that is not below
    [min], reduced modulo [range] and moved up by [RAND_ADDR_LOW], having
    rejected every draw before it; the address lies in
    [RAND_ADDR_LOW, RAND_ADDR_HIGH), and the call does return once a drawn
    value is accepted.  [min] equals [2^W mod range], the accepted values
    [min, 2^W) are [(2^W - min) / range] times [range] many, and each
    address of the window is returned for exactly [(2^W - min) / range]
    of the full-width values, the same number for every address: no
    address is favoured. *)
Theorem sampler_unbiased a draws addr :
  RAND_ADDR_LOW a ≤ addr < RAND_ADDR_HIGH a →
  (∀ x, get_random_address a draws = Some x ↔
        ∃ pre v post, draws = pre ++ v :: post ∧
                      Forall (λ r, r < sampler_min a) pre ∧ sampler_min a ≤ v ∧
                      x = RAND_ADDR_LOW a + v mod sampler_range a) ∧
  (∀ x, get_random_address a draws = Some x →
        RAND_ADDR_LOW a ≤ x < RAND_ADDR_HIGH a) ∧
  (Exists (λ r, sampler_min a ≤ r) draws → is_Some (get_random_address a draws)) ∧
  sampler_range a = RAND_ADDR_HIGH a - RAND_ADDR_LOW a ∧
  sampler_min a = addr_modulus a mod sampler_range a ∧
  addr_modulus a - sampler_min a = sampler_classes a * sampler_range a ∧
  0 < sampler_classes a ∧
  (∀ v, 0 ≤ v < addr_modulus a ∧ get_random_address a [v] = Some addr ↔
        v ∈ preimages a addr) ∧
  (∀ v, sampler_min a ≤ v < addr_modulus a ∧ address_of_draw a v = addr ↔
        v ∈ preimages a addr) ∧
  NoDup (preimages a addr) ∧
  length (preimages a addr) = Z.to_nat (sampler_classes a).
Proof.
  intros Haddr.
  destruct (sampler_constants a) as (Hr & Hre & Hl & Hh & Hmin & Hk & Hsplit).
  assert (∀ v, sampler_min a ≤ v < addr_modulus a ∧ address_of_draw a v = addr ↔
               v ∈ preimages a addr) as Hpre.
  { intros v. unfold preimages. rewrite list_elem_of_fmap.
    setoid_rewrite elem_of_seqZ.
    destruct (address_of_draw_range a v) as (_ & ->).
    set (R := sampler_range a) in *. set (K := sampler_classes a) in *.
    set (m := sampler_min a) in *. set (r := addr - RAND_ADDR_LOW a).
    assert (0 ≤ r < R) as Hrr by (unfold r; lia).
    split.
    + intros ((Hv1 & Hv2) & Hv).
      assert (v mod R = r) as Hmod by (unfold r; lia).
      pose proof (Z.div_mod v R ltac:(lia)) as Hdm. rewrite Hmod in Hdm.
      assert (0 ≤ v / R) as Hq by (apply Z.div_pos; lia).
      generalize dependent (v / R). intros q Hdm Hq.
      case_decide.
      * exists (q - 1). split; [lia|]. nia.
      * exists q. split; [lia|]. nia.
    + intros (k & -> & Hk1). case_decide.
      * rewrite Z.mod_add by lia. rewrite (Z.mod_small r R) by lia.
        unfold r. split; [|lia]. nia.
      * rewrite Z.mod_add by lia. rewrite (Z.mod_small r R) by lia.
        unfold r. split; [|lia]. nia. }
  split; [intros x; apply get_random_address_spec|].
  split.
  { intros x. unfold get_random_address.
    destruct (first_accepted _ _) as [v|]; [|done].
    intros [= <-]. apply address_of_draw_range. }
  split.
  { intros Hex. unfold get_random_address.
    destruct (first_accepted_Exists _ _ Hex) as (v & ->). eauto. }
  split; [done|]. split.
  { apply (Z.mod_unique_pos (addr_modulus a) _ (sampler_classes a)); [lia|].
    rewrite Hsplit at 1. ring. }
  split; [lia|]. split; [done|]. split.
  { intros v. rewrite get_random_address_single, <- Hpre. split.
    - intros ((? & ?) & ? & ?). split; [lia|done].
    - intros ((? & ?) & ?). split; [lia|]. split; [lia|done]. }
  split; [exact Hpre|]. split.
  - unfold preimages. apply NoDup_fmap_2_strong; [|apply NoDup_seqZ].
    intros k1 k2 _ _ Heq. nia.
  - unfold preimages. by rewrite length_fmap, length_seqZ.
Qed.

Lemma sampler_unbiased_witness :
  (∀ x, get_random_address arm [0x3ffffff; 0xfffffffe] = Some x ↔
        ∃ pre v post, [0x3ffffff; 0xfffffffe] = pre ++ v :: post ∧
                      Forall (λ r, r < sampler_min arm) pre ∧ sampler_min arm ≤ v ∧
                      x = RAND_ADDR_LOW arm + v mod sampler_range arm) ∧
  (∀ x, get_random_address arm [0x3ffffff; 0xfffffffe] = Some x →
        RAND_ADDR_LOW arm ≤ x < RAND_ADDR_HIGH arm) ∧
  (Exists (λ r, sampler_min arm ≤ r) [0x3ffffff; 0xfffffffe] →
   is_Some (get_random_address arm [0x3ffffff; 0xfffffffe])) ∧
  sampler_range arm = RAND_ADDR_HIGH arm - RAND_ADDR_LOW arm ∧
  sampler_min arm = addr_modulus arm mod sampler_range arm ∧
  addr_modulus arm - sampler_min arm = sampler_classes arm * sampler_range arm ∧
  0 < sampler_classes arm ∧
  (∀ v, 0 ≤ v < addr_modulus arm ∧ get_random_address arm [v] = Some 0xb0000005 ↔
        v ∈ preimages arm 0xb0000005) ∧
  (∀ v, sampler_min arm ≤ v < addr_modulus arm ∧ address_of_draw arm v = 0xb0000005 ↔
        v ∈ preimages arm 0xb0000005) ∧
  NoDup (preimages arm 0xb0000005) ∧
  length (preimages arm 0xb0000005) = Z.to_nat (sampler_classes arm).
Proof.
  apply (sampler_unbiased arm [0x3ffffff; 0xfffffffe] 0xb0000005).
  vm_compute. split; congruence.
Defined.

(** ** C3: the treap invariants *)

(** C3, as amended.  On a tree in heap order, [map_tree_insert_node],
    called as [rando_map_add] calls it with a filled-in node that is not
    yet in the tree, and [map_tree_delete_node], called for any address,
    leave a tree in heap order.  Delete keeps the in-order traversal of
    [div_start] strictly ascending.  Insert keeps it ascending, and
    strictly ascending when every interval already in the tree is
    non-empty. *)
Theorem insert_delete_preserve_treap fuel s t d :
  represents s t → heap t → (size t < fuel)%nat →
  (∀ node x, node ≠ 0 → (node ∉ addrs t) →
     map_tree_insert_node fuel node RootSlot (pending node x s) =
       Fatal "overlapping rando map nodes" ∨
     ∃ s' t', map_tree_insert_node fuel node RootSlot (pending node x s) =
                Done tt s' ∧
              represents s' t' ∧ heap t' ∧
              (bst_weak t → bst_weak t') ∧
              (bst t → Forall nonempty (entries t) → bst t')) ∧
  (map_tree_delete_node fuel d RootSlot s =
     Fatal "trying to delete inexistent node" ∨
   ∃ v s' t', map_tree_delete_node fuel d RootSlot s = Done v s' ∧
              represents s' t' ∧ heap t' ∧ (bst t → bst t')).
Proof.
  intros Hr Hh Hfuel. split.
  - intros node x Hnode Hfresh.
    destruct (represents_pending node x s t Hr Hfresh) as (Hr0 & Hmem).
    pose proof (insert_at_root fuel node x _ t Hr0 Hnode Hfresh Hmem Hfuel) as H.
    destruct (insert_tree node x t) as [t'|] eqn:Hins; [|by left].
    destruct H as (s' & Hrun & Hr' & _). right. exists s', t'.
    split; [done|]. split; [done|].
    split; [by apply (insert_tree_heap _ _ _ _ Hins)|]. split.
    + rewrite !bst_weak_sorted_by. intros Hs.
      apply (insert_tree_sorted Z.le _ ltac:(intros; lia) _ _ _ _ Hins Hs).
      apply Forall_forall. by intros.
    + rewrite !bst_sorted_by. intros Hs Hne.
      apply (insert_tree_sorted Z.lt _ ltac:(intros; lia) _ _ _ _ Hins Hs).
      apply Forall_forall. intros [p e] Hin Hend _. unfold key. simpl in *.
      rewrite Forall_forall in Hne.
      assert (nonempty e) as He.
      { apply Hne. by apply (list_elem_of_fmap_2 snd _ _ Hin). }
      unfold nonempty in He. lia.
  - pose proof (delete_at_root fuel d s t Hr Hfuel) as H.
    destruct (delete_tree d t) as [[[v e] t']|] eqn:Hdel; [|by left].
    destruct H as (s' & _ & _ & Hrun & Hr' & _). right. exists v, s', t'.
    split; [done|]. split; [done|].
    split; [by apply (delete_tree_heap _ _ _ _ _ Hdel)|].
    rewrite !bst_sorted_by. by apply (delete_tree_sorted _ _ _ _ _ _ Hdel).
Qed.

Lemma insert_delete_preserve_treap_witness :
  (map_tree_insert_node 4 0x10250 RootSlot (pending 0x10250 ex_entry3 ex_three) =
     Fatal "overlapping rando map nodes" ∨
   ∃ s' t', map_tree_insert_node 4 0x10250 RootSlot
              (pending 0x10250 ex_entry3 ex_three) = Done tt s' ∧
            represents s' t' ∧ heap t' ∧
            (bst_weak ex_three_tree → bst_weak t') ∧
            (bst ex_three_tree → Forall nonempty (entries ex_three_tree) → bst t')) ∧
  (map_tree_delete_node 4 0x2000 RootSlot ex_three =
     Fatal "trying to delete inexistent node" ∨
   ∃ v s' t', map_tree_delete_node 4 0x2000 RootSlot ex_three = Done v s' ∧
              represents s' t' ∧ heap t' ∧ (bst ex_three_tree → bst t')).
Proof.
  destruct (insert_delete_preserve_treap 4 ex_three ex_three_tree 0x2000)
    as [Hins Hdel].
  - solve_represents.
  - vm_compute. repeat split; discriminate.
  - simpl. lia.
  - split; [|exact Hdel].
    apply (Hins 0x10250 ex_entry3); [discriminate|solve_decide].
Defined.

(** C3, counterexample.  The one-node tree holding [5, 5) satisfies both
    invariants; inserting a node for [5, 6) returns normally and leaves the
    in-order traversal 5, 5, which is not strictly ascending. *)
Lemma insert_breaks_strict_order :
  represents empty_interval_state empty_interval_tree ∧
  bst empty_interval_tree ∧ heap empty_interval_tree ∧
  map_tree_insert_node 2 0x100a0 RootSlot empty_interval_state =
    Done tt (state_of (map_tree_insert_node 2 0x100a0 RootSlot empty_interval_state)) ∧
  represents (state_of (map_tree_insert_node 2 0x100a0 RootSlot empty_interval_state))
             empty_interval_tree' ∧
  ¬ bst empty_interval_tree'.
Proof.
  split; [solve_represents|].
  split; [vm_compute; repeat constructor|].
  split; [vm_compute; tauto|].
  split; [vm_compute; reflexivity|].
  split; [solve_represents|].
  intros H. apply (bool_decide_pack _) in H. vm_compute in H. exact H.
Qed.

(** ** C4: delete *)




(** ** C5: round trip *)




(** ** C6: arena consumption *)

(** C6, the code at the failing inputs.  With an empty free list one
    [rando_map_add] moves the bump pointer of the current page forward by
    two nodes, not one: [alloc_node] advances it and [rando_map_add]
    advances it again.  With a node on the free list, [rando_map_add]
    takes that node and still moves the bump pointer forward by one
    node. *)
Lemma add_advances_bump_pointer_again :
  (free_list ex_boot = 0 ∧
   next (current_page ex_boot) = 0x10010 ∧
   next (current_page ex_one) = 0x10010 + 2 * sizeof_RandoMapNode aarch64) ∧
  (free_list ex_freed = 0x10010 ∧
   next (current_page ex_freed) = 0x100a0 ∧
   represents ex_reused (Node Leaf 0x10010 ex_entry2 Leaf) ∧
   free_list ex_reused = 0 ∧
   next (current_page ex_reused) = 0x100a0 + sizeof_RandoMapNode aarch64).
Proof.
  split; [by vm_compute|].
  split; [by vm_compute|]. split; [by vm_compute|].
  split; [solve_represents|]. by vm_compute.
Qed.

(** ** C7: priorities *)

(** C7, as amended.  The priority a returning [rando_map_add] gives the
    new node is the value [arc4random_uniform(UINT32_MAX)] returns for the
    32-bit word it accepts: it lies in [0, 2^32 - 2], and the draw is
    uniform over that range, every value of it being returned for exactly
    one of the accepted words (the word itself, and [2^32 - 1] for
    zero). *)
Theorem new_node_priority a fuel ds sz us uv nf fs raw s t s' :
  represents s t → alloc_fresh s t → (size t < fuel)%nat →
  arc4random_accepts UINT32_MAX raw →
  rando_map_add a fuel ds sz us uv nf fs raw s = Done tt s' →
  ∃ t' p e,
    represents s' t' ∧ (p, e) ∈ items t' ∧ (p ∉ addrs t) ∧
    e_prio e = arc4random_uniform UINT32_MAX raw ∧
    0 ≤ e_prio e ≤ 2 ^ 32 - 2 ∧
    (raw ≤ 2 ^ 32 - 2 → e_prio e = raw) ∧
    (raw = 2 ^ 32 - 1 → e_prio e = 0) ∧
    (∀ k, 0 ≤ k ≤ 2 ^ 32 - 2 →
       ∃ r, arc4random_accepts UINT32_MAX r ∧
            arc4random_uniform UINT32_MAX r = k ∧
            ∀ r', arc4random_accepts UINT32_MAX r' →
                  arc4random_uniform UINT32_MAX r' = k → r' = r).
Proof.
  intros Hr Hfresh Hfuel Hraw Hrun.
  destruct (rando_map_add_links _ _ _ _ _ _ _ _ _ _ _ _ Hr Hfresh Hfuel Hrun)
    as (t' & p & Hr' & _ & Hpt & _ & Hin).
  exists t', p, (new_entry a ds sz us uv nf fs raw).
  split; [done|]. split; [done|]. split; [done|]. split; [done|].
  split; [apply arc4random_uniform_range|].
  assert (∀ r, arc4random_accepts UINT32_MAX r ↔ 1 ≤ r < 2 ^ 32) as Hacc.
  { intros r. unfold arc4random_accepts.
    by change (arc4random_min UINT32_MAX) with 1. }
  assert (∀ r, 1 ≤ r < 2 ^ 32 →
               arc4random_uniform UINT32_MAX r
               = if decide (r = 2 ^ 32 - 1) then 0 else r) as Hval.
  { intros r Hrr. unfold arc4random_uniform, UINT32_MAX.
    rewrite decide_False by lia. case_decide as Hc.
    - rewrite Hc. apply Z_mod_same_full.
    - apply Z.mod_small. lia. }
  destruct (Hacc raw) as [Hf _]. specialize (Hf Hraw). clear Hraw.
  rename Hf into Hraw. split; [|split].
  - intros Hle. simpl. rewrite (Hval raw Hraw). by rewrite decide_False by lia.
  - intros ->. simpl. by rewrite (Hval _ Hraw).
  - intros k Hk. exists (if decide (k = 0) then 2 ^ 32 - 1 else k).
    assert (1 ≤ (if decide (k = 0) then 2 ^ 32 - 1 else k) < 2 ^ 32) as Hin'
      by (case_decide; lia).
    split; [by apply Hacc|]. split.
    + rewrite (Hval _ Hin'). repeat case_decide; lia.
    + intros r' Hr1. destruct (Hacc r') as [Hf _]. specialize (Hf Hr1).
      rewrite (Hval _ Hf). repeat case_decide; lia.
Qed.

Lemma new_node_priority_witness :
  ∃ t' p e,
    represents ex_one t' ∧ (p, e) ∈ items t' ∧ (p ∉ addrs Leaf) ∧
    e_prio e = arc4random_uniform UINT32_MAX 700 ∧
    0 ≤ e_prio e ≤ 2 ^ 32 - 2 ∧
    (700 ≤ 2 ^ 32 - 2 → e_prio e = 700) ∧
    (700 = 2 ^ 32 - 1 → e_prio e = 0) ∧
    (∀ k, 0 ≤ k ≤ 2 ^ 32 - 2 →
       ∃ r, arc4random_accepts UINT32_MAX r ∧
            arc4random_uniform UINT32_MAX r = k ∧
            ∀ r', arc4random_accepts UINT32_MAX r' →
                  arc4random_uniform UINT32_MAX r' = k → r' = r).
Proof.
  apply (new_node_priority aarch64 4 0x1000 0x400 0x9000 0x9000 3 0x7000 700
           ex_boot Leaf ex_one).
  - solve_represents.
  - solve_decide.
  - simpl. lia.
  - vm_compute. split; [discriminate|reflexivity].
  - vm_compute. reflexivity.
Defined.

(** C7, counterexample.  Whatever the random stream delivers, the node
    that [rando_map_add] creates in the freshly initialised registry never
    has the priority 2^32 - 1. *)
Lemma priority_never_uint32_max :
  ¬ ∃ raw s' t' p e,
      rando_map_add aarch64 4 0x1000 0x400 0x9000 0x9000 3 0x7000 raw ex_boot
        = Done tt s' ∧
      represents s' t' ∧ (p, e) ∈ items t' ∧ e_prio e = 2 ^ 32 - 1.
Proof.
  intros (raw & s' & t' & p & e & Hrun & Hr' & Hin & Hprio).
  assert (alloc_fresh ex_boot Leaf) as Hfresh by solve_decide.
  assert (size Leaf < 4)%nat as Hfuel by (simpl; lia).
  destruct (rando_map_add_links _ _ _ _ _ _ _ _ _ _ _ _
              ex_boot_represents Hfresh Hfuel Hrun)
    as (t'' & q & Hr'' & _ & _ & Hins & _).
  assert (t' = t'') as -> by (eapply represents_unique; eauto).
  simpl in Hins. injection Hins as <-. simpl in Hin.
  apply list_elem_of_singleton in Hin. injection Hin as -> ->.
  simpl in Hprio.
  pose proof (arc4random_uniform_range raw). lia.
Qed.

(** ** C8: termination *)

(** C8.  On every finite tree (whether or not it is a search tree) the
    recursions of [map_tree_insert_node] and [map_tree_delete_node] come to
    an end: with a recursion budget above the number of nodes they never
    run out of it, but return or reach the fatal path.  This holds for the
    insert as [rando_map_add] calls it, with a filled-in node that is not
    yet in the tree, and for the delete of any address.  In particular,
    when the node in the root slot contains the address, whatever sons it
    has, the delete recursion that rotates it down returns, with that node
    taken out and its two subtrees joined by the rotations. *)
Theorem tree_operations_terminate fuel s t d :
  represents s t → (size t < fuel)%nat →
  (∀ node x, node ≠ 0 → (node ∉ addrs t) →
     (∃ s', map_tree_insert_node fuel node RootSlot (pending node x s) =
              Done tt s') ∨
     map_tree_insert_node fuel node RootSlot (pending node x s) =
       Fatal "overlapping rando map nodes") ∧
  ((∃ v s', map_tree_delete_node fuel d RootSlot s = Done v s') ∨
   map_tree_delete_node fuel d RootSlot s =
     Fatal "trying to delete inexistent node") ∧
  (∀ l q y r, t = Node l q y r → e_start y ≤ d < e_end y →
     ∃ s', map_tree_delete_node fuel d RootSlot s = Done q s' ∧
           represents s' (merge l r)).
Proof.
  intros Hr Hfuel. split; [|split].
  - intros node x Hnode Hfresh.
    destruct (represents_pending node x s t Hr Hfresh) as (Hr0 & Hmem).
    pose proof (insert_at_root fuel node x _ t Hr0 Hnode Hfresh Hmem Hfuel) as H.
    destruct (insert_tree node x t); [|by right].
    destruct H as (s' & Hrun & _). left. eauto.
  - pose proof (delete_at_root fuel d s t Hr Hfuel) as H.
    destruct (delete_tree d t) as [[[v e] t']|]; [|by right].
    destruct H as (s' & _ & _ & Hrun & _). left. eauto.
  - intros l q y r -> [Hd1 Hd2].
    pose proof (delete_at_root fuel d s _ Hr Hfuel) as H. simpl in H.
    rewrite decide_False in H by lia. rewrite decide_False in H by lia.
    destruct H as (s' & _ & _ & Hrun & Hr' & _). eauto.
Qed.

Lemma tree_operations_terminate_witness :
  ((∃ s', map_tree_insert_node 4 0x10250 RootSlot
            (pending 0x10250 ex_entry3 ex_three) = Done tt s') ∨
   map_tree_insert_node 4 0x10250 RootSlot (pending 0x10250 ex_entry3 ex_three) =
     Fatal "overlapping rando map nodes") ∧
  ((∃ v s', map_tree_delete_node 4 0x2000 RootSlot ex_three = Done v s') ∨
   map_tree_delete_node 4 0x2000 RootSlot ex_three =
     Fatal "trying to delete inexistent node") ∧
  (∃ s', map_tree_delete_node 4 0x2000 RootSlot ex_three = Done 0x100a0 s' ∧
         represents s' (merge (Node Leaf 0x10010 ex_entry1 Leaf)
                              (Node Leaf 0x10130 ex_entry4 Leaf))).
Proof.
  destruct (tree_operations_terminate 4 ex_three ex_three_tree 0x2000)
    as (Hins & Hdel & Hroot).
  - solve_represents.
  - simpl. lia.
  - split; [|split; [exact Hdel|]].
    + apply (Hins 0x10250 ex_entry3); [discriminate|solve_decide].
    + apply (Hroot (Node Leaf 0x10010 ex_entry1 Leaf) 0x100a0 ex_entry2
               (Node Leaf 0x10130 ex_entry4 Leaf)); [reflexivity|].
      simpl. lia.
Defined.

(** ** C9: the POT index lookup *)

(** C9, as amended.  A call of [get_pot_index] on the uninitialised map
    always returns a value.  It returns [kPOTIndexError], and leaves the
    map uninitialised, when the map file cannot be read; it returns
    [kPOTIndexError] when no line of the file equals the soname; and when
    lines of the file equal the soname it returns the zero-based number of
    the last of them.  Once the file has been read, later calls answer
    from the map read then, whatever has become of the file. *)
Theorem get_pot_index_result kPOTIndexError file soname :
  match file with
  | None =>
      get_pot_index kPOTIndexError None soname g_pot_map =
        (kPOTIndexError, g_pot_map)
  | Some content =>
      let r := (get_pot_index kPOTIndexError (Some content) soname g_pot_map).1 in
      let m := (get_pot_index kPOTIndexError (Some content) soname g_pot_map).2 in
      (soname ∉ split_lines content → r = kPOTIndexError) ∧
      (∀ i, split_lines content !! i = Some soname →
            (∀ j, (i < j)%nat → split_lines content !! j ≠ Some soname) →
            r = Z.of_nat i) ∧
      (∀ file' soname',
         get_pot_index kPOTIndexError file' soname' m =
         get_pot_index kPOTIndexError (Some content) soname' g_pot_map)
  end.
Proof.
  destruct file as [content|]; [|done].
  unfold get_pot_index, find_pot_index, read_pot_map, g_pot_map.
  cbn [initialized_ pot_indices_ fst snd].
  rewrite read_lookup. split; [|split; [|done]].
  - intros Hnot.
    destruct (list_find _ _) as [[j x]|] eqn:Hfind; [|done].
    apply list_find_Some in Hfind as (Hj & -> & _).
    exfalso. apply Hnot. apply elem_of_reverse. by eapply list_elem_of_lookup_2.
  - intros i Hi Hlast.
    destruct (list_find_last _ _ _ Hi Hlast) as (x & ->).
    f_equal. apply lookup_lt_Some in Hi. lia.
Qed.

(** C9, counterexample.  In the file with the two lines "libc.so" and
    "libc.so", line 0 equals the soname, yet [get_pot_index] returns 1.
    And once the map has been read, a call made when the file can no
    longer be read does not return the sentinel but the index read
    before. *)
Lemma get_pot_index_duplicate_line :
  split_lines ex_twice !! 0%nat = Some ex_soname ∧
  (get_pot_index (-1) (Some ex_twice) ex_soname g_pot_map).1 = 1 ∧
  (get_pot_index (-1) None ex_soname
     (get_pot_index (-1) (Some ex_twice) ex_soname g_pot_map).2).1 = 1.
Proof. repeat split; vm_compute; reflexivity. Qed.

(** ** C10: zero-length registrations *)

(** C10, as amended.  When [rando_map_add] with [div_size = 0] returns,
    a node with [div_start == div_end] is linked into the tree and no
    address satisfies its containment test.  In every later state in which
    that node is live, a [rando_map_delete], for whatever address, never
    takes it out: the call either reaches the fatal path or returns; it
    reaches the fatal path whenever no other live interval contains the
    address; and when it returns it has taken out another node, one whose
    interval contains the address, and the zero-length node is still in
    the tree. *)
Theorem zero_length_registration a fuel ds us uv nf fs raw s t s' :
  represents s t → alloc_fresh s t → (size t < fuel)%nat →
  0 ≤ ds < addr_modulus a →
  rando_map_add a fuel ds 0 us uv nf fs raw s = Done tt s' →
  ∃ t' p e,
    represents s' t' ∧ (p, e) ∈ items t' ∧
    e_start e = ds ∧ e_end e = ds ∧
    (∀ addr, ¬ contains e addr) ∧
    ∀ fuel2 d s2 t2,
      represents s2 t2 → (p, e) ∈ items t2 → (size t2 < fuel2)%nat →
      (rando_map_delete fuel2 d s2 = Fatal "trying to delete inexistent node" ∨
       ∃ s3, rando_map_delete fuel2 d s2 = Done tt s3) ∧
      (Forall (λ i, i.1 ≠ p → ¬ contains i.2 d) (items t2) →
       rando_map_delete fuel2 d s2 = Fatal "trying to delete inexistent node") ∧
      (∀ s3, rando_map_delete fuel2 d s2 = Done tt s3 →
             ∃ t3 q y, represents s3 t3 ∧ (p, e) ∈ items t3 ∧
                       (q, y) ∈ items t2 ∧ q ≠ p ∧ contains y d ∧
                       (q ∉ addrs t3)).
Proof.
  intros Hr Hfresh Hfuel Hds Hrun.
  destruct (rando_map_add_links _ _ _ _ _ _ _ _ _ _ _ _ Hr Hfresh Hfuel Hrun)
    as (t' & p & Hr' & _ & _ & _ & Hin).
  set (e := new_entry a ds 0 us uv nf fs raw) in *.
  assert (e_start e = ds) as Hs by done.
  assert (e_end e = ds) as He.
  { simpl. unfold wrap. rewrite Z.add_0_r. by apply Z.mod_small. }
  exists t', p, e. split; [done|]. split; [done|]. split; [done|]. split; [done|].
  split. { intros addr [? ?]. lia. }
  intros fuel2 d s2 t2 Hr2 Hin2 Hfuel2. split; [|split].
  - pose proof (rando_map_delete_spec fuel2 d s2 t2 Hr2 Hfuel2) as H.
    destruct (delete_tree d t2) as [[[v y] t3]|]; [|by left].
    destruct H as (s3 & Hrun3 & _). right. eauto.
  - intros Hall.
    pose proof (rando_map_delete_spec fuel2 d s2 t2 Hr2 Hfuel2) as H.
    rewrite delete_tree_None in H; [done|].
    apply Forall_forall. intros y Hy Hc.
    apply list_elem_of_fmap in Hy as ([q y'] & -> & Hq). simpl in Hc.
    rewrite Forall_forall in Hall. apply (Hall _ Hq); [|done]. simpl.
    intros ->. pose proof Hr2 as (_ & _ & Hnd).
    assert (y' = e) as ->; [|destruct Hc; lia].
    clear -Hq Hin2 Hnd. unfold addrs in Hnd.
    apply list_elem_of_lookup in Hq as (i & Hi).
    apply list_elem_of_lookup in Hin2 as (j & Hj).
    assert (i = j) as ->; [|congruence].
    eapply NoDup_lookup; [exact Hnd| |].
    + rewrite list_lookup_fmap, Hi. reflexivity.
    + rewrite list_lookup_fmap, Hj. reflexivity.
  - intros s3 Hrun3. eapply delete_keeps_empty; eauto. lia.
Qed.

Lemma zero_length_registration_witness :
  ∃ t' p e,
    represents ex_zero t' ∧ (p, e) ∈ items t' ∧
    e_start e = 0x3000 ∧ e_end e = 0x3000 ∧
    (∀ addr, ¬ contains e addr) ∧
    ∀ fuel2 d s2 t2,
      represents s2 t2 → (p, e) ∈ items t2 → (size t2 < fuel2)%nat →
      (rando_map_delete fuel2 d s2 = Fatal "trying to delete inexistent node" ∨
       ∃ s3, rando_map_delete fuel2 d s2 = Done tt s3) ∧
      (Forall (λ i, i.1 ≠ p → ¬ contains i.2 d) (items t2) →
       rando_map_delete fuel2 d s2 = Fatal "trying to delete inexistent node") ∧
      (∀ s3, rando_map_delete fuel2 d s2 = Done tt s3 →
             ∃ t3 q y, represents s3 t3 ∧ (p, e) ∈ items t3 ∧
                       (q, y) ∈ items t2 ∧ q ≠ p ∧ contains y d ∧
                       (q ∉ addrs t3)).
Proof.
  apply (zero_length_registration aarch64 4 0x3000 0xD000 0xD000 0 0 500
           ex_one ex_one_tree ex_zero).
  - solve_represents.
  - solve_decide.
  - simpl. lia.
  - vm_compute. split; [discriminate|reflexivity].
  - vm_compute. reflexivity.
Defined.

(** C10, counterexample.  A zero-length registration whose address lies
    inside a live interval is not linked: the call is fatal.  And once the
    region [0x3000, 0x3100) is registered next to the zero-length
    registration at 0x3000, [rando_map_delete(0x3000)] does not reach the
    fatal path: it returns, having taken out the other node. *)
Lemma zero_length_delete_not_always_fatal :
  rando_map_add aarch64 4 0x1200 0 0xD000 0xD000 0 0 500 ex_one =
    Fatal "overlapping rando map nodes" ∧
  rando_map_add aarch64 4 0x3000 0 0xD000 0xD000 0 0 500 ex_one = Done tt ex_zero ∧
  represents ex_zero ex_zero_tree ∧
  rando_map_add aarch64 4 0x3000 0x100 0xE000 0xE000 0 0 600 ex_zero =
    Done tt ex_zero_twin ∧
  represents ex_zero_twin ex_zero_twin_tree ∧
  rando_map_delete 4 0x3000 ex_zero_twin =
    Done tt (state_of (rando_map_delete 4 0x3000 ex_zero_twin)) ∧
  represents (state_of (rando_map_delete 4 0x3000 ex_zero_twin)) ex_zero_tree.
Proof.
  split; [vm_compute; reflexivity|].
  split; [vm_compute; reflexivity|].
  split; [solve_represents|].
  split; [vm_compute; reflexivity|].
  split; [solve_represents|].
  split; [vm_compute; reflexivity|].
  solve_represents.
Qed.

(** * Part V: further properties of the code *)

Ltac solve_arena :=
  split; [solve_represents|]; refine (bool_decide_unpack _ _); vm_compute; exact I.

(** ** The arena *)

(** X1.  [rando_map_init] is fatal when no page can be mapped.  Otherwise
    it returns with an empty registry: the header carries [kMapVersion] and
    a null root, the page it sits in reads as zero, the first node slot
    lies right behind the header, and the arena is well formed.  Memory
    outside the page is not touched. *)
Theorem rando_map_init_empty_registry a s :
  free_list s = 0 →
  Forall (λ b, 0 < b ∧ b + PAGE_SIZE ≤ addr_modulus a) (mmap_pool s) →
  pool_sep (mmap_pool s) →
  match mmap_pool s with
  | [] => rando_map_init a s = Fatal "rando_map mmap failed"
  | b :: pool =>
      ∃ s', rando_map_init a s = Done tt s' ∧
            arena_ok a s' Leaf [] ∧
            rando_map_header s' = Some (mkHeader kMapVersion 0) ∧
            current_page s' =
              mkPage (b + sizeof_RandoMapHeader a)
                     (b + PAGE_SIZE - sizeof_RandoMapNode a) ∧
            mmap_pool s' = pool ∧
            (∀ p, b ≤ p < b + PAGE_SIZE → nodes s' !! p = None) ∧
            (∀ p, ¬ (b ≤ p < b + PAGE_SIZE) → nodes s' !! p = nodes s !! p)
  end.
Proof.
  intros Hfl Hall Hsep.
  destruct (mmap_pool s) as [|b pool] eqn:Epool.
  - unfold rando_map_init, bind, alloc_map_page. by rewrite Epool.
  - by apply rando_map_init_arena.
Qed.

Lemma rando_map_init_empty_registry_witness :
  ∃ s', rando_map_init aarch64 (initial_state [0x10000; 0x20000]) = Done tt s' ∧
        arena_ok aarch64 s' Leaf [] ∧
        rando_map_header s' = Some (mkHeader kMapVersion 0) ∧
        current_page s' =
          mkPage (0x10000 + sizeof_RandoMapHeader aarch64)
                 (0x10000 + PAGE_SIZE - sizeof_RandoMapNode aarch64) ∧
        mmap_pool s' = [0x20000] ∧
        (∀ p, 0x10000 ≤ p < 0x10000 + PAGE_SIZE → nodes s' !! p = None) ∧
        (∀ p, ¬ (0x10000 ≤ p < 0x10000 + PAGE_SIZE) →
              nodes s' !! p = nodes (initial_state [0x10000; 0x20000]) !! p).
Proof.
  apply (rando_map_init_empty_registry aarch64 (initial_state [0x10000; 0x20000])).
  - reflexivity.
  - solve_decide.
  - solve_decide.
Defined.

(** X2.  The allocator never hands out a node that is in use.  On a well
    formed arena, with the bump pointer not within two nodes of the top of
    the address space, the node of a returning [rando_map_add] is the head
    of the free list when there is one and a new slot otherwise; it is not
    null, was not live, and is not among the nodes left on the free list;
    and the arena is well formed afterwards. *)
Theorem rando_map_add_keeps_arena a fuel ds sz us uv nf fs raw s t fl s' :
  arena_ok a s t fl → (size t < fuel)%nat →
  next (current_page s) + 2 * sizeof_RandoMapNode a < addr_modulus a →
  rando_map_add a fuel ds sz us uv nf fs raw s = Done tt s' →
  ∃ t' p,
    arena_ok a s' t' (tail fl) ∧
    (p, new_entry a ds sz us uv nf fs raw) ∈ items t' ∧
    p ≠ 0 ∧ (p ∉ addrs t) ∧ (p ∉ tail fl) ∧
    (fl = [] ∨ head fl = Some p).
Proof.
  intros Hok Hfuel Hroom Hrun.
  destruct (rando_map_add_arena _ _ _ _ _ _ _ _ _ _ _ _ _ Hok Hfuel Hroom Hrun)
    as (t' & p & Hins & Hok' & Hpt & Hpf & Hhd & _).
  exists t', p. split; [done|].
  assert ((p, new_entry a ds sz us uv nf fs raw) ∈ items t') as Hin.
  { destruct (insert_tree_items _ _ _ _ Hins) as (l1 & l2 & _ & ->).
    rewrite elem_of_app, elem_of_cons. tauto. }
  split; [done|]. split.
  { destruct Hok' as ((_ & Hrep & _) & _). eapply rep_nonzero; [exact Hrep|].
    by apply (list_elem_of_fmap_2 fst _ _ Hin). }
  split; [done|]. split; [done|].
  destruct fl as [|q rest]; [by left|right]. by apply Hhd.
Qed.

Lemma rando_map_add_keeps_arena_witness :
  ∃ t' p,
    arena_ok aarch64 ex_reused t' (tail [0x10010]) ∧
    (p, new_entry aarch64 0x2000 0x400 0xA000 0xA000 5 0x7100 900) ∈ items t' ∧
    p ≠ 0 ∧ (p ∉ addrs Leaf) ∧ (p ∉ tail [0x10010]) ∧
    ([0x10010] = [] ∨ head [0x10010] = Some p).
Proof.
  apply (rando_map_add_keeps_arena aarch64 4 0x2000 0x400 0xA000 0xA000 5 0x7100 900
           ex_freed Leaf [0x10010] ex_reused).
  - solve_arena.
  - simpl. lia.
  - vm_compute. reflexivity.
  - vm_compute. reflexivity.
Defined.

(** X3.  A removal keeps the arena well formed: when [rando_map_delete]
    returns, the node it took out of the tree has become the head of the
    free list, in front of the nodes that were on it, and the bump pointer
    and the pages still to be mapped are as they were. *)
Theorem rando_map_delete_keeps_arena a fuel d s t fl s' :
  arena_ok a s t fl → (size t < fuel)%nat →
  rando_map_delete fuel d s = Done tt s' →
  ∃ v t',
    arena_ok a s' t' (v :: fl) ∧ v ∈ addrs t ∧ (v ∉ addrs t') ∧
    length (items t) = S (length (items t')) ∧
    current_page s' = current_page s ∧ mmap_pool s' = mmap_pool s.
Proof.
  intros Hok Hfuel Hrun.
  destruct (rando_map_delete_arena _ _ _ _ _ _ _ Hok Hfuel Hrun)
    as (v & e & t' & Hdel & Hok' & Hcp & Hpool).
  exists v, t'. split; [done|].
  destruct Hok as ((_ & _ & Hnd) & _).
  destruct (delete_tree_NoDup _ _ _ _ _ Hdel Hnd) as (_ & Hvt & Hvt' & _).
  split; [done|]. split; [done|]. split; [|done].
  destruct (delete_tree_items _ _ _ _ _ Hdel) as (_ & l1 & l2 & -> & ->).
  rewrite !length_app. simpl. lia.
Qed.

Lemma rando_map_delete_keeps_arena_witness :
  ∃ v t',
    arena_ok aarch64 ex_freed t' [v] ∧ v ∈ addrs ex_one_tree ∧ (v ∉ addrs t') ∧
    length (items ex_one_tree) = S (length (items t')) ∧
    current_page ex_freed = current_page ex_one ∧
    mmap_pool ex_freed = mmap_pool ex_one.
Proof.
  apply (rando_map_delete_keeps_arena aarch64 2 0x1000 ex_one ex_one_tree [] ex_freed).
  - solve_arena.
  - simpl. lia.
  - vm_compute. reflexivity.
Defined.

(** X4.  Whatever registrations and removals are made on a well formed
    registry that is heap-ordered with ascending [div_start], with room for
    them below the top of the address space, the calls never dereference a
    null pointer: either one of them ends the process with one of the three
    fatal messages, or all return and the registry is again well formed,
    heap-ordered and ascending. *)
Theorem registry_calls_safe a fuel ops s t fl :
  arena_ok a s t fl → heap t → bst_weak t →
  (size t + length ops < fuel)%nat →
  headroom a (length ops) s →
  (∃ s' t' fl', run_ops a fuel ops s = Done tt s' ∧
                arena_ok a s' t' fl' ∧ heap t' ∧ bst_weak t') ∨
  run_ops a fuel ops s = Fatal "rando_map mmap failed" ∨
  run_ops a fuel ops s = Fatal "overlapping rando map nodes" ∨
  run_ops a fuel ops s = Fatal "trying to delete inexistent node".
Proof.
  revert s t fl. induction ops as [|o ops IH]; intros s t fl Hok Hh Hb Hfuel Hroom.
  { left. exists s, t, fl. done. }
  destruct (sizeof_RandoMapNode_bounds a) as (Hsz & _).
  cbn [run_ops length] in *. pose proof Hok as (Hr & _).
  apply Forall_cons in Hroom as (Hnx & Hpl).
  assert (size t < fuel)%nat as Hfuel1 by lia.
  assert (next (current_page s) + 2 * sizeof_RandoMapNode a < addr_modulus a)
    as Hroom1 by nia.
  destruct o as [ds sz us uv nf fs raw|d]; cbn [run_op].
  - destruct (rando_map_add_outcome a fuel ds sz us uv nf fs raw s t Hr
                (arena_ok_alloc_fresh _ _ _ _ Hok) Hfuel1)
      as [(s1 & Hrun)|[Hf|Hf]].
    2,3: unfold bind; rewrite Hf; tauto.
    destruct (rando_map_add_arena _ _ _ _ _ _ _ _ _ _ _ _ _ Hok Hfuel1 Hroom1 Hrun)
      as (t1 & p & Hins & Hok1 & _ & _ & _ & Hnext & Hsuf).
    rewrite (bind_Done _ _ _ _ _ Hrun).
    apply (IH s1 t1 (tail fl)); [done| | | |].
    + by apply (insert_tree_heap _ _ _ _ Hins).
    + rewrite bst_weak_sorted_by in *.
      apply (insert_tree_sorted Z.le _ ltac:(intros; lia) _ _ _ _ Hins Hb).
      apply Forall_forall. by intros.
    + pose proof (insert_tree_size _ _ _ _ Hins). rewrite <- !size_items in *. lia.
    + apply Forall_cons. split.
      * destruct Hnext as [Hle|(b & Hbin & ->)]; [nia|].
        rewrite Forall_forall in Hpl. specialize (Hpl b Hbin). nia.
      * rewrite Forall_forall in *. intros b Hbin.
        assert (b ∈ mmap_pool s) as Hbin'.
        { destruct Hsuf as (k & ->). apply elem_of_app. by right. }
        specialize (Hpl b Hbin'). nia.
  - pose proof (rando_map_delete_spec fuel d s t Hr Hfuel1) as H.
    destruct (delete_tree d t) as [[[v e] t1]|] eqn:Hdel.
    2: unfold bind; rewrite H; tauto.
    destruct H as (s1 & Hrun & _).
    destruct (rando_map_delete_arena _ _ _ _ _ _ _ Hok Hfuel1 Hrun)
      as (v' & e' & t1' & Hdel' & Hok1 & Hcp & Hpool).
    rewrite Hdel in Hdel'. injection Hdel' as <- <- <-.
    rewrite (bind_Done _ _ _ _ _ Hrun).
    apply (IH s1 t1 (v :: fl)); [done| | | |].
    + by apply (delete_tree_heap _ _ _ _ _ Hdel).
    + rewrite bst_weak_sorted_by in *. by apply (delete_tree_sorted _ _ _ _ _ _ Hdel).
    + destruct (delete_tree_items _ _ _ _ _ Hdel) as (_ & l1 & l2 & E1 & E2).
      rewrite !size_items, E1, E2 in *. rewrite !length_app in *. simpl in *. lia.
    + unfold headroom. rewrite Hcp, Hpool. apply Forall_cons. split.
      * nia.
      * eapply Forall_impl; [exact Hpl|]. intros b Hbb. simpl in Hbb. nia.
Qed.

Lemma registry_calls_safe_witness :
  (∃ s' t' fl', run_ops aarch64 5 ex_ops ex_boot = Done tt s' ∧
                arena_ok aarch64 s' t' fl' ∧ heap t' ∧ bst_weak t') ∨
  run_ops aarch64 5 ex_ops ex_boot = Fatal "rando_map mmap failed" ∨
  run_ops aarch64 5 ex_ops ex_boot = Fatal "overlapping rando map nodes" ∨
  run_ops aarch64 5 ex_ops ex_boot = Fatal "trying to delete inexistent node".
Proof.
  apply (registry_calls_safe aarch64 5 ex_ops ex_boot Leaf []).
  - solve_arena.
  - exact I.
  - constructor.
  - simpl. lia.
  - solve_decide.
Defined.

(** X5.  Freed nodes are used up before any page is mapped: on a well
    formed arena, registrations no more numerous than the nodes on the free
    list, once they have all returned, have taken their nodes from the
    front of the free list, in order, have mapped no page, and have left
    the rest of the free list in place. *)
Theorem free_list_reuse a fuel ops s t fl s' :
  Forall is_add ops → arena_ok a s t fl →
  (length ops ≤ length fl)%nat →
  (size t + length ops < fuel)%nat →
  headroom a (length ops) s →
  run_ops a fuel ops s = Done tt s' →
  mmap_pool s' = mmap_pool s ∧
  ∃ t', arena_ok a s' t' (drop (length ops) fl) ∧
        addrs t' ≡ₚ take (length ops) fl ++ addrs t.
Proof.
  revert s t fl s'.
  induction ops as [|o ops IH]; intros s t fl s' Hadd Hok Hlen Hfuel Hroom Hrun.
  { injection Hrun as <-. split; [done|]. exists t. by rewrite drop_0. }
  apply Forall_cons in Hadd as (Ho & Hadd).
  destruct o as [ds sz us uv nf fs raw|d]; [|done].
  destruct (sizeof_RandoMapNode_bounds a) as (Hsz & _).
  cbn [run_ops run_op length] in *. pose proof Hok as (Hr & _).
  apply Forall_cons in Hroom as (Hnx & Hpl).
  assert (size t < fuel)%nat as Hfuel1 by lia.
  assert (next (current_page s) + 2 * sizeof_RandoMapNode a < addr_modulus a)
    as Hroom1 by nia.
  destruct (rando_map_add_outcome a fuel ds sz us uv nf fs raw s t Hr
              (arena_ok_alloc_fresh _ _ _ _ Hok) Hfuel1)
    as [(s1 & Hrun1)|[Hf|Hf]].
  2,3: unfold bind in Hrun; rewrite Hf in Hrun; done.
  rewrite (bind_Done _ _ _ _ _ Hrun1) in Hrun.
  destruct (rando_map_add_arena _ _ _ _ _ _ _ _ _ _ _ _ _ Hok Hfuel1 Hroom1 Hrun1)
    as (t1 & p & Hins & Hok1 & _ & _ & Hhd & Hnext & _).
  destruct fl as [|q rest]; [simpl in Hlen; lia|].
  destruct (Hhd ltac:(done)) as (Hq & Hpool1). injection Hq as ->.
  cbn [tail length] in *.
  assert (headroom a (length ops) s1) as Hroom2.
  { apply Forall_cons. split.
    - destruct Hnext as [Hle|(b & Hbin & ->)]; [nia|].
      rewrite Forall_forall in Hpl. specialize (Hpl b Hbin). nia.
    - rewrite Hpool1. eapply Forall_impl; [exact Hpl|].
      intros b Hb. simpl in Hb. nia. }
  assert (size t1 + length ops < fuel)%nat as Hfuel2.
  { pose proof (insert_tree_size _ _ _ _ Hins). rewrite <- !size_items in *. lia. }
  destruct (IH s1 t1 rest s' Hadd Hok1 ltac:(lia) Hfuel2 Hroom2 Hrun)
    as (Hpool' & t' & Hok' & Hperm).
  split; [by rewrite Hpool', Hpool1|].
  exists t'. split; [done|].
  rewrite Hperm, (insert_tree_addrs _ _ _ _ Hins). simpl.
  by rewrite Permutation_middle.
Qed.

Lemma free_list_reuse_witness :
  mmap_pool ex_reused = mmap_pool ex_freed ∧
  ∃ t', arena_ok aarch64 ex_reused t'
          (drop (length [Add 0x2000 0x400 0xA000 0xA000 5 0x7100 900]) [0x10010]) ∧
        addrs t' ≡ₚ
          take (length [Add 0x2000 0x400 0xA000 0xA000 5 0x7100 900]) [0x10010]
          ++ addrs Leaf.
Proof.
  apply (free_list_reuse aarch64 4 [Add 0x2000 0x400 0xA000 0xA000 5 0x7100 900]
           ex_freed Leaf [0x10010] ex_reused).
  - solve_decide.
  - solve_arena.
  - simpl. lia.
  - simpl. lia.
  - solve_decide.
  - vm_compute. reflexivity.
Defined.

(** ** Registrations and removals *)

(** X6.  Insert and delete descend by the same comparison: unless the
    allocator fails first, [rando_map_add] is refused with "overlapping
    rando map nodes" exactly when [rando_map_delete] of the new
    [div_start] would have found a node to take out. *)
Theorem add_refused_iff_deletable a fuel ds sz us uv nf fs raw s t :
  represents s t → alloc_fresh s t → (size t < fuel)%nat →
  rando_map_add a fuel ds sz us uv nf fs raw s ≠ Fatal "rando_map mmap failed" →
  (rando_map_add a fuel ds sz us uv nf fs raw s =
     Fatal "overlapping rando map nodes"
   ↔ ∃ s', rando_map_delete fuel ds s = Done tt s').
Proof.
  intros Hr Hfresh Hfuel Hmm.
  destruct (rando_map_add_spec a fuel ds sz us uv nf fs raw s t Hr Hfresh Hfuel)
    as [[_ Hfat]|(p & s1 & _ & _ & _ & H)]; [done|].
  pose proof (rando_map_delete_spec fuel ds s t Hr Hfuel) as Hd.
  pose proof (insert_tree_None_iff p (new_entry a ds sz us uv nf fs raw) t) as Hiff.
  cbn [new_entry e_start] in Hiff.
  destruct (insert_tree p _ t) as [t'|].
  - destruct H as (s' & Hrun & _). split; [by rewrite Hrun|].
    intros (s2 & Hrun2). destruct Hiff as [_ Hiff].
    destruct (delete_tree ds t) as [[[v e] t2]|]; [|by rewrite Hd in Hrun2].
    by specialize (Hiff ltac:(by eexists)).
  - split; [|done]. intros _. destruct Hiff as [Hiff _].
    destruct (Hiff eq_refl) as [[[v e] t2] Hdel]. rewrite Hdel in Hd.
    destruct Hd as (s' & Hrun & _). eauto.
Qed.

Lemma add_refused_iff_deletable_witness :
  rando_map_add aarch64 4 0x1200 0x40 0xB000 0xB000 0 0 5 ex_one =
     Fatal "overlapping rando map nodes"
   ↔ ∃ s', rando_map_delete 4 0x1200 ex_one = Done tt s'.
Proof.
  apply (add_refused_iff_deletable aarch64 4 0x1200 0x40 0xB000 0xB000 0 0 5
           ex_one ex_one_tree).
  - solve_represents.
  - solve_decide.
  - simpl. lia.
  - vm_compute. discriminate.
Defined.

(** X7.  A non-empty interval [A, A+len) that lies wholly after or wholly
    before each live interval is never refused as overlapping: on a
    registry whose intervals are ascending and pairwise disjoint,
    [rando_map_add] returns (unless no page can be mapped) and the
    intervals are still ascending and pairwise disjoint. *)
Theorem disjoint_add_accepted a fuel A len O V N F raw s t :
  represents s t → alloc_fresh s t → (size t < fuel)%nat →
  ordered_disjoint t →
  0 ≤ A → 0 < len → A + len < addr_modulus a →
  Forall (λ y, (e_start y ≤ A ∧ e_end y ≤ A) ∨ A + len ≤ e_start y) (entries t) →
  rando_map_add a fuel A len O V N F raw s = Fatal "rando_map mmap failed" ∨
  ∃ s' t', rando_map_add a fuel A len O V N F raw s = Done tt s' ∧
           represents s' t' ∧ ordered_disjoint t' ∧
           new_entry a A len O V N F raw ∈ entries t'.
Proof.
  intros Hr Hfresh Hfuel Hod HA Hlen HM Hall.
  destruct (rando_map_add_spec a fuel A len O V N F raw s t Hr Hfresh Hfuel)
    as [[_ Hfat]|(p & s1 & _ & _ & _ & H)]; [by left|]. right.
  set (x := new_entry a A len O V N F raw) in *.
  assert (e_end x = A + len) as Hend by (simpl; apply Z.mod_small; lia).
  assert (is_Some (insert_tree p x t)) as [t' Hins].
  { apply insert_tree_disjoint_Some; [unfold nonempty; rewrite Hend; simpl; lia|].
    eapply Forall_impl; [exact Hall|]. intros y Hy. unfold before.
    rewrite Hend. simpl in *. lia. }
  rewrite Hins in H. destruct H as (s' & Hrun & Hr' & _).
  exists s', t'. split; [done|]. split; [done|]. split.
  - apply (insert_tree_ordered _ _ _ _ Hins Hod).
    eapply Forall_impl; [exact Hall|]. intros y Hy. rewrite Hend. simpl in *. lia.
  - destruct (insert_tree_items _ _ _ _ Hins) as (l1 & l2 & _ & E).
    unfold entries. rewrite E, fmap_app, fmap_cons, elem_of_app, elem_of_cons.
    simpl. tauto.
Qed.

Lemma disjoint_add_accepted_witness :
  rando_map_add aarch64 4 0x2000 0x400 0xA000 0xA000 5 0x7100 900 ex_one =
    Fatal "rando_map mmap failed" ∨
  ∃ s' t', rando_map_add aarch64 4 0x2000 0x400 0xA000 0xA000 5 0x7100 900 ex_one =
             Done tt s' ∧
           represents s' t' ∧ ordered_disjoint t' ∧
           new_entry aarch64 0x2000 0x400 0xA000 0xA000 5 0x7100 900 ∈ entries t'.
Proof.
  apply (disjoint_add_accepted aarch64 4 0x2000 0x400 0xA000 0xA000 5 0x7100 900
           ex_one ex_one_tree).
  - solve_represents.
  - solve_decide.
  - simpl. lia.
  - unfold ordered_disjoint. vm_compute. repeat constructor.
  - lia.
  - lia.
  - vm_compute. reflexivity.
  - change (entries ex_one_tree) with [ex_entry1].
    constructor; [left; simpl; lia|constructor].
Defined.

(** X8.  Registration followed by removal is a round trip: after
    [rando_map_add] of a non-empty interval that lies wholly before or
    after each live interval, [rando_map_delete] of its start returns; the
    tree then holds the nodes it held before the registration, at their
    addresses, with their content and in their order, and the node that was
    handed out is the head of the free list. *)
Theorem add_then_delete_restores a fuel A len O V N F raw s t s1 :
  represents s t → alloc_fresh s t → (S (size t) < fuel)%nat →
  ordered_disjoint t →
  0 ≤ A → 0 < len → A + len < addr_modulus a →
  Forall (λ y, (e_start y ≤ A ∧ e_end y ≤ A) ∨ A + len ≤ e_start y) (entries t) →
  rando_map_add a fuel A len O V N F raw s = Done tt s1 →
  ∃ s2 t2 p,
    rando_map_delete fuel A s1 = Done tt s2 ∧
    represents s2 t2 ∧ items t2 = items t ∧
    (p ∉ addrs t) ∧ free_list s2 = p ∧
    nodes s2 !! p = Some (mkNode 0 0 0 0 0 0 0 (free_list s1) 0).
Proof.
  intros Hr Hfresh Hfuel Hod HA Hlen HM Hall Hrun.
  assert (size t < fuel)%nat as Hfuel0 by lia.
  destruct (rando_map_add_links _ _ _ _ _ _ _ _ _ _ _ _ Hr Hfresh Hfuel0 Hrun)
    as (t1 & p & Hr1 & _ & Hpt & Hins & Hin).
  set (x := new_entry a A len O V N F raw) in *.
  assert (e_end x = A + len) as Hend by (simpl; apply Z.mod_small; lia).
  assert (ordered_disjoint t1) as Hod1.
  { apply (insert_tree_ordered _ _ _ _ Hins Hod).
    eapply Forall_impl; [exact Hall|]. intros y Hy. rewrite Hend. simpl in *. lia. }
  assert (contains x A) as Hc by (unfold contains; rewrite Hend; simpl; lia).
  destruct (delete_tree_finds A t1 p x Hod1 Hin Hc) as (t2 & Hdel).
  assert (size t1 < fuel)%nat as Hfuel1.
  { rewrite !size_items in *. rewrite (insert_tree_size _ _ _ _ Hins). lia. }
  pose proof (rando_map_delete_spec fuel A s1 t1 Hr1 Hfuel1) as H.
  rewrite Hdel in H. destruct H as (s2 & Hrun2 & Hr2 & Hv & Hfl & _).
  exists s2, t2, p. split; [done|]. split; [done|]. split; [|done].
  destruct (insert_tree_items _ _ _ _ Hins) as (l1 & l2 & E & E1).
  destruct (delete_tree_items _ _ _ _ _ Hdel) as (_ & l1' & l2' & E1' & E2).
  destruct Hr1 as (_ & _ & Hnd). unfold addrs in Hnd. rewrite E1 in Hnd.
  rewrite E1 in E1'.
  destruct (items_split_unique _ _ _ _ _ _ _ Hnd E1') as (-> & _ & ->).
  by rewrite E, E2.
Qed.

Lemma add_then_delete_restores_witness :
  ∃ s2 t2 p,
    rando_map_delete 4 0x2000 ex_two = Done tt s2 ∧
    represents s2 t2 ∧ items t2 = items ex_one_tree ∧
    (p ∉ addrs ex_one_tree) ∧ free_list s2 = p ∧
    nodes s2 !! p = Some (mkNode 0 0 0 0 0 0 0 (free_list ex_two) 0).
Proof.
  apply (add_then_delete_restores aarch64 4 0x2000 0x400 0xA000 0xA000 5 0x7100 900
           ex_one ex_one_tree ex_two).
  - solve_represents.
  - solve_decide.
  - simpl. lia.
  - unfold ordered_disjoint. vm_compute. repeat constructor.
  - lia.
  - lia.
  - vm_compute. reflexivity.
  - change (entries ex_one_tree) with [ex_entry1].
    constructor; [left; simpl; lia|constructor].
  - vm_compute. reflexivity.
Defined.

(** X9.  A removal cannot be repeated: on a registry whose intervals are
    ascending and pairwise disjoint, once [rando_map_delete] of an address
    has returned, a second [rando_map_delete] of the same address reaches
    the fatal path. *)
Theorem delete_twice_fatal fuel d s t s1 :
  represents s t → ordered_disjoint t → (size t < fuel)%nat →
  rando_map_delete fuel d s = Done tt s1 →
  rando_map_delete fuel d s1 = Fatal "trying to delete inexistent node".
Proof.
  intros Hr Hod Hfuel Hrun.
  pose proof (rando_map_delete_spec fuel d s t Hr Hfuel) as H.
  destruct (delete_tree d t) as [[[v e] t1]|] eqn:Hdel; [|congruence].
  destruct H as (s1' & Hrun' & Hr1 & _).
  assert (s1' = s1) as -> by congruence.
  destruct (delete_tree_items _ _ _ _ _ Hdel) as (Hc & l1 & l2 & E1 & E2).
  assert (size t1 < fuel)%nat as Hfuel1.
  { rewrite !size_items in *. rewrite E1 in Hfuel. rewrite E2.
    rewrite length_app in *. simpl in *. lia. }
  pose proof (rando_map_delete_spec fuel d s1 t1 Hr1 Hfuel1) as H.
  rewrite delete_tree_None in H; [done|].
  unfold ordered_disjoint, entries in Hod.
  rewrite E1, fmap_app, fmap_cons in Hod.
  pose proof (ordered_disjoint_others l1 l2 e d Hod Hc) as Hall.
  unfold entries. rewrite E2. apply Forall_fmap.
  eapply Forall_impl; [exact Hall|]. by intros [q y].
Qed.

Lemma delete_twice_fatal_witness :
  rando_map_delete 3 0x1200 (state_of (rando_map_delete 3 0x1200 ex_two)) =
    Fatal "trying to delete inexistent node".
Proof.
  apply (delete_twice_fatal 3 0x1200 ex_two ex_two_tree).
  - solve_represents.
  - unfold ordered_disjoint. vm_compute. repeat constructor; discriminate.
  - simpl. lia.
  - vm_compute. reflexivity.
Defined.

(** X10.  The free list is reused last in, first out: the
    [rando_map_add] that follows a [rando_map_delete] places the new node
    at the address of the node just taken out, maps no page, and leaves the
    free list as it was before the removal. *)
Theorem delete_then_add_reuses_node a fuel d ds sz us uv nf fs raw s t s1 s2 :
  represents s t → (size t < fuel)%nat →
  rando_map_delete fuel d s = Done tt s1 →
  rando_map_add a fuel ds sz us uv nf fs raw s1 = Done tt s2 →
  ∃ v t2,
    v ∈ addrs t ∧ represents s2 t2 ∧
    (v, new_entry a ds sz us uv nf fs raw) ∈ items t2 ∧
    (∀ q, q ∈ addrs t2 → q ∈ addrs t) ∧
    free_list s1 = v ∧ free_list s2 = free_list s ∧
    mmap_pool s2 = mmap_pool s.
Proof.
  intros Hr Hfuel Hrun1 Hrun2.
  pose proof (rando_map_delete_spec fuel d s t Hr Hfuel) as H.
  destruct (delete_tree d t) as [[[v e] t1]|] eqn:Hdel; [|congruence].
  destruct H as (s1' & Hrun' & Hr1 & Hv & Hfl & Hcp & Hpool & _).
  assert (s1' = s1) as -> by congruence.
  pose proof Hr as (_ & Hrep & Hnd).
  destruct (delete_tree_NoDup _ _ _ _ _ Hdel Hnd) as (_ & Hvt & Hvt1 & Hsub).
  assert (v ≠ 0) as Hv0 by (eapply rep_nonzero; eauto).
  assert (alloc_fresh s1 t1) as Hfresh.
  { unfold alloc_fresh. rewrite Hfl. by rewrite decide_True. }
  assert (size t1 < fuel)%nat as Hfuel1.
  { destruct (delete_tree_items _ _ _ _ _ Hdel) as (_ & l1 & l2 & E1 & E2).
    rewrite !size_items in *. rewrite E1 in Hfuel. rewrite E2.
    rewrite length_app in *. simpl in *. lia. }
  destruct (rando_map_add_spec a fuel ds sz us uv nf fs raw s1 t1 Hr1 Hfresh Hfuel1)
    as [[_ Hfat]|(p & s1a & Halloc & _ & _ & H)]; [congruence|].
  rewrite alloc_node_free in Halloc by (by rewrite Hfl).
  rewrite Hfl, Hv in Halloc. injection Halloc as <- <-.
  destruct (insert_tree v _ t1) as [t2|] eqn:Hins; [|congruence].
  destruct H as (s2' & Hrun2' & Hr2 & (_ & Hfl2 & Hpool2) & _).
  assert (s2' = s2) as -> by congruence.
  exists v, t2. split; [done|]. split; [done|]. split; [|split; [|split; [done|split]]].
  - destruct (insert_tree_items _ _ _ _ Hins) as (l1 & l2 & _ & ->).
    rewrite elem_of_app, elem_of_cons. tauto.
  - intros q. rewrite (insert_tree_addrs _ _ _ _ Hins), elem_of_cons.
    intros [->|Hq]; [done|]. by apply Hsub.
  - by rewrite Hfl2.
  - by rewrite Hpool2.
Qed.

Lemma delete_then_add_reuses_node_witness :
  ∃ v t2,
    v ∈ addrs ex_one_tree ∧ represents ex_reused t2 ∧
    (v, new_entry aarch64 0x2000 0x400 0xA000 0xA000 5 0x7100 900) ∈ items t2 ∧
    (∀ q, q ∈ addrs t2 → q ∈ addrs ex_one_tree) ∧
    free_list ex_freed = v ∧ free_list ex_reused = free_list ex_one ∧
    mmap_pool ex_reused = mmap_pool ex_one.
Proof.
  apply (delete_then_add_reuses_node aarch64 4 0x1000 0x2000 0x400 0xA000 0xA000
           5 0x7100 900 ex_one ex_one_tree ex_freed ex_reused).
  - solve_represents.
  - simpl. lia.
  - vm_compute. reflexivity.
  - vm_compute. reflexivity.
Defined.

(** X11.  On a heap-ordered registry the header's root pointer moves to
    the new node exactly when the tree was empty or the new priority is
    strictly greater than that of the old root; otherwise the root stays
    where it was.  The tree is heap-ordered afterwards. *)
Theorem add_new_root a fuel ds sz us uv nf fs raw s t s' :
  represents s t → alloc_fresh s t → (size t < fuel)%nat → heap t →
  rando_map_add a fuel ds sz us uv nf fs raw s = Done tt s' →
  ∃ t' p,
    represents s' t' ∧ heap t' ∧
    (p, new_entry a ds sz us uv nf fs raw) ∈ items t' ∧ (p ∉ addrs t) ∧
    (root_of t' = p ↔
     t = Leaf ∨ top_prio t < arc4random_uniform UINT32_MAX raw) ∧
    (root_of t' ≠ p → root_of t' = root_of t).
Proof.
  intros Hr Hfresh Hfuel Hh Hrun.
  destruct (rando_map_add_links _ _ _ _ _ _ _ _ _ _ _ _ Hr Hfresh Hfuel Hrun)
    as (t' & p & Hr' & _ & Hpt & Hins & Hin).
  destruct (insert_tree_root _ _ _ _ Hins Hh) as (H1 & H2).
  cbn [new_entry e_prio] in H1, H2.
  exists t', p. split; [done|].
  split; [by apply (insert_tree_heap _ _ _ _ Hins)|].
  split; [done|]. split; [done|].
  assert (t ≠ Leaf → root_of t ∈ addrs t) as Hroot.
  { destruct t as [|l q y r]; [done|]. intros _.
    rewrite addrs_Node, elem_of_app, elem_of_cons. tauto. }
  destruct (decide (top_prio t < arc4random_uniform UINT32_MAX raw)) as [Hlt|Hge].
  - destruct (H1 ltac:(by right)) as (-> & _). split; [tauto|done].
  - destruct t as [|l q y r] eqn:Et.
    + destruct (H1 ltac:(by left)) as (-> & _). split; [tauto|done].
    + destruct (H2 ltac:(done) ltac:(lia)) as (E & _). split; [|done].
      split; [|intros [?|?]; [done|lia]].
      intros Hp. exfalso. apply Hpt. rewrite <- Hp, E. by apply Hroot.
Qed.

Lemma add_new_root_witness :
  ∃ t' p,
    represents ex_two t' ∧ heap t' ∧
    (p, new_entry aarch64 0x2000 0x400 0xA000 0xA000 5 0x7100 900) ∈ items t' ∧
    (p ∉ addrs ex_one_tree) ∧
    (root_of t' = p ↔
     ex_one_tree = Leaf ∨ top_prio ex_one_tree < arc4random_uniform UINT32_MAX 900) ∧
    (root_of t' ≠ p → root_of t' = root_of ex_one_tree).
Proof.
  apply (add_new_root aarch64 4 0x2000 0x400 0xA000 0xA000 5 0x7100 900
           ex_one ex_one_tree ex_two).
  - solve_represents.
  - solve_decide.
  - simpl. lia.
  - vm_compute. tauto.
  - vm_compute. reflexivity.
Defined.

(** X12.  The two rotations undo each other.  At a slot that holds a node
    with a left son, [rotate_left_son] makes the son the node in the slot,
    keeps the in-order sequence of the nodes, and a [rotate_right_son] at
    the same slot then restores the memory and the slot exactly. *)
Theorem rotations_inverse ptr s ll p' e' lr q y r :
  slot_holds ptr q s →
  rep (nodes s) (Node (Node ll p' e' lr) q y r) →
  NoDup (addrs (Node (Node ll p' e' lr) q y r)) →
  slot_sep ptr (addrs (Node (Node ll p' e' lr) q y r)) →
  ∃ s1, rotate_left_son ptr s = Done p' s1 ∧
        slot_holds ptr p' s1 ∧
        rep (nodes s1) (Node ll p' e' (Node lr q y r)) ∧
        items (Node ll p' e' (Node lr q y r)) =
          items (Node (Node ll p' e' lr) q y r) ∧
        rotate_right_son ptr s1 = Done q s.
Proof.
  intros Hslot Hrep Hnd Hsep.
  set (T := Node (Node ll p' e' lr) q y r) in *.
  set (T' := Node ll p' e' (Node lr q y r)).
  assert (items T' = items T) as Hitems.
  { unfold T, T'. rewrite !items_Node. by rewrite <- app_assoc. }
  assert (addrs T' = addrs T) as Haddrs by (unfold addrs; by rewrite Hitems).
  assert (p' ∈ addrs T ∧ q ∈ addrs T) as [Hp'T HqT].
  { unfold T. rewrite !elem_of_addrs_Node. tauto. }
  assert (slot_sep ptr [p'; q]) as Hsep2.
  { eapply slot_sep_mono; [|exact Hsep]. intros z.
    rewrite !elem_of_cons, elem_of_nil. intros [->|[->|[]]]; done. }
  assert (slot_sep ptr [q; p']) as Hsep3.
  { eapply slot_sep_mono; [|exact Hsep]. intros z.
    rewrite !elem_of_cons, elem_of_nil. intros [->|[->|[]]]; done. }
  destruct (rotate_left_son_rep ptr s ll p' e' lr q y r Hslot Hrep Hnd Hsep2)
    as (m1 & Hag1 & Hrep1 & Hrun1).
  set (s0 := set_nodes m1 s) in *.
  assert (slot_holds ptr q s0) as Hslot0
    by (apply (slot_holds_agree _ _ _ _ _ Hslot Hsep2 Hag1)).
  set (s1 := put_slot ptr p' s0) in *.
  assert (slot_holds ptr p' s1) as Hslot1 by (eapply slot_holds_put_slot; eauto).
  assert (rep (nodes s1) T') as Hrep1'.
  { eapply rep_agree; [|exact Hrep1]. intros z Hz. unfold s1.
    apply nodes_put_slot. eapply slot_sep_mono; [|exact Hsep].
    intros z'. rewrite elem_of_cons, elem_of_nil. intros [->|[]].
    by rewrite <- Haddrs. }
  exists s1. split; [done|]. split; [done|]. split; [done|]. split; [done|].
  destruct (rotate_right_son_rep ptr s1 ll p' e' lr q y r Hslot1 Hrep1'
              ltac:(by fold T'; rewrite Haddrs) Hsep3)
    as (m2 & Hag2 & Hrep2 & Hrun2).
  rewrite Hrun2. f_equal.
  destruct (put_slot_commute ptr p' q s0 m2 [q; p'] Hslot0 Hsep3 Hag2)
    as (m' & Hag' & Hm' & E).
  unfold s1. rewrite E. clear E.
  unfold s0. rewrite set_nodes_set_nodes.
  assert (m' = nodes s) as ->.
  { apply map_eq. intros k.
    destruct (decide (k ∈ [q; p'])) as [Hk|Hk].
    - rewrite (Hm' k Hk).
      destruct Hrep as (_ & Hmq & (_ & Hmp & _) & _).
      destruct Hrep2 as (_ & Hmq2 & (_ & Hmp2 & _) & _).
      apply elem_of_cons in Hk as [->|Hk]; [congruence|].
      apply elem_of_cons in Hk as [->|Hk]; [congruence|].
      by apply elem_of_nil in Hk.
    - rewrite (Hag' k Hk). unfold s0. simpl. apply Hag1.
      intros Hin. apply Hk. revert Hin.
      rewrite !elem_of_cons, !elem_of_nil. tauto. }
  rewrite set_nodes_id.
  rewrite (put_slot_twice _ _ _ _ _ Hslot). by apply put_slot_same.
Qed.

Lemma rotations_inverse_witness :
  ∃ s1, rotate_left_son RootSlot ex_two = Done 0x10010 s1 ∧
        slot_holds RootSlot 0x10010 s1 ∧
        rep (nodes s1) (Node Leaf 0x10010 ex_entry1 (Node Leaf 0x100a0 ex_entry2 Leaf)) ∧
        items (Node Leaf 0x10010 ex_entry1 (Node Leaf 0x100a0 ex_entry2 Leaf)) =
          items (Node (Node Leaf 0x10010 ex_entry1 Leaf) 0x100a0 ex_entry2 Leaf) ∧
        rotate_right_son RootSlot s1 = Done 0x100a0 ex_two.
Proof.
  apply (rotations_inverse RootSlot ex_two Leaf 0x10010 ex_entry1 Leaf
           0x100a0 ex_entry2 Leaf).
  - eexists. split; vm_compute; reflexivity.
  - vm_compute. repeat split; discriminate.
  - solve_decide.
  - exact I.
Defined.

(** X13.  A registration touches no other registration: when
    [rando_map_add] returns, every node that was live is still in the tree
    at its address with its content, the nodes are in the same order, and
    exactly one node, at an address that was not live, has been added. *)
Theorem add_keeps_live_nodes a fuel ds sz us uv nf fs raw s t s' :
  represents s t → alloc_fresh s t → (size t < fuel)%nat →
  rando_map_add a fuel ds sz us uv nf fs raw s = Done tt s' →
  ∃ t' p l1 l2,
    represents s' t' ∧ (p ∉ addrs t) ∧
    items t = l1 ++ l2 ∧
    items t' = l1 ++ (p, new_entry a ds sz us uv nf fs raw) :: l2.
Proof.
  intros Hr Hfresh Hfuel Hrun.
  destruct (rando_map_add_links _ _ _ _ _ _ _ _ _ _ _ _ Hr Hfresh Hfuel Hrun)
    as (t' & p & Hr' & _ & Hpt & Hins & _).
  destruct (insert_tree_items _ _ _ _ Hins) as (l1 & l2 & E & E').
  by exists t', p, l1, l2.
Qed.

Lemma add_keeps_live_nodes_witness :
  ∃ t' p l1 l2,
    represents ex_two t' ∧ (p ∉ addrs ex_one_tree) ∧
    items ex_one_tree = l1 ++ l2 ∧
    items t' = l1 ++ (p, new_entry aarch64 0x2000 0x400 0xA000 0xA000 5 0x7100 900) :: l2.
Proof.
  apply (add_keeps_live_nodes aarch64 4 0x2000 0x400 0xA000 0xA000 5 0x7100 900
           ex_one ex_one_tree ex_two).
  - solve_represents.
  - solve_decide.
  - simpl. lia.
  - vm_compute. reflexivity.
Defined.

(** X14.  Nothing initialises the registry on first use.  While the
    header pointer is null, [rando_map_delete] reads the root through it,
    and [rando_map_add], unless it ends on a failed page mapping, writes
    through a null node pointer or reads the root through the null header;
    neither ever returns.  On the statics as they are at program start,
    [alloc_node] maps no page and hands out the null bump pointer. *)
Theorem registry_use_before_init a fuel ds sz us uv nf fs raw d s :
  rando_map_header s = None →
  (rando_map_add a (S fuel) ds sz us uv nf fs raw s = Fault ∨
   rando_map_add a (S fuel) ds sz us uv nf fs raw s = Fatal "rando_map mmap failed") ∧
  rando_map_delete (S fuel) d s = Fault ∧
  alloc_node a (initial_state (mmap_pool s)) =
    Done 0 (set_current_page (mkPage (wrap a (sizeof_RandoMapNode a)) 0)
              (initial_state (mmap_pool s))).
Proof.
  intros Hh. split; [|split].
  - assert (∀ node s1, rando_map_header s1 = None →
              (bump_next a ;;;
               update node (set_div_start ds) ;;;
               update node (set_div_end (wrap a (ds + sz))) ;;;
               update node (set_undiv_start us) ;;;
               update node (set_undiv_vaddr uv) ;;;
               update node (set_num_funcs nf) ;;;
               update node (set_funcs fs) ;;;
               update node (set_left 0) ;;;
               update node (set_right 0) ;;;
               update node (set_prio (arc4random_uniform UINT32_MAX raw)) ;;;
               map_tree_insert_node (S fuel) node RootSlot) s1 = Fault) as Hrest.
    { intros node s1 Hh1. unfold bump_next at 1. unfold bind at 1.
      destruct (decide (node = 0)) as [->|Hnode]; [done|].
      rewrite fill_node by done.
      rewrite map_tree_insert_node_S. unfold bind at 1. simpl. by rewrite Hh1. }
    unfold rando_map_add.
    destruct (decide (free_list s ≠ 0)) as [Hfl|Hfl].
    { rewrite (bind_Done _ _ _ _ _ (alloc_node_free a s Hfl)). left. by apply Hrest. }
    assert (free_list s = 0) as Hfl0 by (destruct (decide (free_list s = 0)); tauto).
    destruct (decide (next (current_page s) > limit (current_page s))) as [Hgt|Hgt].
    + pose proof (alloc_node_page a s Hfl0 Hgt) as Hal.
      destruct (mmap_pool s) as [|b pool].
      * right. by apply bind_Fatal.
      * rewrite (bind_Done _ _ _ _ _ Hal). left. by apply Hrest.
    + rewrite (bind_Done _ _ _ _ _ (alloc_node_bump a s Hfl0 Hgt)). left.
      by apply Hrest.
  - unfold rando_map_delete. rewrite map_tree_delete_node_S.
    unfold bind. simpl. by rewrite Hh.
  - reflexivity.
Qed.

Lemma registry_use_before_init_witness :
  (rando_map_add aarch64 4 0x1000 0x400 0x9000 0x9000 3 0x7000 700
     (initial_state [0x10000]) = Fault ∨
   rando_map_add aarch64 4 0x1000 0x400 0x9000 0x9000 3 0x7000 700
     (initial_state [0x10000]) = Fatal "rando_map mmap failed") ∧
  rando_map_delete 4 0x1000 (initial_state [0x10000]) = Fault ∧
  alloc_node aarch64 (initial_state (mmap_pool (initial_state [0x10000]))) =
    Done 0 (set_current_page (mkPage (wrap aarch64 (sizeof_RandoMapNode aarch64)) 0)
              (initial_state (mmap_pool (initial_state [0x10000])))).
Proof.
  apply (registry_use_before_init aarch64 3 0x1000 0x400 0x9000 0x9000 3 0x7000 700
           0x1000 (initial_state [0x10000])).
  reflexivity.
Defined.

(** ** The sampler and the POT base *)

(** X15.  How often the sampler redraws.  On AArch64 the window size
    divides 2^64, [min] is zero and the first draw is always taken; on ARM
    [min] is 0x4000000 and exactly the draws below it are rejected.  The
    addition of [RAND_ADDR_LOW] never wraps. *)
Theorem sampler_rejections :
  sampler_min aarch64 = 0 ∧ sampler_min arm = 0x4000000 ∧
  (∀ v rest, 0 ≤ v →
     get_random_address aarch64 (v :: rest) =
       Some (RAND_ADDR_LOW aarch64 + v mod 0x4000000000)) ∧
  (∀ v rest,
     get_random_address arm (v :: rest) =
       if decide (v < 0x4000000) then get_random_address arm rest
       else Some (RAND_ADDR_LOW arm + v mod 0x6000000)).
Proof.
  split; [by vm_compute|]. split; [by vm_compute|]. split.
  - intros v rest Hv. unfold get_random_address. simpl.
    change (sampler_min aarch64) with 0. rewrite decide_False by lia.
    destruct (address_of_draw_range aarch64 v) as (_ & ->).
    change (sampler_range aarch64) with 0x4000000000. f_equal. apply Z.add_comm.
  - intros v rest. unfold get_random_address. simpl.
    change (sampler_min arm) with 0x4000000.
    destruct (decide (v < 0x4000000)); [done|].
    destruct (address_of_draw_range arm v) as (_ & ->).
    change (sampler_range arm) with 0x6000000. f_equal. apply Z.add_comm.
Qed.

(** X16.  The sampler reaches the whole window: every address of
    [RAND_ADDR_LOW, RAND_ADDR_HIGH) is returned for some full-width
    draw. *)
Theorem sampler_onto a addr :
  RAND_ADDR_LOW a ≤ addr < RAND_ADDR_HIGH a →
  ∃ v, 0 ≤ v < addr_modulus a ∧ get_random_address a [v] = Some addr.
Proof.
  intros Haddr.
  destruct (sampler_constants a) as (Hr & Hre & Hl & Hh & Hmin & Hk & Hsplit).
  set (r := addr - RAND_ADDR_LOW a).
  assert (0 ≤ r < sampler_range a) as Hrr by (unfold r; lia).
  exists (if decide (r < sampler_min a) then r + sampler_range a else r).
  assert (sampler_range a + sampler_min a ≤ addr_modulus a) as Hroom by nia.
  split; [case_decide; lia|].
  unfold get_random_address. simpl.
  rewrite decide_False by (case_decide; lia). f_equal.
  destruct (address_of_draw_range a
              (if decide (r < sampler_min a) then r + sampler_range a else r))
    as (_ & ->).
  case_decide.
  - replace (r + sampler_range a) with (r + 1 * sampler_range a) by lia.
    rewrite Z.mod_add by lia. rewrite Z.mod_small by lia. unfold r. lia.
  - rewrite Z.mod_small by lia. unfold r. lia.
Qed.

Lemma sampler_onto_witness :
  ∃ v, 0 ≤ v < addr_modulus arm ∧ get_random_address arm [v] = Some 0xb0000005.
Proof.
  apply (sampler_onto arm 0xb0000005). vm_compute. split; congruence.
Defined.

(** X17.  [get_pot_base] reserves at most once.  On the first call it
    always passes [mmap] a hint inside the sampler's window; it returns 0,
    and leaves the base unset so that the next call tries again, exactly
    when the reservation fails; when the reservation succeeds the address
    is stored, and every later call returns it without drawing or mapping
    again. *)
Theorem get_pot_base_cached a draws mmap :
  Exists (λ r, sampler_min a ≤ r) draws →
  (∀ hint, mmap hint ≠ Some 0) →
  ∃ hint,
    RAND_ADDR_LOW a ≤ hint < RAND_ADDR_HIGH a ∧
    match mmap hint with
    | None => get_pot_base a draws mmap 0 = Some (0, 0)
    | Some map_base =>
        get_pot_base a draws mmap 0 = Some (map_base, map_base) ∧
        ∀ draws' mmap',
          get_pot_base a draws' mmap' map_base = Some (map_base, map_base)
    end.
Proof.
  intros Hex Hnz.
  destruct (first_accepted_Exists _ _ Hex) as (v & Hv).
  assert (get_pot_base a draws mmap 0 =
          match mmap (address_of_draw a v) with
          | None => Some (0, 0)
          | Some map_base => Some (map_base, map_base)
          end) as Hrun.
  { unfold get_pot_base, get_random_address. rewrite decide_True by done.
    by rewrite Hv. }
  exists (address_of_draw a v). split; [apply address_of_draw_range|].
  rewrite Hrun.
  destruct (mmap (address_of_draw a v)) as [b|] eqn:Hm; [|done].
  split; [done|]. intros draws' mmap'. unfold get_pot_base.
  rewrite decide_False; [done|]. intros ->. by apply (Hnz (address_of_draw a v)).
Qed.

Lemma get_pot_base_cached_witness :
  ∃ hint,
    RAND_ADDR_LOW arm ≤ hint < RAND_ADDR_HIGH arm ∧
    match (λ _, Some 0xb1000000) hint with
    | None => get_pot_base arm [0x3ffffff; 0xfffffffe] (λ _, Some 0xb1000000) 0
              = Some (0, 0)
    | Some map_base =>
        get_pot_base arm [0x3ffffff; 0xfffffffe] (λ _, Some 0xb1000000) 0
          = Some (map_base, map_base) ∧
        ∀ draws' mmap',
          get_pot_base arm draws' mmap' map_base = Some (map_base, map_base)
    end.
Proof.
  apply (get_pot_base_cached arm [0x3ffffff; 0xfffffffe] (λ _, Some 0xb1000000)).
  - apply Exists_cons_tl, Exists_cons_hd. vm_compute. congruence.
  - intros hint. discriminate.
Defined.

(** ** The POT index map *)

(** X18.  [get_pot_index] never invents an index: a first call that reads
    the file returns either the sentinel or the zero-based number of a line
    of the file that equals the soname. *)
Theorem pot_index_sound kPOTIndexError content soname :
  (get_pot_index kPOTIndexError (Some content) soname g_pot_map).1 = kPOTIndexError ∨
  ∃ i, (get_pot_index kPOTIndexError (Some content) soname g_pot_map).1 = Z.of_nat i ∧
       split_lines content !! i = Some soname.
Proof.
  rewrite get_pot_index_first.
  destruct (_ !! soname) as [i|] eqn:Hi; [|by left].
  right. exists i. split; [done|]. by apply pot_lookup_sound.
Qed.

(** X19.  Two sonames never share a POT index: when the calls for two
    sonames, answered from the same file, return the same value and it is
    not the sentinel, the sonames are equal. *)
Theorem pot_index_injective kPOTIndexError content soname1 soname2 :
  (get_pot_index kPOTIndexError (Some content) soname1 g_pot_map).1 =
  (get_pot_index kPOTIndexError (Some content) soname2 g_pot_map).1 →
  (get_pot_index kPOTIndexError (Some content) soname1 g_pot_map).1 ≠ kPOTIndexError →
  soname1 = soname2.
Proof.
  rewrite !get_pot_index_first.
  destruct (_ !! soname1) as [i1|] eqn:H1; [|done].
  destruct (_ !! soname2) as [i2|] eqn:H2; [|by intros ->].
  intros E%Nat2Z.inj _. subst i2.
  apply pot_lookup_sound in H1, H2. congruence.
Qed.

Lemma pot_index_injective_witness : ex_soname = ex_soname.
Proof.
  apply (pot_index_injective (-1) ex_twice ex_soname ex_soname).
  - reflexivity.
  - vm_compute. discriminate.
Defined.

(** X20.  The piece after the last newline counts as a line even when it
    is empty: in a file that ends in a newline the empty soname is found,
    at the index that follows the last line, and in the empty file it is
    found at index 0. *)
Theorem pot_index_empty_line kPOTIndexError content :
  (get_pot_index kPOTIndexError (Some (content ++ [newline])) [] g_pot_map).1 =
    Z.of_nat (length (split_lines content)) ∧
  (get_pot_index kPOTIndexError (Some []) [] g_pot_map).1 = 0.
Proof.
  split; [|reflexivity].
  rewrite get_pot_index_first, read_lookup, split_lines_snoc_newline.
  rewrite reverse_app. cbn [reverse rev_append app list_find].
  rewrite decide_True by done. f_equal. rewrite length_app. simpl. lia.
Qed.

(** X21.  No line of the file holds a newline, so a soname that contains
    one is never found: [get_pot_index] returns the sentinel for it,
    whatever the file. *)
Theorem pot_index_newline_soname kPOTIndexError file soname :
  newline ∈ soname →
  (get_pot_index kPOTIndexError file soname g_pot_map).1 = kPOTIndexError.
Proof.
  intros Hnl. destruct file as [content|]; [|done].
  rewrite get_pot_index_first.
  destruct (_ !! soname) as [i|] eqn:Hi; [|done].
  apply pot_lookup_sound in Hi. exfalso.
  apply (split_lines_newline_free content soname); [|done].
  by eapply list_elem_of_lookup_2.
Qed.

Lemma pot_index_newline_soname_witness :
  (get_pot_index (-1) (Some ex_twice) [newline] g_pot_map).1 = -1.
Proof.
  apply (pot_index_newline_soname (-1) (Some ex_twice) [newline]).
  by left.
Defined.

(** ** Page exhaustion *)

(** X22.  When the free list is empty and the bump pointer has passed the
    page limit, [rando_map_add] asks for a page: it is fatal when none can
    be mapped; otherwise, unless the registration is refused as overlapping,
    the new node is the first slot of the fresh page, and the bump pointer
    is left two nodes into that page. *)
Theorem add_maps_page_when_full a fuel ds sz us uv nf fs raw s t fl :
  arena_ok a s t fl → (size t < fuel)%nat →
  free_list s = 0 →
  next (current_page s) > limit (current_page s) →
  match mmap_pool s with
  | [] => rando_map_add a fuel ds sz us uv nf fs raw s = Fatal "rando_map mmap failed"
  | b :: pool =>
      rando_map_add a fuel ds sz us uv nf fs raw s =
        Fatal "overlapping rando map nodes" ∨
      ∃ s' t', rando_map_add a fuel ds sz us uv nf fs raw s = Done tt s' ∧
               represents s' t' ∧
               (b, new_entry a ds sz us uv nf fs raw) ∈ items t' ∧
               mmap_pool s' = pool ∧
               current_page s' =
                 mkPage (b + 2 * sizeof_RandoMapNode a)
                        (b + PAGE_SIZE - sizeof_RandoMapNode a)
  end.
Proof.
  intros Hok Hfuel Hfl Hgt.
  pose proof (arena_ok_alloc_fresh _ _ _ _ Hok) as Hfresh.
  destruct Hok as (Hr & _ & _ & _ & _ & Hpool & _).
  destruct (sizeof_RandoMapNode_bounds a) as (Hsz & Hsz2 & HP & _).
  pose proof (alloc_node_page a s Hfl Hgt) as Halloc.
  destruct (mmap_pool s) as [|b pool] eqn:Epool.
  { unfold rando_map_add. by apply bind_Fatal. }
  apply Forall_cons in Hpool as ((Hb & HbM & _) & _).
  destruct (rando_map_add_spec a fuel ds sz us uv nf fs raw s t Hr Hfresh Hfuel)
    as [[Hfat _]|(p & s1 & Halloc' & _ & _ & H)]; [congruence|].
  rewrite Halloc in Halloc'. injection Halloc' as <- <-.
  destruct (insert_tree b _ t) as [t'|] eqn:Hins; [|by left].
  right. destruct H as (s' & Hrun & Hr' & (Hcp & _ & Hpool') & _).
  exists s', t'. split; [done|]. split; [done|]. split; [|split].
  - destruct (insert_tree_items _ _ _ _ Hins) as (l1 & l2 & _ & ->).
    rewrite elem_of_app, elem_of_cons. tauto.
  - by rewrite Hpool'.
  - rewrite Hcp. simpl.
    assert (wrap a (b + sizeof_RandoMapNode a) = b + sizeof_RandoMapNode a) as ->
      by (apply wrap_small; lia).
    rewrite wrap_small by lia.
    assert (wrap a (wrap a (b + PAGE_SIZE) - sizeof_RandoMapNode a)
            = b + PAGE_SIZE - sizeof_RandoMapNode a) as ->.
    { unfold wrap. rewrite Zminus_mod_idemp_l. apply Z.mod_small. lia. }
    f_equal. lia.
Qed.

Lemma add_maps_page_when_full_witness :
  rando_map_add aarch64 4 0x2000 0x400 0xA000 0xA000 5 0x7100 900 ex_full =
    Fatal "overlapping rando map nodes" ∨
  ∃ s' t', rando_map_add aarch64 4 0x2000 0x400 0xA000 0xA000 5 0x7100 900 ex_full =
             Done tt s' ∧
           represents s' t' ∧
           (0x20000, new_entry aarch64 0x2000 0x400 0xA000 0xA000 5 0x7100 900)
             ∈ items t' ∧
           mmap_pool s' = [] ∧
           current_page s' =
             mkPage (0x20000 + 2 * sizeof_RandoMapNode aarch64)
                    (0x20000 + PAGE_SIZE - sizeof_RandoMapNode aarch64).
Proof.
  apply (add_maps_page_when_full aarch64 4 0x2000 0x400 0xA000 0xA000 5 0x7100 900
           ex_full ex_one_tree []).
  - solve_arena.
  - simpl. lia.
  - reflexivity.
  - reflexivity.
Defined.
